(** * Lazy K graph reducer (lazy.cpp): shallow embedding and verified properties

    The interpreter keeps every expression in a mutable graph of cells, all of
    one size, living either in one of two arenas ([space1], [space2]) or among
    a dozen statically allocated atoms.  The embedding below follows the C++
    text function by function:

    - a pointer [Expr*] is a [Z]: the cell number of its target, counted in
      units of [sizeof(Expr)]; the null pointer is [0];
    - memory is a finite map from cell numbers to cells; dereferencing a
      pointer that has no cell is undefined behaviour and is reported as the
      outcome [Fault];
    - the global variables of the program are the fields of [state];
    - every function of the source is a computation in the monad [M], whose
      outcomes separate a normal return from [exit(n)], [abort()], undefined
      behaviour and running out of fuel (loops and recursion are bounded by a
      [nat] that the theorems quantify over). *)

From Stdlib Require Import ZArith Lia List Ascii.
From stdpp Require Import gmap list strings pretty.

Local Open Scope Z_scope.

(** ** Expression cells *)

(** [enum Type { A, K, K1, S, S1, S2, I, I1, LazyRead, Inc, Num, Free }].
    The constructors stay inside their module so that [S] and [I] keep their
    usual meaning elsewhere. *)
Module Tag.
Inductive t : Set :=
  A | K | K1 | S | S1 | S2 | I | I1 | LazyRead | Inc | Num | Free.

(** The integer value of an enumerator, as printed with [%d]. *)
Definition to_Z (x : t) : Z :=
  match x with
  | A => 0 | K => 1 | K1 => 2 | S => 3 | S1 => 4 | S2 => 5
  | I => 6 | I1 => 7 | LazyRead => 8 | Inc => 9 | Num => 10 | Free => 11
  end.
End Tag.

#[global] Instance Tag_eq_dec : EqDecision Tag.t.
Proof. solve_decision. Defined.

(** [struct Expr].  The union of [arg1] and [numeric_arg1] is one slot: it
    holds a pointer, or the [int] payload of a [Num] cell. *)
Record Expr : Set := mkExpr {
  forward : Z;
  arg1 : Z;
  arg2 : Z;
  type : Tag.t
}.

#[global] Instance Expr_eq_dec : EqDecision Expr.
Proof. solve_decision. Defined.

(** The constructor [Expr(Type t, Expr* a1 = 0, Expr* a2 = 0)]. *)
Definition Expr_ctor (t : Tag.t) (a1 a2 : Z) : Expr :=
  {| forward := 0; arg1 := a1; arg2 := a2; type := t |}.

Definition set_forward (v : Z) (c : Expr) : Expr :=
  {| forward := v; arg1 := arg1 c; arg2 := arg2 c; type := type c |}.
Definition set_arg1 (v : Z) (c : Expr) : Expr :=
  {| forward := forward c; arg1 := v; arg2 := arg2 c; type := type c |}.
Definition set_arg2 (v : Z) (c : Expr) : Expr :=
  {| forward := forward c; arg1 := arg1 c; arg2 := v; type := type c |}.
Definition set_type (t : Tag.t) (c : Expr) : Expr :=
  {| forward := forward c; arg1 := arg1 c; arg2 := arg2 c; type := t |}.

(** ** Machine integers *)

(** [int] is 32 bits wide; arithmetic wraps around in two's complement. *)
Definition wrap_int (z : Z) : Z := (z + 2 ^ 31) mod 2 ^ 32 - 2 ^ 31.

(** The member [numeric_arg1] of the union: the slot read as an [int]. *)
Definition numeric_arg1 (c : Expr) : Z := wrap_int (arg1 c).

(** [Expr::to_number()]: the payload of a [Num] cell, [-1] for anything else. *)
Definition to_number (c : Expr) : Z :=
  if decide (type c = Tag.Num) then numeric_arg1 c else -1.

(** ** Static atoms and the layout of memory *)

Definition cK : Z := 1.
Definition cS : Z := 2.
Definition cI : Z := 3.
Definition KI : Z := 4.
Definition SI : Z := 5.
Definition KS : Z := 6.
Definition KK : Z := 7.
Definition SKSK : Z := 8.
Definition SIKS : Z := 9.
Definition Iota : Z := 10.
Definition cInc : Z := 11.
Definition cZero : Z := 12.

Definition static_atoms : list Z :=
  [cK; cS; cI; KI; SI; KS; KK; SKSK; SIKS; Iota; cInc; cZero].


(** The contents of the static cells as their definitions initialise them. *)
Definition static_mem : gmap Z Expr :=
  list_to_map
    [ (cK, Expr_ctor Tag.K 0 0);
      (cS, Expr_ctor Tag.S 0 0);
      (cI, Expr_ctor Tag.I 0 0);
      (KI, Expr_ctor Tag.K1 cI 0);
      (SI, Expr_ctor Tag.S1 cI 0);
      (KS, Expr_ctor Tag.K1 cS 0);
      (KK, Expr_ctor Tag.K1 cK 0);
      (SKSK, Expr_ctor Tag.S2 KS cK);
      (SIKS, Expr_ctor Tag.S2 cI KS);
      (Iota, Expr_ctor Tag.S2 SIKS KK);
      (cInc, Expr_ctor Tag.Inc 0 0);
      (cZero, Expr_ctor Tag.Num 0 0) ].

(** [HEAP_SIZE] is 64 MB; with 8-byte pointers a cell takes 32 bytes, so an
    arena holds [HEAP_CELLS] cells.  [space1] and [space2] are the first cell
    numbers of the two arenas. *)
Definition HEAP_CELLS : Z := 64 * 1024 * 1024 / 32.
Definition space1 : Z := 16.
Definition space2 : Z := space1 + HEAP_CELLS.

Definition MAX_ROOTS : Z := 10000.
Definition EOF : Z := -1.

(** ** Program state *)

(** One field per global variable of the source, plus the three standard
    streams.  [work_stack] stands for the region between [work_stack_top] and
    the end of to-space: the source carves the collector's work stack out of
    the top of to-space, the model keeps its entries in a list, most recently
    pushed first. *)
Record state : Type := mkState {
  mem : gmap Z Expr;
  from_space_start : Z;
  from_space_end : Z;
  to_space_start : Z;
  to_space_end : Z;
  next_alloc : Z;
  work_stack : list Z;
  roots : list Z;
  root_stack_top : Z;
  cached_church_chars : list Z;
  stdin_ : list Z;
  stdout_ : list Z;
  stderr_ : list string
}.

Definition with_mem (f : gmap Z Expr -> gmap Z Expr) (s : state) : state :=
  mkState (f (mem s)) (from_space_start s) (from_space_end s)
    (to_space_start s) (to_space_end s) (next_alloc s) (work_stack s)
    (roots s) (root_stack_top s) (cached_church_chars s)
    (stdin_ s) (stdout_ s) (stderr_ s).
Definition with_next_alloc (v : Z) (s : state) : state :=
  mkState (mem s) (from_space_start s) (from_space_end s)
    (to_space_start s) (to_space_end s) v (work_stack s)
    (roots s) (root_stack_top s) (cached_church_chars s)
    (stdin_ s) (stdout_ s) (stderr_ s).
Definition with_work_stack (v : list Z) (s : state) : state :=
  mkState (mem s) (from_space_start s) (from_space_end s)
    (to_space_start s) (to_space_end s) (next_alloc s) v
    (roots s) (root_stack_top s) (cached_church_chars s)
    (stdin_ s) (stdout_ s) (stderr_ s).
Definition with_roots (v : list Z) (s : state) : state :=
  mkState (mem s) (from_space_start s) (from_space_end s)
    (to_space_start s) (to_space_end s) (next_alloc s) (work_stack s)
    v (root_stack_top s) (cached_church_chars s)
    (stdin_ s) (stdout_ s) (stderr_ s).
Definition with_root_stack_top (v : Z) (s : state) : state :=
  mkState (mem s) (from_space_start s) (from_space_end s)
    (to_space_start s) (to_space_end s) (next_alloc s) (work_stack s)
    (roots s) v (cached_church_chars s)
    (stdin_ s) (stdout_ s) (stderr_ s).
Definition with_cached_church_chars (v : list Z) (s : state) : state :=
  mkState (mem s) (from_space_start s) (from_space_end s)
    (to_space_start s) (to_space_end s) (next_alloc s) (work_stack s)
    (roots s) (root_stack_top s) v
    (stdin_ s) (stdout_ s) (stderr_ s).
Definition with_stdin (v : list Z) (s : state) : state :=
  mkState (mem s) (from_space_start s) (from_space_end s)
    (to_space_start s) (to_space_end s) (next_alloc s) (work_stack s)
    (roots s) (root_stack_top s) (cached_church_chars s)
    v (stdout_ s) (stderr_ s).
Definition with_stdout (v : list Z) (s : state) : state :=
  mkState (mem s) (from_space_start s) (from_space_end s)
    (to_space_start s) (to_space_end s) (next_alloc s) (work_stack s)
    (roots s) (root_stack_top s) (cached_church_chars s)
    (stdin_ s) v (stderr_ s).
Definition with_stderr (v : list string) (s : state) : state :=
  mkState (mem s) (from_space_start s) (from_space_end s)
    (to_space_start s) (to_space_end s) (next_alloc s) (work_stack s)
    (roots s) (root_stack_top s) (cached_church_chars s)
    (stdin_ s) (stdout_ s) v.

(** The collector's flip: from-space and to-space trade places. *)
Definition swap_spaces (s : state) : state :=
  mkState (mem s) (to_space_start s) (to_space_end s)
    (from_space_start s) (from_space_end s) (next_alloc s) (work_stack s)
    (roots s) (root_stack_top s) (cached_church_chars s)
    (stdin_ s) (stdout_ s) (stderr_ s).

(** ** The monad of program fragments *)

Inductive outcome (X : Type) : Type :=
| Ret (x : X) (s : state)      (* normal return *)
| Exit (code : Z) (s : state)  (* [exit(code)], or [return code] from main *)
| Abort (s : state)            (* [abort()]: the process dies on SIGABRT *)
| Fault                        (* undefined behaviour *)
| OutOfFuel.                   (* the bound on loops and recursion ran out *)
Arguments Ret {X} x s.
Arguments Exit {X} code s.
Arguments Abort {X} s.
Arguments Fault {X}.
Arguments OutOfFuel {X}.

Definition M (X : Type) : Type := state -> outcome X.

Definition ret {X} (x : X) : M X := fun s => Ret x s.
Definition bind {X Y} (m : M X) (k : X -> M Y) : M Y :=
  fun s =>
    match m s with
    | Ret x s' => k x s'
    | Exit c s' => Exit c s'
    | Abort s' => Abort s'
    | Fault => Fault
    | OutOfFuel => OutOfFuel
    end.

#[global] Instance M_ret : MRet M := @ret.
#[global] Instance M_bind : MBind M := fun X Y k m => bind m k.

Definition get : M state := fun s => Ret s s.
Definition modify (f : state -> state) : M unit := fun s => Ret tt (f s).
Definition exit {X} (code : Z) : M X := fun s => Exit code s.
Definition abort : M unit := fun s => Abort s.
Definition fault {X} : M X := fun _ => Fault.
Definition out_of_fuel {X} : M X := fun _ => OutOfFuel.

(** ** Memory access *)

(** [*p] as an rvalue. *)
Definition load (p : Z) : M Expr :=
  fun s => match mem s !! p with Some c => Ret c s | None => Fault end.

(** [*p = c]: a whole-cell store, used by the collector's copy and by
    constructors running on fresh cells. *)
Definition store (p : Z) (c : Expr) : M unit :=
  modify (with_mem (insert p c)).

(** [p->field = v]: the cell must exist. *)
Definition update (p : Z) (f : Expr -> Expr) : M unit :=
  c ← load p; store p (f c).

(** ** Standard streams *)

Definition getchar : M Z :=
  fun s => match stdin_ s with
           | [] => Ret EOF s
           | b :: rest => Ret b (with_stdin rest s)
           end.

(** [putchar(ch)] writes [ch] converted to [unsigned char]. *)
Definition putchar (ch : Z) : M unit :=
  modify (fun s => with_stdout (stdout_ s ++ [ch mod 256]) s).

Definition fputs_stderr (msg : string) : M unit :=
  modify (fun s => with_stderr (stderr_ s ++ [msg]) s).

(** A line feed, for the diagnostics. *)
Definition nl : string := String (Ascii.ascii_of_nat 10) EmptyString.

(** [for (i = i0; i < i0 + n; i++) body(i)] with a trip count known on
    entry. *)
Fixpoint for_loop (n : nat) (i : Z) (body : Z -> M unit) : M unit :=
  match n with
  | O => ret tt
  | S n' => body i;; for_loop n' (i + 1) body
  end.

(** ** Root table and Church character cache *)

(** [roots[i]] and [cached_church_chars[i]] as rvalue and lvalue; the lists
    have one entry per slot of the arrays, and an index outside them is
    undefined behaviour. *)
Definition read_root (i : Z) : M Z :=
  fun s =>
    if i <? 0 then Fault
    else match roots s !! Z.to_nat i with Some p => Ret p s | None => Fault end.

Definition write_root (i v : Z) : M unit :=
  fun s =>
    if i <? 0 then Fault
    else match roots s !! Z.to_nat i with
         | Some _ => Ret tt (with_roots (<[Z.to_nat i := v]> (roots s)) s)
         | None => Fault
         end.

Definition read_char (i : Z) : M Z :=
  fun s =>
    if i <? 0 then Fault
    else match cached_church_chars s !! Z.to_nat i with
         | Some p => Ret p s
         | None => Fault
         end.

Definition write_char (i v : Z) : M unit :=
  fun s =>
    if i <? 0 then Fault
    else match cached_church_chars s !! Z.to_nat i with
         | Some _ =>
             Ret tt
               (with_cached_church_chars
                  (<[Z.to_nat i := v]> (cached_church_chars s)) s)
         | None => Fault
         end.

(** [roots[root_stack_top++] = e] *)
Definition root (e : Z) : M unit :=
  s ← get;
  write_root (root_stack_top s) e;;
  modify (with_root_stack_top (root_stack_top s + 1)).

(** [return roots[--root_stack_top]] *)
Definition unroot : M Z :=
  s ← get;
  modify (with_root_stack_top (root_stack_top s - 1));;
  read_root (root_stack_top s - 1).

(** ** Heap and collector *)

Definition in_arena (s : state) (p : Z) : bool :=
  (from_space_start s <=? p) && (p <? from_space_end s).

Definition push_work (e : Z) : M unit :=
  modify (fun s => with_work_stack (e :: work_stack s) s).

Definition pop_work : M Z :=
  fun s =>
    match work_stack s with
    | [] => Fault
    | e :: rest => Ret e (with_work_stack rest s)
    end.

(** [Expr::operator new]: [return next_alloc++], with no check at all. *)
Definition operator_new : M Z :=
  s ← get;
  modify (with_next_alloc (next_alloc s + 1));;
  ret (next_alloc s).

(** [new Expr(t, a1, a2)] when the arguments are already values. *)
Definition new_Expr (t : Tag.t) (a1 a2 : Z) : M Z :=
  p ← operator_new;
  store p (Expr_ctor t a1 a2);;
  ret p.

Definition copy_object (obj : Z) : M Z :=
  s ← get;
  if negb (in_arena s obj) then ret obj
  else
    c ← load obj;
    if negb (forward c =? 0) then ret (forward c)
    else
      s ← get;
      store (next_alloc s) c;;
      push_work (next_alloc s);;
      update obj (set_forward (next_alloc s));;
      operator_new.

(** The [while] loop of [gc] that drains the work stack. *)
Fixpoint gc_drain (fuel : nat) : M unit :=
  match fuel with
  | O => out_of_fuel
  | S fuel' =>
      s ← get;
      match work_stack s with
      | [] => ret tt
      | _ :: _ =>
          cursor ← pop_work;
          c ← load cursor;
          (if decide (type c = Tag.Num) then ret tt
           else
             a ← copy_object (arg1 c);
             update cursor (set_arg1 a);;
             c ← load cursor;
             b ← copy_object (arg2 c);
             update cursor (set_arg2 b));;
          gc_drain fuel'
      end
  end.

Definition gc (fuel : nat) : M unit :=
  s ← get;
  modify (with_next_alloc (to_space_start s));;
  modify (with_work_stack []);;
  s ← get;
  for_loop (Z.to_nat (root_stack_top s)) 0
    (fun i => p ← read_root i; q ← copy_object p; write_root i q);;
  for_loop 257 0
    (fun i => p ← read_char i; q ← copy_object p; write_char i q);;
  gc_drain fuel;;
  modify swap_spaces.

Definition is_exhausted (s : state) (n : Z) : bool :=
  from_space_end s <=? next_alloc s + n.

Definition oom (fuel : nat) (n : Z) : M unit :=
  gc fuel;;
  s ← get;
  if is_exhausted s n then
    fputs_stderr ("out of memory!" +:+ nl);;
    exit 4
  else ret tt.

Definition check (fuel : nat) (n : Z) : M unit :=
  s ← get;
  if is_exhausted s n then oom fuel n else ret tt.

(** The two pointers are passed by reference in the source; the model hands
    their (possibly relocated) values back. *)
Definition check_rooted (fuel : nat) (n e1 e2 : Z) : M (Z * Z) :=
  s ← get;
  if is_exhausted s n then
    root e1;;
    root e2;;
    oom fuel n;;
    e2 ← unroot;
    e1 ← unroot;
    ret (e1, e2)
  else ret (e1, e2).

Definition partial_apply (lhs rhs : Z) : M Z := new_Expr Tag.A lhs rhs.

(** In [new Expr(S2, &SKSK, make_church_char(ch-1))] the cell is allocated
    before the constructor's arguments are evaluated (the order C++17
    fixes). *)
Fixpoint make_church_char (fuel : nat) (ch : Z) : M Z :=
  match fuel with
  | O => out_of_fuel
  | S fuel' =>
      let ch := if (ch <? 0) || (256 <? ch) then 256 else ch in
      p ← read_char ch;
      (if p =? 0 then
         n ← operator_new;
         q ← make_church_char fuel' (ch - 1);
         store n (Expr_ctor Tag.S2 SKSK q);;
         write_char ch n
       else ret tt);;
      read_char ch
  end.

(** ** Reducer *)

(** The [do ... while] loop of [drop_i1]. *)
Fixpoint drop_i1_loop (fuel : nat) (cur : Z) : M Z :=
  match fuel with
  | O => out_of_fuel
  | S fuel' =>
      c ← load cur;
      let cur := arg1 c in
      c' ← load cur;
      if decide (type c' = Tag.I1) then drop_i1_loop fuel' cur else ret cur
  end.

Definition drop_i1 (fuel : nat) (cur : Z) : M Z :=
  let orig := cur in
  c ← load cur;
  if decide (type c = Tag.I1) then
    cur ← drop_i1_loop fuel cur;
    update orig (set_arg1 cur);;
    ret cur
  else ret cur.

Definition msg_inc : string :=
  "Runtime error: invalid output format (attempted to apply inc to a non-number)"
  +:+ nl.
Definition msg_num : string :=
  "Runtime error: invalid output format (attempted to apply a number)" +:+ nl.
Definition msg_internal (t : Tag.t) : string :=
  "INTERNAL ERROR: invalid type in partial_eval_primitive_application ("
  +:+ pretty (Tag.to_Z t) +:+ ")" +:+ nl.

(** The [S2] case of the primitive rewrite, which the [LazyRead] case falls
    through to. *)
Definition case_S2 (fuel : nat) (e prev : Z) : M (Z * Z) :=
  '(e, prev) ← check_rooted fuel 2 e prev;
  c ← load e;
  let lhs := arg1 c in
  let rhs := arg2 c in
  l ← load lhs;
  p ← partial_apply (arg1 l) rhs;
  update e (set_arg1 p);;
  l ← load lhs;
  q ← partial_apply (arg2 l) rhs;
  update e (set_arg2 q);;
  ret (e, prev).

(** [partial_eval_primitive_application(e, prev)].  [pe] is the reducer
    itself, called back by the [Inc] case; the result pairs the returned
    pointer with the final value of the by-reference parameter [prev].
    Nested [new] expressions allocate the outer cell first (C++17 order). *)
Definition partial_eval_primitive_application
    (pe : Z -> M Z) (fuel : nat) (e prev : Z) : M (Z * Z) :=
  c ← load e;
  let lhs := arg1 c in
  let rhs := arg2 c in
  l ← load lhs;
  match type l with
  | Tag.I =>
      update e (set_type Tag.I1);;
      update e (set_arg1 rhs);;
      update e (set_arg2 0);;
      ret (rhs, prev)
  | Tag.K =>
      update e (set_type Tag.K1);;
      update e (set_arg1 rhs);;
      update e (set_arg2 0);;
      ret (e, prev)
  | Tag.K1 =>
      update e (set_type Tag.I1);;
      l ← load lhs;
      update e (set_arg1 (arg1 l));;
      update e (set_arg2 0);;
      l ← load lhs;
      ret (arg1 l, prev)
  | Tag.S =>
      update e (set_type Tag.S1);;
      update e (set_arg1 rhs);;
      update e (set_arg2 0);;
      ret (e, prev)
  | Tag.S1 =>
      update e (set_type Tag.S2);;
      l ← load lhs;
      update e (set_arg1 (arg1 l));;
      update e (set_arg2 rhs);;
      ret (e, prev)
  | Tag.LazyRead =>
      '(e, prev) ← check_rooted fuel 6 e prev;
      c ← load e;
      let lhs := arg1 c in
      update lhs (set_type Tag.S2);;
      p1 ← operator_new;
      p2 ← operator_new;
      ch ← getchar;
      cc ← make_church_char fuel ch;
      store p2 (Expr_ctor Tag.K1 cc 0);;
      store p1 (Expr_ctor Tag.S2 cI p2);;
      update lhs (set_arg1 p1);;
      p3 ← operator_new;
      p4 ← operator_new;
      store p4 (Expr_ctor Tag.LazyRead 0 0);;
      store p3 (Expr_ctor Tag.K1 p4 0);;
      update lhs (set_arg2 p3);;
      case_S2 fuel e prev
  | Tag.S2 => case_S2 fuel e prev
  | Tag.Inc =>
      root e;;
      root prev;;
      rhs_res ← pe rhs;
      prev ← unroot;
      e ← unroot;
      update e (set_type Tag.Num);;
      r ← load rhs_res;
      update e (set_arg1 (wrap_int (to_number r + 1)));;
      c ← load e;
      if numeric_arg1 c =? 0 then
        fputs_stderr msg_inc;;
        exit 3
      else
        update e (set_arg2 0);;
        ret (e, prev)
  | Tag.Num =>
      fputs_stderr msg_num;;
      exit 3
  | _ =>
      c ← load e;
      l ← load (arg1 c);
      fputs_stderr (msg_internal (type l));;
      abort;;
      exit 4
  end.

(** The inner [while (cur->type == A)] loop of [partial_eval]: walk down the
    left spine, threading the way back through [arg1]. *)
Fixpoint descend (fuel0 fuel : nat) (prev cur : Z) : M (Z * Z) :=
  match fuel with
  | O => out_of_fuel
  | S fuel' =>
      c ← load cur;
      if decide (type c = Tag.A) then
        next ← drop_i1 fuel0 (arg1 c);
        update cur (set_arg1 prev);;
        descend fuel0 fuel' cur next
      else ret (prev, cur)
  end.

(** The [for (;;)] loop of [partial_eval], entered with [prev] and [cur]. *)
Fixpoint partial_eval_loop (pe : Z -> M Z) (fuel0 fuel : nat) (prev cur : Z)
  : M Z :=
  match fuel with
  | O => out_of_fuel
  | S fuel' =>
      cur ← drop_i1 fuel0 cur;
      '(prev, cur) ← descend fuel0 fuel0 prev cur;
      if prev =? 0 then ret cur
      else
        let next := cur in
        let cur := prev in
        c ← load cur;
        let prev := arg1 c in
        update cur (set_arg1 next);;
        '(cur, prev) ← partial_eval_primitive_application pe fuel0 cur prev;
        partial_eval_loop pe fuel0 fuel' prev cur
  end.

(** [partial_eval(node)].  [fuel] bounds the depth of the recursion through
    [Inc] and, inside each call, the trip count of every loop. *)
Fixpoint partial_eval (fuel : nat) (node : Z) : M Z :=
  match fuel with
  | O => out_of_fuel
  | S fuel' => partial_eval_loop (partial_eval fuel') fuel fuel 0 node
  end.

(** ** Input/output driver *)

Definition car (list : Z) : M Z := partial_apply list cK.
Definition cdr (list : Z) : M Z := partial_apply list KI.

Definition msg_result : string :=
  "Runtime error: invalid output format (result was not a number)" +:+ nl.

(** [toplevel_root] is [&roots[0]], [church2int_root] is [&roots[1]]. *)
Definition toplevel_root : Z := 0.
Definition church2int_root : Z := 1.

Definition church2int (fuel : nat) (church : Z) : M Z :=
  check fuel 2;;
  p ← partial_apply church cInc;
  e ← partial_apply p cZero;
  write_root church2int_root e;;
  r ← partial_eval fuel e;
  c ← load r;
  let result := to_number c in
  if result =? -1 then
    fputs_stderr msg_result;;
    exit 3
  else
    write_root church2int_root 0;;
    ret result.

(** The first loop of [main]: fill the Church character cache. *)
Definition init_church_chars (fuel : nat) : M unit :=
  for_loop 257 0 (fun i => make_church_char fuel i;; ret tt).

(** The [for (;;)] loop that ends [main]; [return n] from [main] is
    [exit(n)]. *)
Fixpoint main_loop (fuel0 fuel : nat) : M unit :=
  match fuel with
  | O => out_of_fuel
  | S fuel' =>
      check fuel0 1;;
      top ← read_root toplevel_root;
      head ← car top;
      ch ← church2int fuel0 head;
      if 256 <=? ch then exit (ch - 256)
      else
        putchar ch;;
        check fuel0 1;;
        top ← read_root toplevel_root;
        tail ← cdr top;
        write_root toplevel_root tail;;
        main_loop fuel0 fuel'
  end.

(** ** Parser *)

Definition chr (c : Ascii.ascii) : Z := Z.of_nat (Ascii.nat_of_ascii c).

(** [class Stream]: the two virtual functions the parser reads with, and
    [error], which prints a diagnostic and calls [exit(1)]. *)
Class Stream (T : Type) := {
  getch : T -> Z * T;
  ungetch : Z -> T -> T;
  error : forall {X : Type}, string -> T -> M X
}.

(** [class StringStream]: [str] is the C string, [p] the offset of the read
    pointer into it. *)
Record StringStream : Type := mkStringStream {
  str : string;
  p : nat
}.

(** The [char] at an offset, promoted to [int] ([char] is signed); the
    terminating NUL sits right after the last character. *)
Definition char_at (s : string) (i : nat) : Z :=
  match String.get i s with
  | Some c => let n := chr c in if n <? 128 then n else n - 256
  | None => 0
  end.

Definition spaces (n : nat) : string := String.concat "" (replicate n " "%string).

#[global] Instance StringStream_Stream : Stream StringStream := {
  getch f :=
    let c := char_at (str f) (p f) in
    if c =? 0 then (EOF, f) else (c, mkStringStream (str f) (S (p f)));
  ungetch ch f :=
    if ch =? EOF then f else mkStringStream (str f) (Nat.pred (p f));
  error X msg f :=
    fputs_stderr ("While parsing command line: " +:+ msg +:+ nl
                  +:+ str f +:+ nl);;
    fputs_stderr (spaces (Nat.pred (p f)));;
    fputs_stderr ("^" +:+ nl);;
    exit 1
}.

Section Parser.
Context {T : Type} `{Stream T}.

Definition is_digit (ch : Z) : bool := (ch =? chr "0"%char) || (ch =? chr "1"%char).

(** The [do ... while] loop of the ['0'], ['1'] case of [parse_expr],
    together with the [ungetch] that follows it. *)
Fixpoint parse_digits (fuel : nat) (f : T) (ch : Z) (e : Z) : M (Z * T) :=
  match fuel with
  | O => out_of_fuel
  | S fuel' =>
      e ← (if ch =? chr "0"%char then
             a ← partial_apply e cS;
             partial_apply a cK
           else
             a ← partial_apply cK e;
             partial_apply cS a);
      let '(ch, f) := getch f in
      if is_digit ch then parse_digits fuel' f ch e
      else ret (e, ungetch ch f)
  end.

(** [parse_manual_close], over the parser for one expression. *)
Fixpoint parse_manual_close_loop
    (pexpr : T -> Z -> bool -> M (Z * T))
    (fuel : nat) (f : T) (e : Z) : M (Z * Z * T) :=
  match fuel with
  | O => out_of_fuel
  | S fuel' =>
      let '(peek, f) := getch f in
      if negb (peek =? chr ")"%char) && negb (peek =? EOF) then
        '(e2, f) ← pexpr f peek false;
        e ← (if e =? 0 then ret e2 else partial_apply e e2);
        parse_manual_close_loop pexpr fuel' f e
      else ret (peek, e, f)
  end.

Definition parse_manual_close_with
    (pexpr : T -> Z -> bool -> M (Z * T))
    (fuel : nat) (f : T) (expected_terminator : Z) : M (Z * T) :=
  '(peek, e, f) ← parse_manual_close_loop pexpr fuel f 0;
  (if negb (peek =? expected_terminator) then
     error (if peek =? EOF then "Premature end of program!"
            else "Unmatched trailing close-parenthesis!") f
   else ret tt);;
  ret (if e =? 0 then cI else e, f).

Fixpoint parse_expr (fuel : nat) (f : T) (ch : Z) (i_is_iota : bool)
  : M (Z * T) :=
  match fuel with
  | O => out_of_fuel
  | S fuel' =>
      if (ch =? chr "`"%char) || (ch =? chr "*"%char) then
        let '(c1, f) := getch f in
        '(p, f) ← parse_expr fuel' f c1 (ch =? chr "*"%char);
        let '(c2, f) := getch f in
        '(q, f) ← parse_expr fuel' f c2 (ch =? chr "*"%char);
        r ← partial_apply p q;
        ret (r, f)
      else if ch =? chr "("%char then
        parse_manual_close_with (parse_expr fuel') fuel' f (chr ")"%char)
      else if ch =? chr ")"%char then
        error "Mismatched close-parenthesis!" f
      else if (ch =? chr "k"%char) || (ch =? chr "K"%char) then ret (cK, f)
      else if (ch =? chr "s"%char) || (ch =? chr "S"%char) then ret (cS, f)
      else if (ch =? chr "i"%char) && i_is_iota then ret (Iota, f)
      else if (ch =? chr "i"%char) || (ch =? chr "I"%char) then ret (cI, f)
      else if is_digit ch then parse_digits fuel f ch cI
      else error "Invalid character!" f
  end.

Definition parse_manual_close (fuel : nat) (f : T) (expected_terminator : Z)
  : M (Z * T) :=
  parse_manual_close_with (parse_expr fuel) fuel f expected_terminator.

(** [compose(f, g)]: the outer cell is allocated first. *)
Definition compose (f g : Z) : M Z :=
  a ← operator_new;
  b ← new_Expr Tag.K1 f 0;
  store a (Expr_ctor Tag.S2 b g);;
  ret a.

Definition append_program (fuel : nat) (old : Z) (stream : T) : M Z :=
  '(e, _) ← parse_manual_close fuel stream EOF;
  compose e old.
End Parser.

(** [main] for a command line made of [-e program] arguments only: cache
    initialisation, composition of the programs, installation of the top-level
    root and the output loop. *)
Definition main (fuel : nat) (programs : list string) : M unit :=
  init_church_chars fuel;;
  e ← foldl (fun acc s => e ← acc; append_program fuel e (mkStringStream s 0))
        (ret cI) programs;
  lr ← new_Expr Tag.LazyRead 0 0;
  top ← partial_apply e lr;
  write_root toplevel_root top;;
  main_loop fuel fuel.

(** The state the process starts in: static initialisers only. *)
Definition initial_state (input : list Z) : state :=
  {| mem := static_mem;
     from_space_start := space1;
     from_space_end := space1 + HEAP_CELLS;
     to_space_start := space2;
     to_space_end := space2 + HEAP_CELLS;
     next_alloc := space1;
     work_stack := [];
     roots := replicate (Z.to_nat MAX_ROOTS) 0;
     root_stack_top := 2;
     cached_church_chars := KI :: cI :: replicate 255 0;
     stdin_ := input;
     stdout_ := [];
     stderr_ := [] |}.

(** * Properties *)

(** ** Reasoning about the monad *)

Lemma bind_unfold {X Y} (m : M X) (k : X -> M Y) (s : state) :
  (m ≫= k) s =
  match m s with
  | Ret x s' => k x s'
  | Exit c s' => Exit c s'
  | Abort s' => Abort s'
  | Fault => Fault
  | OutOfFuel => OutOfFuel
  end.
Proof. reflexivity. Qed.

Lemma bind_Ret {X Y} (m : M X) (k : X -> M Y) s x s1 :
  m s = Ret x s1 -> (m ≫= k) s = k x s1.
Proof. intros E. rewrite bind_unfold, E. reflexivity. Qed.

Lemma bind_Ret_inv {X Y} (m : M X) (k : X -> M Y) s y s' :
  (m ≫= k) s = Ret y s' ->
  exists x s1, m s = Ret x s1 /\ k x s1 = Ret y s'.
Proof.
  rewrite bind_unfold. destruct (m s) as [x s1| | | |]; try discriminate.
  intros E. exists x, s1. split; [reflexivity | exact E].
Qed.

Lemma load_Some p s c : mem s !! p = Some c -> load p s = Ret c s.
Proof. unfold load. intros ->. reflexivity. Qed.

Lemma load_Ret_inv p s c s' :
  load p s = Ret c s' -> s' = s /\ mem s !! p = Some c.
Proof.
  unfold load. destruct (mem s !! p); [|discriminate].
  intros E. injection E as -> ->. split; reflexivity.
Qed.

Lemma update_Some p f s c :
  mem s !! p = Some c ->
  update p f s = Ret tt (with_mem (insert p (f c)) s).
Proof. intros E. unfold update. rewrite (bind_Ret _ _ _ _ _ (load_Some _ _ _ E)). reflexivity. Qed.

Lemma update_Ret_inv p f s u s' :
  update p f s = Ret u s' ->
  exists c, mem s !! p = Some c /\ s' = with_mem (insert p (f c)) s.
Proof.
  unfold update. intros E. apply bind_Ret_inv in E as (c & s1 & E1 & E2).
  apply load_Ret_inv in E1 as [-> E1]. exists c. split; [exact E1|].
  unfold store, modify in E2. injection E2 as _ <-. reflexivity.
Qed.

(** ** The default case of the primitive rewrite (C3) *)

(** A state whose application node [space1] has a head of tag [t] at
    [space1 + 1] and the atom [K] as its argument. *)
Definition state_with_head (t : Tag.t) : state :=
  with_next_alloc (space1 + 2)
    (with_mem (fun m => <[space1 := Expr_ctor Tag.A (space1 + 1) cK]>
                          (<[space1 + 1 := Expr_ctor t 0 0]> m))
       (initial_state [])).

Lemma default_case_aborts pe fuel e prev s c l :
  mem s !! e = Some c ->
  mem s !! arg1 c = Some l ->
  type l = Tag.A \/ type l = Tag.I1 \/ type l = Tag.Free ->
  partial_eval_primitive_application pe fuel e prev s
  = Abort (with_stderr (stderr_ s ++ [msg_internal (type l)]) s).
Proof.
  intros He Hl Ht. unfold partial_eval_primitive_application.
  rewrite (bind_Ret _ _ _ _ _ (load_Some _ _ _ He)).
  rewrite (bind_Ret _ _ _ _ _ (load_Some _ _ _ Hl)).
  destruct Ht as [Ht | [Ht | Ht]]; rewrite Ht;
    rewrite (bind_Ret _ _ _ _ _ (load_Some _ _ _ He));
    rewrite (bind_Ret _ _ _ _ _ (load_Some _ _ _ Hl));
    rewrite Ht; reflexivity.
Qed.

(** C3, as the code has it: when the head of the application has a tag the
    [switch] does not list ([A], [I1] or [Free]), the rewrite prints the
    internal-error diagnostic with the tag's number and the process is killed
    by [abort()]; the [exit(4)] written after it is never reached. *)
Theorem C3_impossible_tag_aborts pe fuel e prev s c l :
  mem s !! e = Some c ->
  mem s !! arg1 c = Some l ->
  type l = Tag.A \/ type l = Tag.I1 \/ type l = Tag.Free ->
  partial_eval_primitive_application pe fuel e prev s
  = Abort (with_stderr (stderr_ s ++ [msg_internal (type l)]) s)
  /\ forall s', partial_eval_primitive_application pe fuel e prev s
               <> Exit 4 s'.
Proof.
  intros He Hl Ht.
  pose proof (default_case_aborts pe fuel e prev s c l He Hl Ht) as E.
  split; [exact E|]. intros s'. rewrite E. discriminate.
Qed.

Lemma C3_impossible_tag_aborts_witness :
  partial_eval_primitive_application (partial_eval 0) 1 space1 0
    (state_with_head Tag.I1)
  = Abort (with_stderr [msg_internal Tag.I1] (state_with_head Tag.I1))
  /\ forall s', partial_eval_primitive_application (partial_eval 0) 1 space1 0
               (state_with_head Tag.I1) <> Exit 4 s'.
Proof.
  apply (C3_impossible_tag_aborts (partial_eval 0) 1 space1 0
           (state_with_head Tag.I1)
           (Expr_ctor Tag.A (space1 + 1) cK) (Expr_ctor Tag.I1 0 0)).
  - reflexivity.
  - reflexivity.
  - right. left. reflexivity.
Defined.

(** C3 as stated fails: with a head of tag [Free] the process does not end
    with exit code 4, it is aborted. *)
Lemma C3_counterexample :
  type (Expr_ctor Tag.Free 0 0) = Tag.Free /\
  forall s', partial_eval_primitive_application (partial_eval 0) 1 space1 0
               (state_with_head Tag.Free) <> Exit 4 s'.
Proof.
  split; [reflexivity|]. intros s' E.
  rewrite (default_case_aborts _ _ _ _ _
             (Expr_ctor Tag.A (space1 + 1) cK) (Expr_ctor Tag.Free 0 0))
    in E by (try reflexivity; right; right; reflexivity).
  discriminate E.
Qed.

(** ** The [Inc] case of the primitive rewrite (C2) *)




(** The state reached by an outcome that carries one. *)
Definition state_of {X} (o : outcome X) (default : state) : state :=
  match o with
  | Ret _ s | Exit _ s | Abort s => s
  | Fault | OutOfFuel => default
  end.

(** [Inc] applied to the static [Num 0], as the only cell of the arena. *)
Definition inc_state : state :=
  with_next_alloc (space1 + 1)
    (with_mem (insert space1 (Expr_ctor Tag.A cInc cZero)) (initial_state [])).


(** ** What the reducer returns (C10, C4) *)

(** The tag of the cell a pointer refers to, if there is one. *)
Definition tag_at (s : state) (p : Z) : option Tag.t := type <$> mem s !! p.

(** Two states whose cells carry the same tags. *)
Definition same_tags (s s' : state) : Prop :=
  forall p, tag_at s' p = tag_at s p.

Lemma same_tags_refl s : same_tags s s.
Proof. intros p. reflexivity. Qed.

Lemma same_tags_trans s1 s2 s3 :
  same_tags s1 s2 -> same_tags s2 s3 -> same_tags s1 s3.
Proof. intros H12 H23 p. rewrite H23. apply H12. Qed.

Lemma tag_at_Some s p c : mem s !! p = Some c -> tag_at s p = Some (type c).
Proof. unfold tag_at. intros ->. reflexivity. Qed.

Lemma tag_at_inv s p t :
  tag_at s p = Some t -> exists c, mem s !! p = Some c /\ type c = t.
Proof.
  unfold tag_at. destruct (mem s !! p) as [c|]; [|discriminate].
  intros E. injection E as <-. exists c. split; reflexivity.
Qed.

(** Storing into a pointer slot of an existing cell changes no tag. *)
Lemma update_arg1_same_tags p v s c :
  mem s !! p = Some c ->
  same_tags s (with_mem (insert p (set_arg1 v c)) s).
Proof.
  intros Hc q. unfold tag_at. simpl.
  destruct (decide (p = q)) as [<- | Hne].
  - rewrite lookup_insert_eq, Hc. reflexivity.
  - rewrite lookup_insert_ne by exact Hne. reflexivity.
Qed.

Lemma drop_i1_loop_spec fuel cur s r s' :
  drop_i1_loop fuel cur s = Ret r s' ->
  s' = s /\ exists t, tag_at s r = Some t /\ t <> Tag.I1.
Proof.
  revert cur. induction fuel as [| fuel IH]; intros cur E; [discriminate|].
  simpl in E.
  apply bind_Ret_inv in E as (c & s1 & E1 & E).
  apply load_Ret_inv in E1 as [-> Hc].
  apply bind_Ret_inv in E as (c' & s1 & E1 & E).
  apply load_Ret_inv in E1 as [-> Hc'].
  destruct (decide (type c' = Tag.I1)) as [Hi | Hi].
  - apply IH in E. exact E.
  - injection E as <- <-. split; [reflexivity|].
    exists (type c'). split; [apply tag_at_Some; exact Hc' | exact Hi].
Qed.

(** [drop_i1] returns a cell that is not an [I1], and only ever stores into
    the [arg1] slot of the cell it was given. *)
Lemma drop_i1_spec fuel cur s r s' :
  drop_i1 fuel cur s = Ret r s' ->
  same_tags s s' /\
  root_stack_top s' = root_stack_top s /\
  exists t, tag_at s' r = Some t /\ t <> Tag.I1.
Proof.
  unfold drop_i1. intros E.
  apply bind_Ret_inv in E as (c & s1 & E1 & E).
  apply load_Ret_inv in E1 as [-> Hc].
  destruct (decide (type c = Tag.I1)) as [Hi | Hi].
  - apply bind_Ret_inv in E as (r' & s1 & E1 & E).
    apply drop_i1_loop_spec in E1 as [-> (t & Ht & Hne)].
    apply bind_Ret_inv in E as ([] & s2 & E2 & E).
    injection E as <- <-.
    apply update_Ret_inv in E2 as (c0 & Hc0 & ->).
    pose proof (update_arg1_same_tags cur r' s c0 Hc0) as Hsame.
    split; [exact Hsame|]. split; [reflexivity|].
    exists t. split; [rewrite Hsame; exact Ht | exact Hne].
  - injection E as <- <-. split; [apply same_tags_refl|].
    split; [reflexivity|].
    exists (type c). split; [apply tag_at_Some; exact Hc | exact Hi].
Qed.

(** The spine walk stops on a cell that is not an application; if it was
    entered on a cell that is not an [I1], it stops on one. *)
Lemma descend_spec fuel0 fuel prev cur s prev' cur' s' :
  descend fuel0 fuel prev cur s = Ret (prev', cur') s' ->
  same_tags s s' /\
  root_stack_top s' = root_stack_top s /\
  exists t, tag_at s' cur' = Some t /\ t <> Tag.A /\
            ((exists t0, tag_at s cur = Some t0 /\ t0 <> Tag.I1) ->
             t <> Tag.I1).
Proof.
  revert prev cur s. induction fuel as [| fuel IH]; intros prev cur s E;
    [discriminate|].
  simpl in E.
  apply bind_Ret_inv in E as (c & s1 & E1 & E).
  apply load_Ret_inv in E1 as [-> Hc].
  destruct (decide (type c = Tag.A)) as [Ha | Ha].
  - apply bind_Ret_inv in E as (next & s1 & E1 & E).
    apply drop_i1_spec in E1 as (Hs1 & Htop1 & t1 & Ht1 & Hne1).
    apply bind_Ret_inv in E as ([] & s2 & E2 & E).
    apply update_Ret_inv in E2 as (c1 & Hc1 & ->).
    pose proof (update_arg1_same_tags cur prev s1 c1 Hc1) as Hs2.
    apply IH in E as (Hs3 & Htop3 & t & Ht & HnA & HnI).
    split; [eapply same_tags_trans; [|exact Hs3];
            eapply same_tags_trans; [exact Hs1 | exact Hs2]|].
    split; [rewrite Htop3; exact Htop1|].
    exists t. split; [exact Ht|]. split; [exact HnA|].
    intros _. apply HnI. exists t1. split; [rewrite Hs2; exact Ht1 | exact Hne1].
  - injection E as <- <- <-. split; [apply same_tags_refl|].
    split; [reflexivity|].
    exists (type c). split; [apply tag_at_Some; exact Hc|].
    split; [exact Ha|].
    intros (t0 & Ht0 & Hne). rewrite (tag_at_Some _ _ _ Hc) in Ht0.
    injection Ht0 as ->. exact Hne.
Qed.

(** A pointer to a cell in weak head normal form as the reducer delivers it:
    neither an application nor an [I1] indirection. *)
Definition whnf (s : state) (p : Z) : Prop :=
  exists t, tag_at s p = Some t /\ t <> Tag.A /\ t <> Tag.I1.

Lemma partial_eval_loop_whnf pe fuel0 fuel prev cur s r s' :
  partial_eval_loop pe fuel0 fuel prev cur s = Ret r s' -> whnf s' r.
Proof.
  revert prev cur s. induction fuel as [| fuel IH]; intros prev cur s E;
    [discriminate|].
  simpl in E.
  apply bind_Ret_inv in E as (cur1 & s1 & E1 & E).
  apply drop_i1_spec in E1 as (_ & _ & t1 & Ht1 & Hne1).
  apply bind_Ret_inv in E as ([prev2 cur2] & s2 & E2 & E).
  apply descend_spec in E2 as (_ & _ & t & Ht & HnA & HnI).
  destruct (prev2 =? 0).
  - injection E as <- <-. exists t. split; [exact Ht|]. split; [exact HnA|].
    apply HnI. exists t1. split; [exact Ht1 | exact Hne1].
  - apply bind_Ret_inv in E as (c & s3 & _ & E).
    apply bind_Ret_inv in E as ([] & s4 & _ & E).
    apply bind_Ret_inv in E as ([cur5 prev5] & s5 & _ & E).
    apply IH in E. exact E.
Qed.

Lemma partial_eval_whnf fuel node s r s' :
  partial_eval fuel node s = Ret r s' -> whnf s' r.
Proof.
  destruct fuel as [| fuel]; [discriminate|]. intros E.
  exact (partial_eval_loop_whnf _ _ _ _ _ _ _ _ E).
Qed.

(** Reducing a cell that is already in weak head normal form returns it at
    once and leaves the state alone. *)
Lemma partial_eval_of_whnf fuel r s :
  whnf s r -> partial_eval (S fuel) r s = Ret r s.
Proof.
  intros (t & Ht & HnA & HnI).
  apply tag_at_inv in Ht as (c & Hc & <-).
  cbn [partial_eval partial_eval_loop].
  assert (E1 : drop_i1 (S fuel) r s = Ret r s).
  { unfold drop_i1. rewrite (bind_Ret _ _ _ _ _ (load_Some _ _ _ Hc)).
    destruct (decide (type c = Tag.I1)); [contradiction | reflexivity]. }
  rewrite (bind_Ret _ _ _ _ _ E1).
  assert (E2 : descend (S fuel) (S fuel) 0 r s = Ret (0, r) s).
  { cbn [descend]. rewrite (bind_Ret _ _ _ _ _ (load_Some _ _ _ Hc)).
    destruct (decide (type c = Tag.A)); [contradiction | reflexivity]. }
  rewrite (bind_Ret _ _ _ _ _ E2). reflexivity.
Qed.

(** C10: whenever [partial_eval] returns, the cell it returns exists and its
    tag is neither [A] nor [I1]. *)
Theorem C10_result_not_A_nor_I1 fuel x s r s' :
  partial_eval fuel x s = Ret r s' ->
  exists c, mem s' !! r = Some c /\ type c <> Tag.A /\ type c <> Tag.I1.
Proof.
  intros E. apply partial_eval_whnf in E as (t & Ht & HnA & HnI).
  apply tag_at_inv in Ht as (c & Hc & <-).
  exists c. split; [exact Hc|]. split; [exact HnA | exact HnI].
Qed.

(** C4: reducing the result of a reduction again returns the same cell, and
    does so without changing the state. *)
Theorem C4_partial_eval_idempotent fuel x s r s' fuel' :
  partial_eval fuel x s = Ret r s' ->
  partial_eval (S fuel') r s' = Ret r s'.
Proof.
  intros E. apply partial_eval_of_whnf. eapply partial_eval_whnf. exact E.
Qed.

(** A two-cell graph for [K I S]: the node [space1] applies [A(K, I)], at
    [space1 + 1], to [S]. *)
Definition kis_state : state :=
  with_next_alloc (space1 + 2)
    (with_mem (fun m => <[space1 := Expr_ctor Tag.A (space1 + 1) cS]>
                          (<[space1 + 1 := Expr_ctor Tag.A cK cI]> m))
       (initial_state [])).

Lemma C10_result_not_A_nor_I1_witness :
  exists c,
    mem (state_of (partial_eval 5 space1 kis_state) kis_state) !! cI = Some c
    /\ type c <> Tag.A /\ type c <> Tag.I1.
Proof.
  apply (C10_result_not_A_nor_I1 5 space1 kis_state cI).
  vm_compute. reflexivity.
Defined.

Lemma C4_partial_eval_idempotent_witness :
  partial_eval 1 cI (state_of (partial_eval 5 space1 kis_state) kis_state)
  = Ret cI (state_of (partial_eval 5 space1 kis_state) kis_state).
Proof.
  apply (C4_partial_eval_idempotent 5 space1 kis_state cI).
  vm_compute. reflexivity.
Defined.

(** ** The root stack is balanced (C9) *)

(** Computations that return with an observation [f] of the state unchanged. *)
Definition keeps {A X} (f : state -> A) (m : M X) : Prop :=
  forall s x s', m s = Ret x s' -> f s' = f s.

(** Observations that do not look at memory, the allocator, the collector's
    variables, the root and cache tables, standard input or standard error. *)
Class Frame {A} (f : state -> A) : Prop := {
  frame_mem : forall g s, f (with_mem g s) = f s;
  frame_next_alloc : forall v s, f (with_next_alloc v s) = f s;
  frame_work_stack : forall v s, f (with_work_stack v s) = f s;
  frame_roots : forall v s, f (with_roots v s) = f s;
  frame_chars : forall v s, f (with_cached_church_chars v s) = f s;
  frame_swap : forall s, f (swap_spaces s) = f s;
  frame_stdin : forall v s, f (with_stdin v s) = f s;
  frame_stderr : forall v s, f (with_stderr v s) = f s
}.

#[global] Instance Frame_root_stack_top : Frame root_stack_top.
Proof. split; reflexivity. Qed.

#[global] Instance Frame_stdout : Frame stdout_.
Proof. split; reflexivity. Qed.

Lemma keeps_ret {A X} (f : state -> A) (x : X) : keeps f (mret x).
Proof. intros s y s' E. injection E as _ <-. reflexivity. Qed.

Lemma keeps_bind {A X Y} (f : state -> A) (m : M X) (k : X -> M Y) :
  keeps f m -> (forall x, keeps f (k x)) -> keeps f (m ≫= k).
Proof.
  intros Hm Hk s y s' E. apply bind_Ret_inv in E as (x & s1 & E1 & E2).
  rewrite (Hk _ _ _ _ E2). exact (Hm _ _ _ E1).
Qed.

Lemma keeps_modify {A} (f : state -> A) (g : state -> state) :
  (forall s, f (g s) = f s) -> keeps f (modify g).
Proof. intros Hg s x s' E. injection E as _ <-. apply Hg. Qed.

Lemma keeps_for_loop {A} (f : state -> A) n i body :
  (forall j, keeps f (body j)) -> keeps f (for_loop n i body).
Proof.
  intros Hb. revert i. induction n as [| n IH]; intros i; simpl.
  - apply keeps_ret.
  - apply keeps_bind; [apply Hb | intros _; apply IH].
Qed.

Create HintDb kt.

(** Decompose a computation down to the operations in the hint base. *)
Ltac keeps_step :=
  first
    [ assumption
    | solve [ auto with kt ]
    | match goal with
      | |- keeps _ (for_loop _ _ _) => apply keeps_for_loop; intros ?
      end
    | apply keeps_ret
    | apply keeps_bind; [ | intros ? ]
    | apply keeps_modify; intros ?;
      first [ reflexivity
            | apply frame_mem | apply frame_next_alloc
            | apply frame_work_stack | apply frame_roots
            | apply frame_chars | apply frame_swap
            | apply frame_stdin | apply frame_stderr ]
    | match goal with
      | |- keeps _ (if ?b then _ else _) => destruct b
      | |- keeps _ (match ?x with _ => _ end) => destruct x
      end ].
Ltac keeps_tac := repeat keeps_step.

Section Keeps.
Context {A : Type} (f : state -> A) `{!Frame f}.

Lemma keeps_get : keeps f get.
Proof. intros s x s' E. injection E as _ <-. reflexivity. Qed.

Lemma keeps_no_return {X} (m : M X) :
  (forall s x s', m s <> Ret x s') -> keeps f m.
Proof. intros Hm s x s' E. destruct (Hm _ _ _ E). Qed.

Lemma keeps_exit {X} c : keeps f (@exit X c).
Proof. apply keeps_no_return. discriminate. Qed.

Lemma keeps_abort : keeps f abort.
Proof. apply keeps_no_return. discriminate. Qed.

Lemma keeps_out_of_fuel {X} : keeps f (@out_of_fuel X).
Proof. apply keeps_no_return. discriminate. Qed.

Lemma keeps_load p : keeps f (load p).
Proof. intros s x s' E. apply load_Ret_inv in E as [-> _]. reflexivity. Qed.

Lemma keeps_store p c : keeps f (store p c).
Proof. unfold store. keeps_tac. Qed.

Lemma keeps_read_root i : keeps f (read_root i).
Proof.
  intros s x s'. unfold read_root. destruct (i <? 0); [discriminate|].
  destruct (roots s !! Z.to_nat i); [|discriminate].
  intros E. injection E as _ <-. reflexivity.
Qed.

Lemma keeps_write_root i v : keeps f (write_root i v).
Proof.
  intros s x s'. unfold write_root. destruct (i <? 0); [discriminate|].
  destruct (roots s !! Z.to_nat i); [|discriminate].
  intros E. injection E as _ <-. apply frame_roots.
Qed.

Lemma keeps_read_char i : keeps f (read_char i).
Proof.
  intros s x s'. unfold read_char. destruct (i <? 0); [discriminate|].
  destruct (cached_church_chars s !! Z.to_nat i); [|discriminate].
  intros E. injection E as _ <-. reflexivity.
Qed.

Lemma keeps_write_char i v : keeps f (write_char i v).
Proof.
  intros s x s'. unfold write_char. destruct (i <? 0); [discriminate|].
  destruct (cached_church_chars s !! Z.to_nat i); [|discriminate].
  intros E. injection E as _ <-. apply frame_chars.
Qed.

Lemma keeps_getchar : keeps f getchar.
Proof.
  intros s x s'. unfold getchar. destruct (stdin_ s); intros E;
    injection E as _ <-; [reflexivity | apply frame_stdin].
Qed.

Lemma keeps_pop_work : keeps f pop_work.
Proof.
  intros s x s'. unfold pop_work. destruct (work_stack s); [discriminate|].
  intros E. injection E as _ <-. apply frame_work_stack.
Qed.

#[local] Hint Resolve keeps_get keeps_exit keeps_abort
  keeps_out_of_fuel keeps_load keeps_store keeps_read_root
  keeps_write_root keeps_read_char keeps_write_char
  keeps_getchar keeps_pop_work : kt.

Lemma keeps_update p g : keeps f (update p g).
Proof. unfold update. keeps_tac. Qed.

Lemma keeps_fputs_stderr msg : keeps f (fputs_stderr msg).
Proof. unfold fputs_stderr. keeps_tac. Qed.

Lemma keeps_push_work e : keeps f (push_work e).
Proof. unfold push_work. keeps_tac. Qed.

Lemma keeps_operator_new : keeps f operator_new.
Proof. unfold operator_new. keeps_tac. Qed.
#[local] Hint Resolve keeps_update keeps_fputs_stderr
  keeps_push_work keeps_operator_new : kt.

Lemma keeps_new_Expr t a1 a2 : keeps f (new_Expr t a1 a2).
Proof. unfold new_Expr. keeps_tac. Qed.

Lemma keeps_copy_object obj : keeps f (copy_object obj).
Proof. unfold copy_object. keeps_tac. Qed.
#[local] Hint Resolve keeps_new_Expr keeps_copy_object : kt.

Lemma keeps_partial_apply lhs rhs : keeps f (partial_apply lhs rhs).
Proof. unfold partial_apply. keeps_tac. Qed.

Lemma keeps_gc_drain fuel : keeps f (gc_drain fuel).
Proof. induction fuel as [| fuel IH]; simpl; keeps_tac. Qed.
#[local] Hint Resolve keeps_partial_apply keeps_gc_drain : kt.

Lemma keeps_gc fuel : keeps f (gc fuel).
Proof.
  unfold gc. keeps_tac.
Qed.
#[local] Hint Resolve keeps_gc : kt.

Lemma keeps_oom fuel n : keeps f (oom fuel n).
Proof. unfold oom. keeps_tac. Qed.
#[local] Hint Resolve keeps_oom : kt.

Lemma keeps_check fuel n : keeps f (check fuel n).
Proof. unfold check. keeps_tac. Qed.

Lemma keeps_make_church_char fuel ch : keeps f (make_church_char fuel ch).
Proof.
  revert ch. induction fuel as [| fuel IH]; intros ch; simpl; keeps_tac.
Qed.
End Keeps.

#[local] Hint Resolve Frame_root_stack_top Frame_stdout : kt.
#[local] Hint Resolve keeps_get keeps_exit keeps_abort
  keeps_out_of_fuel keeps_load keeps_store keeps_read_root
  keeps_write_root keeps_read_char keeps_write_char
  keeps_getchar keeps_pop_work keeps_update keeps_fputs_stderr
  keeps_push_work keeps_operator_new keeps_new_Expr keeps_copy_object
  keeps_partial_apply keeps_gc_drain keeps_gc keeps_oom keeps_check
  keeps_make_church_char : kt.

Lemma root_Ret_inv e s u s' :
  root e s = Ret u s' -> root_stack_top s' = root_stack_top s + 1.
Proof.
  unfold root. intros E.
  apply bind_Ret_inv in E as (s0 & s1 & E1 & E). injection E1 as <- <-.
  apply bind_Ret_inv in E as ([] & s1 & E1 & E).
  injection E as _ <-. simpl. reflexivity.
Qed.

Lemma unroot_Ret_inv s p s' :
  unroot s = Ret p s' -> root_stack_top s' = root_stack_top s - 1.
Proof.
  unfold unroot. intros E.
  apply bind_Ret_inv in E as (s0 & s1 & E1 & E). injection E1 as <- <-.
  apply bind_Ret_inv in E as ([] & s1 & E1 & E). injection E1 as <-.
  apply (keeps_read_root root_stack_top) in E. rewrite E. reflexivity.
Qed.

(** [check_rooted] pushes two roots and pops two. *)
Lemma keeps_top_check_rooted fuel n e1 e2 :
  keeps root_stack_top (check_rooted fuel n e1 e2).
Proof.
  intros s x s' E. unfold check_rooted in E.
  apply bind_Ret_inv in E as (s0 & s1 & E1 & E). injection E1 as <- <-.
  destruct (is_exhausted s n).
  - apply bind_Ret_inv in E as ([] & s1 & E1 & E). apply root_Ret_inv in E1.
    apply bind_Ret_inv in E as ([] & s2 & E2 & E). apply root_Ret_inv in E2.
    apply bind_Ret_inv in E as ([] & s3 & E3 & E). apply (keeps_oom root_stack_top) in E3.
    apply bind_Ret_inv in E as (p2 & s4 & E4 & E). apply unroot_Ret_inv in E4.
    apply bind_Ret_inv in E as (p1 & s5 & E5 & E). apply unroot_Ret_inv in E5.
    injection E as _ <-. lia.
  - injection E as _ <-. reflexivity.
Qed.
#[local] Hint Resolve keeps_top_check_rooted : kt.

Lemma keeps_top_make_church_char fuel ch : keeps root_stack_top (make_church_char fuel ch).
Proof.
  revert ch. induction fuel as [| fuel IH]; intros ch; simpl; keeps_tac.
Qed.
#[local] Hint Resolve keeps_top_make_church_char : kt.

Lemma keeps_top_drop_i1 fuel cur : keeps root_stack_top (drop_i1 fuel cur).
Proof. intros s r s' E. apply drop_i1_spec in E as (_ & E & _). exact E. Qed.

Lemma keeps_top_descend fuel0 fuel prev cur :
  keeps root_stack_top (descend fuel0 fuel prev cur).
Proof.
  intros s [prev' cur'] s' E. apply descend_spec in E as (_ & E & _). exact E.
Qed.

Lemma keeps_top_case_S2 fuel e prev : keeps root_stack_top (case_S2 fuel e prev).
Proof. unfold case_S2. keeps_tac. Qed.
#[local] Hint Resolve keeps_top_drop_i1 keeps_top_descend keeps_top_case_S2
  : kt.

(** The primitive rewrite is balanced provided the reducer it calls back
    is: the [Inc] case pushes [e] and [prev] and pops both after the call. *)
Lemma keeps_top_primitive_application pe fuel e prev :
  (forall node, keeps root_stack_top (pe node)) ->
  keeps root_stack_top (partial_eval_primitive_application pe fuel e prev).
Proof.
  intros Hpe. unfold partial_eval_primitive_application.
  apply keeps_bind; [auto with kt | intros c].
  apply keeps_bind; [auto with kt | intros l].
  destruct (type l); try solve [keeps_tac].
  intros s x s' E.
  apply bind_Ret_inv in E as ([] & s1 & E1 & E). apply root_Ret_inv in E1.
  apply bind_Ret_inv in E as ([] & s2 & E2 & E). apply root_Ret_inv in E2.
  apply bind_Ret_inv in E as (r & s3 & E3 & E). apply Hpe in E3.
  apply bind_Ret_inv in E as (p2 & s4 & E4 & E). apply unroot_Ret_inv in E4.
  apply bind_Ret_inv in E as (p1 & s5 & E5 & E). apply unroot_Ret_inv in E5.
  assert (Hrest : root_stack_top s' = root_stack_top s5).
  { revert E. generalize s5 x s'.
    change (keeps root_stack_top
      (update p1 (set_type Tag.Num);;
       r0 ← load r;
       update p1 (set_arg1 (wrap_int (to_number r0 + 1)));;
       c0 ← load p1;
       if numeric_arg1 c0 =? 0 then fputs_stderr msg_inc;; exit 3
       else update p1 (set_arg2 0);; mret (p1, p2))).
    keeps_tac. }
  lia.
Qed.

Lemma keeps_top_partial_eval_loop pe fuel0 fuel prev cur :
  (forall node, keeps root_stack_top (pe node)) ->
  keeps root_stack_top (partial_eval_loop pe fuel0 fuel prev cur).
Proof.
  intros Hpe. revert prev cur.
  induction fuel as [| fuel IH]; intros prev cur; simpl;
    repeat first [ apply keeps_top_primitive_application; exact Hpe
                 | apply IH
                 | keeps_step ].
Qed.

Lemma keeps_top_partial_eval fuel node : keeps root_stack_top (partial_eval fuel node).
Proof.
  revert node. induction fuel as [| fuel IH]; intros node.
  - apply keeps_out_of_fuel.
  - apply (keeps_top_partial_eval_loop (partial_eval fuel) (S fuel) (S fuel)).
    exact IH.
Qed.

(** C9: [root_stack_top] has the same value when a call of [partial_eval]
    returns as when it was entered. *)
Theorem C9_root_stack_balanced fuel node s r s' :
  partial_eval fuel node s = Ret r s' ->
  root_stack_top s' = root_stack_top s.
Proof. apply keeps_top_partial_eval. Qed.

Lemma C9_root_stack_balanced_witness :
  root_stack_top (state_of (partial_eval 3 space1 inc_state) inc_state)
  = root_stack_top inc_state.
Proof.
  apply (C9_root_stack_balanced 3 space1 inc_state space1).
  vm_compute. reflexivity.
Defined.

(** ** One turn of the output loop (C6) *)

Lemma read_root_Ret_inv i s p s' :
  read_root i s = Ret p s' ->
  s' = s /\ 0 <= i /\ roots s !! Z.to_nat i = Some p.
Proof.
  unfold read_root. destruct (Z.ltb_spec i 0) as [|Hi]; [discriminate|].
  destruct (roots s !! Z.to_nat i) as [q|]; [|discriminate].
  intros E. injection E as -> ->. repeat split. exact Hi.
Qed.

Lemma write_root_in_range i v s :
  0 <= i -> (Z.to_nat i < length (roots s))%nat ->
  write_root i v s = Ret tt (with_roots (<[Z.to_nat i := v]> (roots s)) s).
Proof.
  intros Hi Hlt. unfold write_root.
  destruct (Z.ltb_spec i 0) as [|_]; [lia|].
  destruct (lookup_lt_is_Some_2 _ _ Hlt) as [q ->]. reflexivity.
Qed.

(** C6: one turn of the driver loop, from the point where the head of the
    output list has been decoded to [ch].  If [ch >= 256] the process ends
    with exit code [ch - 256].  If [ch < 256] the byte is appended to standard
    output and, once the reservation of one cell has succeeded, the top-level
    root is replaced by a fresh application of the old root to [KI], the tail
    of the list; the loop then goes round again. *)
Theorem C6_driver_step fuel0 fuel s s0 top head s1 ch s2 :
  check fuel0 1 s = Ret tt s0 ->
  read_root toplevel_root s0 = Ret top s0 ->
  car top s0 = Ret head s1 ->
  church2int fuel0 head s1 = Ret ch s2 ->
  (256 <= ch -> main_loop fuel0 (S fuel) s = Exit (ch - 256) s2) /\
  (ch < 256 ->
   forall s3 top',
     check fuel0 1 (with_stdout (stdout_ s2 ++ [ch mod 256]) s2) = Ret tt s3 ->
     read_root toplevel_root s3 = Ret top' s3 ->
     exists s4 tail,
       main_loop fuel0 (S fuel) s = main_loop fuel0 fuel s4 /\
       stdout_ s4 = stdout_ s2 ++ [ch mod 256] /\
       (0 <= ch -> ch mod 256 = ch) /\
       roots s4 !! Z.to_nat toplevel_root = Some tail /\
       mem s4 !! tail = Some (Expr_ctor Tag.A top' KI)).
Proof.
  intros Hc0 Htop Hcar Hdec.
  assert (Hpre : main_loop fuel0 (S fuel) s =
    (if 256 <=? ch then exit (ch - 256)
     else
       putchar ch;;
       check fuel0 1;;
       top ← read_root toplevel_root;
       tail ← cdr top;
       write_root toplevel_root tail;;
       main_loop fuel0 fuel) s2).
  { cbn [main_loop].
    rewrite (bind_Ret _ _ _ _ _ Hc0), (bind_Ret _ _ _ _ _ Htop).
    rewrite (bind_Ret _ _ _ _ _ Hcar), (bind_Ret _ _ _ _ _ Hdec).
    reflexivity. }
  rewrite Hpre. clear Hpre. split.
  - intros Hge. destruct (Z.leb_spec 256 ch) as [_|]; [reflexivity | lia].
  - intros Hlt s3 top' Hc3 Htop3.
    destruct (Z.leb_spec 256 ch) as [|_]; [lia|].
    assert (Hput : putchar ch s2
                   = Ret tt (with_stdout (stdout_ s2 ++ [ch mod 256]) s2))
      by reflexivity.
    rewrite (bind_Ret _ _ _ _ _ Hput), (bind_Ret _ _ _ _ _ Hc3).
    rewrite (bind_Ret _ _ _ _ _ Htop3).
    apply (keeps_check stdout_) in Hc3 as Hout. simpl in Hout.
    apply read_root_Ret_inv in Htop3 as (_ & _ & Hr).
    pose proof (lookup_lt_Some _ _ _ Hr) as Hlen.
    set (tail := next_alloc s3).
    set (s3' := with_mem (insert tail (Expr_ctor Tag.A top' KI))
                  (with_next_alloc (tail + 1) s3)).
    assert (Hcdr : cdr top' s3 = Ret tail s3') by reflexivity.
    rewrite (bind_Ret _ _ _ _ _ Hcdr).
    assert (Hw : write_root toplevel_root tail s3'
                 = Ret tt (with_roots (<[Z.to_nat toplevel_root := tail]>
                                         (roots s3')) s3')).
    { apply write_root_in_range; [unfold toplevel_root; lia | exact Hlen]. }
    rewrite (bind_Ret _ _ _ _ _ Hw).
    eexists _, tail. split; [reflexivity|].
    split; [exact Hout|].
    split; [intros Hge; apply Z.mod_small; lia|].
    split.
    + simpl. apply list_lookup_insert_eq. exact Hlen.
    + simpl. apply lookup_insert_eq.
Qed.

(** The value returned by an outcome that returns one. *)
Definition value_of {X} (o : outcome X) (default : X) : X :=
  match o with
  | Ret x _ => x
  | _ => default
  end.

(** The state in which [main] enters its output loop when the program is the
    identity (no program argument): the cache is filled and the top-level
    root is [A(I, LazyRead)]. *)
Definition driver_entry (fuel : nat) (input : list Z) : state :=
  state_of
    ((init_church_chars fuel;;
      lr ← new_Expr Tag.LazyRead 0 0;
      top ← partial_apply cI lr;
      write_root toplevel_root top) (initial_state input))
    (initial_state input).

Lemma C6_driver_step_witness :
  exists s4 tail,
    main_loop 12 1 (driver_entry 12 [1]) = main_loop 12 0 s4 /\
    stdout_ s4 = [1] /\
    roots s4 !! 0%nat = Some tail /\
    tag_at s4 tail = Some Tag.A.
Proof.
  pose (s := driver_entry 12 [1]).
  pose (s0 := state_of (check 12 1 s) s).
  pose (top := value_of (read_root toplevel_root s0) 0).
  pose (head := value_of (car top s0) 0).
  pose (s1 := state_of (car top s0) s0).
  pose (s2 := state_of (church2int 12 head s1) s1).
  destruct (C6_driver_step 12 0 s s0 top head s1 1 s2) as [_ Hlt].
  - vm_compute. reflexivity.
  - vm_compute. reflexivity.
  - vm_compute. reflexivity.
  - vm_compute. reflexivity.
  - pose (s3 := state_of
                  (check 12 1 (with_stdout (stdout_ s2 ++ [1 mod 256]) s2))
                  s2).
    pose (top' := value_of (read_root toplevel_root s3) 0).
    destruct (Hlt ltac:(lia) s3 top') as (s4 & tail & E & Hout & _ & Hr & Hm).
    + vm_compute. reflexivity.
    + vm_compute. reflexivity.
    + exists s4, tail. split; [exact E|].
      split; [rewrite Hout; vm_compute; reflexivity|].
      split; [exact Hr|]. unfold tag_at. rewrite Hm. reflexivity.
Defined.

(** ** The [LazyRead] and [S2] cases of the primitive rewrite (C1) *)

Lemma store_run p c s : store p c s = Ret tt (with_mem (insert p c) s).
Proof. reflexivity. Qed.

Lemma operator_new_run s :
  operator_new s = Ret (next_alloc s) (with_next_alloc (next_alloc s + 1) s).
Proof. reflexivity. Qed.

Lemma new_Expr_run t a1 a2 s :
  new_Expr t a1 a2 s
  = Ret (next_alloc s)
      (with_mem (insert (next_alloc s) (Expr_ctor t a1 a2))
         (with_next_alloc (next_alloc s + 1) s)).
Proof. reflexivity. Qed.

Lemma unroot_frame s p s' :
  unroot s = Ret p s' ->
  next_alloc s' = next_alloc s /\ from_space_end s' = from_space_end s.
Proof.
  unfold unroot. intros E.
  apply bind_Ret_inv in E as (s0 & s1 & E1 & E). injection E1 as <- <-.
  apply bind_Ret_inv in E as ([] & s1 & E1 & E). injection E1 as <-.
  apply read_root_Ret_inv in E as (-> & _). split; reflexivity.
Qed.

(** A reservation that returns has made sure the cells fit. *)
Lemma oom_not_exhausted fuel n s u s' :
  oom fuel n s = Ret u s' -> is_exhausted s' n = false.
Proof.
  unfold oom. intros E.
  apply bind_Ret_inv in E as ([] & s1 & _ & E).
  apply bind_Ret_inv in E as (s0 & s2 & E1 & E). injection E1 as <- <-.
  destruct (is_exhausted s1 n) eqn:Hex.
  - apply bind_Ret_inv in E as ([] & s3 & _ & E). discriminate E.
  - injection E as _ <-. exact Hex.
Qed.

Lemma check_rooted_not_exhausted fuel n e1 e2 s x s' :
  check_rooted fuel n e1 e2 s = Ret x s' -> is_exhausted s' n = false.
Proof.
  unfold check_rooted. intros E.
  apply bind_Ret_inv in E as (s0 & s1 & E1 & E). injection E1 as <- <-.
  destruct (is_exhausted s n) eqn:Hex.
  - apply bind_Ret_inv in E as ([] & s1 & _ & E).
    apply bind_Ret_inv in E as ([] & s2 & _ & E).
    apply bind_Ret_inv in E as ([] & s3 & E3 & E).
    apply oom_not_exhausted in E3.
    apply bind_Ret_inv in E as (p2 & s4 & E4 & E).
    apply unroot_frame in E4 as [Hn4 He4].
    apply bind_Ret_inv in E as (p1 & s5 & E5 & E).
    apply unroot_frame in E5 as [Hn5 He5].
    injection E as _ <-. unfold is_exhausted in *.
    rewrite Hn5, He5, Hn4, He4. exact E3.
  - injection E as _ <-. exact Hex.
Qed.

Lemma check_rooted_enough fuel n e1 e2 s :
  is_exhausted s n = false -> check_rooted fuel n e1 e2 s = Ret (e1, e2) s.
Proof.
  intros Hex. unfold check_rooted.
  rewrite bind_unfold. simpl. rewrite Hex. reflexivity.
Qed.

(** The [S2] case when the two cells fit: the application node keeps its tag
    and gets two fresh application nodes as children, which share [rhs]. *)
Lemma case_S2_run fuel e prev s c l :
  is_exhausted s 2 = false ->
  mem s !! e = Some c ->
  mem s !! arg1 c = Some l ->
  e <> next_alloc s -> e <> next_alloc s + 1 ->
  arg1 c <> e -> arg1 c <> next_alloc s ->
  exists s',
    case_S2 fuel e prev s = Ret (e, prev) s' /\
    mem s' =
      <[e := set_arg2 (next_alloc s + 1) (set_arg1 (next_alloc s) c)]>
        (<[next_alloc s + 1 := Expr_ctor Tag.A (arg2 l) (arg2 c)]>
           (<[e := set_arg1 (next_alloc s) c]>
              (<[next_alloc s := Expr_ctor Tag.A (arg1 l) (arg2 c)]> (mem s))))
    /\ next_alloc s' = next_alloc s + 2
    /\ stdin_ s' = stdin_ s.
Proof.
  intros Hex He Hl Hn0 Hn1 Hle Hln.
  unfold case_S2.
  rewrite (bind_Ret _ _ _ _ _ (check_rooted_enough fuel 2 e prev s Hex)).
  rewrite (bind_Ret _ _ _ _ _ (load_Some _ _ _ He)).
  rewrite (bind_Ret _ _ _ _ _ (load_Some _ _ _ Hl)).
  unfold partial_apply.
  rewrite (bind_Ret _ _ _ _ _ (new_Expr_run _ _ _ _)).
  set (n := next_alloc s) in *.
  set (s1 := with_mem (insert n (Expr_ctor Tag.A (arg1 l) (arg2 c)))
               (with_next_alloc (n + 1) s)).
  assert (H1 : mem s1 !! e = Some c).
  { simpl. rewrite lookup_insert_ne by congruence. exact He. }
  rewrite (bind_Ret _ _ _ _ _ (update_Some _ _ _ _ H1)).
  set (s2 := with_mem (insert e (set_arg1 n c)) s1).
  assert (H2 : mem s2 !! arg1 c = Some l).
  { simpl. rewrite lookup_insert_ne by congruence.
    rewrite lookup_insert_ne by congruence. exact Hl. }
  rewrite (bind_Ret _ _ _ _ _ (load_Some _ _ _ H2)).
  rewrite (bind_Ret _ _ _ _ _ (new_Expr_run _ _ _ _)).
  set (s3 := with_mem (insert (next_alloc s2) (Expr_ctor Tag.A (arg2 l) (arg2 c)))
               (with_next_alloc (next_alloc s2 + 1) s2)).
  assert (H3 : mem s3 !! e = Some (set_arg1 n c)).
  { simpl. rewrite lookup_insert_ne by congruence. apply lookup_insert_eq. }
  rewrite (bind_Ret _ _ _ _ _ (update_Some _ _ _ _ H3)).
  eexists. split; [reflexivity|]. simpl.
  split; [reflexivity|]. split; [lia | reflexivity].
Qed.

(** The byte [LazyRead] turns into a Church numeral: the next byte of
    standard input, or 256 at end of file. *)
Definition next_input (input : list Z) : Z :=
  match input with
  | [] => 256
  | b :: _ => b
  end.

Lemma read_char_Some i s p :
  0 <= i -> cached_church_chars s !! Z.to_nat i = Some p ->
  read_char i s = Ret p s.
Proof.
  intros Hi E. unfold read_char.
  destruct (Z.ltb_spec i 0); [lia|]. rewrite E. reflexivity.
Qed.

(** With the cache entry present, [make_church_char] just returns it. *)
Lemma make_church_char_cached fuel ch s p :
  0 <= ch <= 256 ->
  cached_church_chars s !! Z.to_nat ch = Some p -> p <> 0 ->
  make_church_char (S fuel) ch s = Ret p s.
Proof.
  intros Hch Hp Hnz. cbn [make_church_char].
  destruct (Z.ltb_spec ch 0); [lia|]. destruct (Z.ltb_spec 256 ch); [lia|].
  simpl orb. cbv iota.
  rewrite (bind_Ret _ _ _ _ _ (read_char_Some _ _ _ (proj1 Hch) Hp)).
  destruct (Z.eqb_spec p 0); [contradiction|].
  rewrite bind_unfold. simpl. apply read_char_Some; [lia | exact Hp].
Qed.

(** What [getchar] returns on a given input. *)
Definition next_char (input : list Z) : Z :=
  match input with
  | [] => EOF
  | b :: _ => b
  end.

Lemma getchar_run s :
  getchar s = Ret (next_char (stdin_ s)) (with_stdin (tail (stdin_ s)) s).
Proof.
  unfold getchar. destruct s as [m a b c d n w r t cc i o e]. simpl.
  destruct i; reflexivity.
Qed.

Lemma make_church_char_next fuel s input p :
  Forall (fun b => 0 <= b < 256) input ->
  cached_church_chars s !! Z.to_nat (next_input input) = Some p ->
  p <> 0 ->
  make_church_char (S fuel) (next_char input) s = Ret p s.
Proof.
  intros Hin Hp Hnz. destruct input as [| b rest]; simpl in *.
  - cbn [make_church_char]. simpl.
    rewrite (bind_Ret _ _ _ _ _ (read_char_Some 256 _ _ ltac:(lia) Hp)).
    destruct (Z.eqb_spec p 0); [contradiction|].
    rewrite bind_unfold. simpl. apply read_char_Some; [lia | exact Hp].
  - inversion Hin as [| ? ? Hb _]; subst.
    apply make_church_char_cached; [lia | exact Hp | exact Hnz].
Qed.

(** Look a key up through a pile of inserts whose keys differ by arithmetic. *)
Ltac lookup_step :=
  rewrite lookup_insert; case_decide;
  [ try (exfalso; lia) | try (exfalso; lia) ].
Ltac lookup_tac := repeat lookup_step.
Lemma Expr_eq f a1 a2 t f' a1' a2' t' :
  f = f' -> a1 = a1' -> a2 = a2' -> t = t' ->
  mkExpr f a1 a2 t = mkExpr f' a1' a2' t'.
Proof. intros -> -> -> ->. reflexivity. Qed.

Ltac cell_eq :=
  unfold set_arg1, set_arg2, set_type, set_forward, Expr_ctor; simpl;
  apply f_equal, Expr_eq; first [ assumption | reflexivity | lia ].

(** C1, as the code has it: when the head of the application node is a
    [LazyRead] cell, the rewrite reserves six cells, takes one byte [b] from
    standard input (256 at end of file) and overwrites the [LazyRead] cell
    itself, not [e], with [S2(S2(I, K1(ccc[b])), K1(LazyRead'))], where
    [LazyRead'] is a fresh [LazyRead] cell; the inner node that holds [I] and
    [K1(ccc[b])] is an [S2] cell, not an application.  It then goes on as in
    the [S2] case with the rewritten head: [e] stays an application and gets
    the two fresh children [A(S2(I, K1(ccc[b])), rhs)] and
    [A(K1(LazyRead'), rhs)].  The statement starts from the state [s1] in
    which the reservation returned, with [e'] and [prev'] the values of [e]
    and [prev] after it; the six cells used are the six numbered from the
    allocation pointer of [s1]. *)
Theorem C1_lazy_read_rewrite pe fuel e prev s c l e' prev' s1 c1 l1 cc :
  mem s !! e = Some c ->
  mem s !! arg1 c = Some l ->
  type l = Tag.LazyRead ->
  check_rooted (S fuel) 6 e prev s = Ret (e', prev') s1 ->
  mem s1 !! e' = Some c1 ->
  mem s1 !! arg1 c1 = Some l1 ->
  type c1 = Tag.A ->
  type l1 = Tag.LazyRead ->
  ~ (next_alloc s1 <= e' < next_alloc s1 + 6) ->
  ~ (next_alloc s1 <= arg1 c1 < next_alloc s1 + 6) ->
  Forall (fun b => 0 <= b < 256) (stdin_ s1) ->
  cached_church_chars s1 !! Z.to_nat (next_input (stdin_ s1)) = Some cc ->
  cc <> 0 ->
  let n := next_alloc s1 in
  let lhs := arg1 c1 in
  let rhs := arg2 c1 in
  n + 6 < from_space_end s1 /\
  exists s',
    partial_eval_primitive_application pe (S fuel) e prev s
    = Ret (e', prev') s' /\
    stdin_ s' = tail (stdin_ s1) /\
    next_alloc s' = n + 6 /\
    mem s' !! lhs = Some (mkExpr (forward l1) n (n + 2) Tag.S2) /\
    mem s' !! n = Some (Expr_ctor Tag.S2 cI (n + 1)) /\
    mem s' !! (n + 1) = Some (Expr_ctor Tag.K1 cc 0) /\
    mem s' !! (n + 2) = Some (Expr_ctor Tag.K1 (n + 3) 0) /\
    mem s' !! (n + 3) = Some (Expr_ctor Tag.LazyRead 0 0) /\
    mem s' !! e' = Some (mkExpr (forward c1) (n + 4) (n + 5) Tag.A) /\
    mem s' !! (n + 4) = Some (Expr_ctor Tag.A n rhs) /\
    mem s' !! (n + 5) = Some (Expr_ctor Tag.A (n + 2) rhs).
Proof.
  intros He Hl Ht Hchk He1 Hl1 Htc1 Htl1 Hfe Hfl Hin Hcc Hnz n lhs rhs.
  pose proof (check_rooted_not_exhausted _ _ _ _ _ _ _ Hchk) as Hex.
  unfold is_exhausted in Hex. apply Z.leb_gt in Hex. fold n in Hex.
  split; [exact Hex|].
  assert (Hel : e' <> lhs).
  { intros ->. unfold lhs in *. rewrite He1 in Hl1. injection Hl1 as <-.
    rewrite Htc1 in Htl1. discriminate. }
  unfold partial_eval_primitive_application.
  rewrite (bind_Ret _ _ _ _ _ (load_Some _ _ _ He)).
  rewrite (bind_Ret _ _ _ _ _ (load_Some _ _ _ Hl)).
  rewrite Ht.
  rewrite (bind_Ret _ _ _ _ _ Hchk).
  rewrite (bind_Ret _ _ _ _ _ (load_Some _ _ _ He1)).
  rewrite (bind_Ret _ _ _ _ _ (update_Some _ _ _ _ Hl1)).
  fold lhs.
  set (s2 := with_mem (insert lhs (set_type Tag.S2 l1)) s1).
  rewrite (bind_Ret _ _ _ _ _ (operator_new_run _)).
  rewrite (bind_Ret _ _ _ _ _ (operator_new_run _)).
  rewrite (bind_Ret _ _ _ _ _ (getchar_run _)).
  match goal with
  | |- context [(make_church_char _ _ ≫= _) ?sk] =>
      rewrite (bind_Ret _ _ _ _ _
                 (make_church_char_next fuel sk (stdin_ s1) cc Hin Hcc Hnz))
  end.
  rewrite (bind_Ret _ _ _ _ _ (store_run _ _ _)).
  rewrite (bind_Ret _ _ _ _ _ (store_run _ _ _)).
  simpl next_alloc. fold n.
  match goal with
  | |- context [(update lhs (set_arg1 n) ≫= _) ?sk] =>
      assert (Hk1 : mem sk !! lhs = Some (set_type Tag.S2 l1))
        by (simpl; subst n lhs; lookup_tac; reflexivity);
      rewrite (bind_Ret _ _ _ _ _ (update_Some _ _ _ _ Hk1)); clear Hk1
  end.
  rewrite (bind_Ret _ _ _ _ _ (operator_new_run _)).
  rewrite (bind_Ret _ _ _ _ _ (operator_new_run _)).
  rewrite (bind_Ret _ _ _ _ _ (store_run _ _ _)).
  rewrite (bind_Ret _ _ _ _ _ (store_run _ _ _)).
  simpl next_alloc. fold n.
  match goal with
  | |- context [(update lhs (set_arg2 ?v) ≫= _) ?sk] =>
      assert (Hk2 : mem sk !! lhs = Some (set_arg1 n (set_type Tag.S2 l1)))
        by (simpl; subst n lhs; lookup_tac; reflexivity);
      rewrite (bind_Ret _ _ _ _ _ (update_Some _ _ _ _ Hk2)); clear Hk2
  end.
  match goal with
  | |- context [case_S2 _ _ _ ?sk] =>
      destruct (case_S2_run (S fuel) e' prev' sk c1
                  (set_arg2 (n + 1 + 1) (set_arg1 n (set_type Tag.S2 l1))))
        as (s' & Erun & Hmem & Hnext & Hstdin)
  end.
  - unfold is_exhausted. simpl. fold n. apply Z.leb_gt. lia.
  - simpl. fold n. rewrite !lookup_insert_ne by (fold lhs; lia || congruence).
    exact He1.
  - simpl. fold lhs. apply lookup_insert_eq.
  - simpl. fold n. lia.
  - simpl. fold n. lia.
  - fold lhs. congruence.
  - simpl. fold n lhs. lia.
  - exists s'. split; [exact Erun|].
    split; [rewrite Hstdin; reflexivity|].
    split; [rewrite Hnext; simpl; fold n; lia|].
    rewrite Hmem. simpl. clear Hmem Erun Hnext Hstdin.
    subst n lhs rhs.
    repeat split; lookup_tac; cell_eq.
Qed.

(** A state with the cache filled, a [LazyRead] cell at [space1 + 255] and,
    at [space1 + 256], the application of that cell to [K]. *)
Definition lazyread_state (input : list Z) : state :=
  state_of
    ((init_church_chars 3;;
      lr ← new_Expr Tag.LazyRead 0 0;
      partial_apply lr cK) (initial_state input))
    (initial_state input).

Lemma C1_lazy_read_rewrite_witness :
  exists s',
    partial_eval_primitive_application (partial_eval 0) 1 (space1 + 256) 0
      (lazyread_state [104])
    = Ret (space1 + 256, 0) s' /\
    mem s' !! (space1 + 255)
    = Some (mkExpr 0 (space1 + 257) (space1 + 259) Tag.S2) /\
    mem s' !! (space1 + 257) = Some (Expr_ctor Tag.S2 cI (space1 + 258)).
Proof.
  pose (s := lazyread_state [104]).
  destruct (C1_lazy_read_rewrite (partial_eval 0) 0 (space1 + 256) 0 s
              (Expr_ctor Tag.A (space1 + 255) cK)
              (Expr_ctor Tag.LazyRead 0 0)
              (space1 + 256) 0 s
              (Expr_ctor Tag.A (space1 + 255) cK)
              (Expr_ctor Tag.LazyRead 0 0)
              (space1 + 102))
    as (_ & s' & E & _ & _ & Hl & Hn & _).
  - vm_compute. reflexivity.
  - vm_compute. reflexivity.
  - reflexivity.
  - vm_compute. reflexivity.
  - vm_compute. reflexivity.
  - vm_compute. reflexivity.
  - reflexivity.
  - reflexivity.
  - vm_compute. intros [H1 _]. apply H1. reflexivity.
  - vm_compute. intros [H1 _]. apply H1. reflexivity.
  - replace (stdin_ s) with [104] by (vm_compute; reflexivity).
    repeat constructor; lia.
  - vm_compute. reflexivity.
  - discriminate.
  - exists s'. split; [exact E|].
    replace (next_alloc s) with (space1 + 257) in Hl, Hn
      by (vm_compute; reflexivity).
    split; [exact Hl | exact Hn].
Defined.

(** C1 as stated fails: after the rewrite the first child of the former
    [LazyRead] cell is an [S2] cell, not an application node. *)
Lemma C1_counterexample :
  let s' :=
    state_of
      (partial_eval_primitive_application (partial_eval 0) 1 (space1 + 256) 0
         (lazyread_state [104]))
      (lazyread_state [104]) in
  tag_at (lazyread_state [104]) (space1 + 255) = Some Tag.LazyRead /\
  exists cl,
    mem s' !! (space1 + 255) = Some cl /\
    type cl = Tag.S2 /\
    tag_at s' (arg1 cl) = Some Tag.S2 /\
    tag_at s' (arg1 cl) <> Some Tag.A.
Proof.
  split; [vm_compute; reflexivity|].
  exists (mkExpr 0 (space1 + 257) (space1 + 259) Tag.S2).
  split; [vm_compute; reflexivity|].
  split; [reflexivity|].
  assert (E : tag_at
                (state_of
                   (partial_eval_primitive_application (partial_eval 0) 1
                      (space1 + 256) 0 (lazyread_state [104]))
                   (lazyread_state [104])) (space1 + 257) = Some Tag.S2)
    by (vm_compute; reflexivity).
  split; [exact E|]. cbn [arg1]. rewrite E. discriminate.
Qed.

(** ** Church numeral literals in the parser (C7) *)

(** Combinator terms, to say what a parsed graph denotes. *)
Inductive term : Set :=
| TS | TK | TI
| TApp (f x : term).

(** [repr lim m p t]: in memory [m] the pointer [p] is the root of a graph
    that spells the term [t], with the atoms [S], [K], [I] at their static
    cells and every application an [A] cell below [lim]. *)
Fixpoint repr (lim : Z) (m : gmap Z Expr) (p : Z) (t : term) : Prop :=
  match t with
  | TS => p = cS
  | TK => p = cK
  | TI => p = cI
  | TApp f x =>
      p < lim /\
      exists c, m !! p = Some c /\ type c = Tag.A /\
                repr lim m (arg1 c) f /\ repr lim m (arg2 c) x
  end.

(** What one digit of a literal does to the term read so far. *)
Definition digit_step (t : term) (d : Z) : term :=
  if d =? chr "0"%char then TApp (TApp t TS) TK else TApp TS (TApp TK t).

(** The left fold over the digits, starting from [I]. *)
Definition church_literal (ds : list Z) : term := foldl digit_step TI ds.

Section ParserProperties.
Context {T : Type} `{Stream T}.

(** The characters that [n] successive calls of [getch] deliver, and the
    stream they leave. *)
Fixpoint getch_seq (f : T) (n : nat) : list Z * T :=
  match n with
  | O => ([], f)
  | S n' =>
      let '(c, f1) := getch f in
      let '(cs, f2) := getch_seq f1 n' in
      (c :: cs, f2)
  end.

Lemma getch_seq_S f n :
  getch_seq f (S n) =
  let '(c, f1) := getch f in
  let '(cs, f2) := getch_seq f1 n in (c :: cs, f2).
Proof. reflexivity. Qed.

Lemma repr_mono lim lim' m m' p t :
  lim <= lim' ->
  (forall q, q < lim -> m' !! q = m !! q) ->
  repr lim m p t -> repr lim' m' p t.
Proof.
  intros Hle Hm. revert p. induction t as [| | | f IHf x IHx]; intros p; simpl;
    try (intros ->; reflexivity).
  intros (Hp & c & Hc & Ht & Hf & Hx). split; [lia|].
  exists c. split; [rewrite Hm by exact Hp; exact Hc|].
  split; [exact Ht|]. split; [apply IHf; exact Hf | apply IHx; exact Hx].
Qed.

(** One digit allocates two application nodes on top of the term so far. *)
Lemma digit_cells d e t s :
  12 < next_alloc s ->
  repr (next_alloc s) (mem s) e t ->
  exists r s',
    (if d =? chr "0"%char then a ← partial_apply e cS; partial_apply a cK
     else a ← partial_apply cK e; partial_apply cS a) s = Ret r s' /\
    next_alloc s' = next_alloc s + 2 /\
    (forall q, q < next_alloc s -> mem s' !! q = mem s !! q) /\
    repr (next_alloc s') (mem s') r (digit_step t d).
Proof.
  intros Hst He. unfold digit_step, partial_apply.
  set (n := next_alloc s).
  assert (Hfr : forall (c1 c2 : Expr) q, q < n ->
            <[n + 1 := c2]> (<[n := c1]> (mem s)) !! q = mem s !! q).
  { intros c1 c2 q Hq. rewrite !lookup_insert_ne by lia. reflexivity. }
  assert (He' : forall c1 c2,
            repr (n + 1 + 1) (<[n + 1 := c2]> (<[n := c1]> (mem s))) e t).
  { intros c1 c2. eapply repr_mono; [| apply Hfr | exact He]. fold n. lia. }
  destruct (d =? chr "0"%char).
  - rewrite (bind_Ret _ _ _ _ _ (new_Expr_run _ _ _ _)), new_Expr_run.
    eexists _, _. split; [reflexivity|]. simpl. fold n.
    split; [lia|]. split; [apply Hfr|].
    split; [lia|]. eexists. split; [apply lookup_insert_eq|].
    split; [reflexivity|]. simpl. split; [|reflexivity].
    split; [lia|]. eexists. split.
    { rewrite lookup_insert_ne by lia. apply lookup_insert_eq. }
    split; [reflexivity|]. simpl. split; [apply He' | reflexivity].
  - rewrite (bind_Ret _ _ _ _ _ (new_Expr_run _ _ _ _)), new_Expr_run.
    eexists _, _. split; [reflexivity|]. simpl. fold n.
    split; [lia|]. split; [apply Hfr|].
    split; [lia|]. eexists. split; [apply lookup_insert_eq|].
    split; [reflexivity|]. simpl. split; [reflexivity|].
    split; [lia|]. eexists. split.
    { rewrite lookup_insert_ne by lia. apply lookup_insert_eq. }
    split; [reflexivity|]. simpl. split; [reflexivity | apply He'].
Qed.

Lemma parse_digits_spec ds : forall fuel f d e t c f' s,
  Forall (fun x => is_digit x = true) ds ->
  is_digit c = false ->
  getch_seq f (S (length ds)) = (ds ++ [c], f') ->
  (length ds < fuel)%nat ->
  12 < next_alloc s ->
  repr (next_alloc s) (mem s) e t ->
  exists r s',
    parse_digits fuel f d e s = Ret (r, ungetch c f') s' /\
    next_alloc s' = next_alloc s + 2 * (1 + Z.of_nat (length ds)) /\
    (forall q, q < next_alloc s -> mem s' !! q = mem s !! q) /\
    repr (next_alloc s') (mem s') r (foldl digit_step (digit_step t d) ds).
Proof.
  induction ds as [| d1 ds IH]; intros fuel f d e t c f' s Hds Hc Hseq Hfuel
    Hst He.
  - destruct fuel as [| fuel]; [simpl in Hfuel; lia|].
    simpl in Hseq. destruct (getch f) as [c0 f0] eqn:Hg.
    inversion Hseq; subst; clear Hseq.
    destruct (digit_cells d e t s Hst He) as (r & s' & Er & Hn & Hfr & Hr).
    exists r, s'. cbn [parse_digits].
    rewrite (bind_Ret _ _ _ _ _ Er). rewrite Hg, Hc.
    split; [reflexivity|]. split; [simpl; lia|]. split; [exact Hfr | exact Hr].
  - destruct fuel as [| fuel]; [simpl in Hfuel; lia|].
    change (length (d1 :: ds)) with (S (length ds)) in Hseq.
    rewrite getch_seq_S in Hseq.
    destruct (getch f) as [c0 f0] eqn:Hg.
    destruct (getch_seq f0 (S (length ds))) as [cs f2] eqn:Hseq'.
    simpl in Hseq. inversion Hseq; subst; clear Hseq.
    inversion Hds as [| ? ? Hd1 Hds']; subst.
    destruct (digit_cells d e t s Hst He) as (r1 & s1 & Er & Hn & Hfr & Hr).
    destruct (IH fuel f0 d1 r1 (digit_step t d) c f' s1 Hds' Hc Hseq'
                ltac:(simpl in Hfuel; lia) ltac:(lia) Hr)
      as (r & s' & Erun & Hn' & Hfr' & Hr').
    exists r, s'. cbn [parse_digits].
    rewrite (bind_Ret _ _ _ _ _ Er). rewrite Hg, Hd1.
    split; [exact Erun|].
    split; [rewrite Hn', Hn; cbn [length]; lia|].
    split; [|exact Hr'].
    intros q Hq. rewrite Hfr' by lia. apply Hfr. exact Hq.
Qed.

Lemma parse_expr_digit fuel f d i_is_iota :
  is_digit d = true ->
  parse_expr (S fuel) f d i_is_iota = parse_digits (S fuel) f d cI.
Proof.
  unfold is_digit. intros Hd. apply orb_true_iff in Hd as [Hd | Hd];
    apply Z.eqb_eq in Hd; subst d; destruct i_is_iota; reflexivity.
Qed.
End ParserProperties.

(** C7: entered on a digit [d], with the stream about to deliver the digits
    [ds] and then a character [c] that is not a digit (possibly [EOF]),
    [parse_expr] returns a graph for the left fold of [digit_step] over
    [d :: ds] starting from [I], where ["0"] maps [e] to [A(A(e, S), K)] and
    ["1"] maps [e] to [A(S, A(K, e))]; it leaves the stream as [ungetch c]
    makes it, and touches no cell that was already allocated.  In particular
    the literal [01] parses to [A(S, A(K, A(A(I, S), K)))]. *)
Theorem C7_church_literal :
  (forall (T : Type) (ST : Stream T) fuel (f : T) d ds c f' i_is_iota s,
     is_digit d = true ->
     Forall (fun x => is_digit x = true) ds ->
     is_digit c = false ->
     getch_seq f (S (length ds)) = (ds ++ [c], f') ->
     (length ds < fuel)%nat ->
     12 < next_alloc s ->
     exists r s',
       parse_expr fuel f d i_is_iota s = Ret (r, ungetch c f') s' /\
       repr (next_alloc s') (mem s') r (church_literal (d :: ds)) /\
       (forall q, q < next_alloc s -> mem s' !! q = mem s !! q)) /\
  (exists r s',
     parse_expr 2 (mkStringStream "01" 1) (chr "0"%char) false
       (initial_state [])
     = Ret (r, mkStringStream "01" 2) s' /\
     repr (next_alloc s') (mem s') r
       (TApp TS (TApp TK (TApp (TApp TI TS) TK)))).
Proof.
  assert (Hgen : forall (T : Type) (ST : Stream T) fuel (f : T) d ds c f'
                   i_is_iota s,
     is_digit d = true ->
     Forall (fun x => is_digit x = true) ds ->
     is_digit c = false ->
     getch_seq f (S (length ds)) = (ds ++ [c], f') ->
     (length ds < fuel)%nat ->
     12 < next_alloc s ->
     exists r s',
       parse_expr fuel f d i_is_iota s = Ret (r, ungetch c f') s' /\
       repr (next_alloc s') (mem s') r (church_literal (d :: ds)) /\
       (forall q, q < next_alloc s -> mem s' !! q = mem s !! q)).
  { intros T ST fuel f d ds c f' i_is_iota s Hd Hds Hc Hseq Hfuel Hst.
    destruct fuel as [| fuel]; [lia|].
    rewrite (parse_expr_digit fuel f d i_is_iota Hd).
    destruct (parse_digits_spec ds (S fuel) f d cI TI c f' s Hds Hc Hseq
                Hfuel Hst eq_refl) as (r & s' & E & _ & Hfr & Hr).
    exists r, s'. split; [exact E|]. split; [exact Hr | exact Hfr]. }
  split; [exact Hgen|].
  destruct (Hgen StringStream _ 2%nat (mkStringStream "01" 1) (chr "0"%char)
              [chr "1"%char] EOF (mkStringStream "01" 2) false
              (initial_state []))
    as (r & s' & E & Hr & _).
  - reflexivity.
  - repeat constructor.
  - reflexivity.
  - reflexivity.
  - simpl. lia.
  - vm_compute. reflexivity.
  - exists r, s'. split; [exact E | exact Hr].
Qed.

Lemma C7_church_literal_witness :
  exists r s',
    parse_expr 3 (mkStringStream "110)" 1) (chr "1"%char) true
      (initial_state [])
    = Ret (r, mkStringStream "110)" 3) s' /\
    repr (next_alloc s') (mem s') r
      (TApp (TApp (TApp TS (TApp TK (TApp TS (TApp TK TI)))) TS) TK).
Proof.
  destruct (proj1 C7_church_literal StringStream _ 3%nat
              (mkStringStream "110)" 1) (chr "1"%char)
              [chr "1"%char; chr "0"%char] (chr ")"%char)
              (mkStringStream "110)" 4) true (initial_state []))
    as (r & s' & E & Hr & _).
  - reflexivity.
  - repeat constructor.
  - reflexivity.
  - reflexivity.
  - simpl. lia.
  - vm_compute. reflexivity.
  - exists r, s'. split; [exact E | exact Hr].
Defined.

(** ** The collector (C5) *)







Section Collector.
(** One collection: the bounds of from-space and to-space, the allocation
    pointer and the root stack top it starts from. *)
Variables fs fe ts te N0 top : Z.

(** The arenas lie above the static atoms, do not overlap, and to-space is
    at least as large as from-space. *)
Hypothesis layout :
  12 < fs /\ fs <= N0 <= fe /\ 12 < ts /\ (fe <= ts \/ te <= fs) /\
  fe - fs <= te - ts.





















Lemma read_root_run s i p :
  roots s !! i = Some p -> read_root (Z.of_nat i) s = Ret p s.
Proof.
  intros Hp. unfold read_root. destruct (Z.ltb_spec (Z.of_nat i) 0); [lia|].
  rewrite Nat2Z.id, Hp. reflexivity.
Qed.

Lemma write_root_run s i p v :
  roots s !! i = Some p ->
  write_root (Z.of_nat i) v s = Ret tt (with_roots (<[i := v]> (roots s)) s).
Proof.
  intros Hp. unfold write_root. destruct (Z.ltb_spec (Z.of_nat i) 0); [lia|].
  rewrite Nat2Z.id, Hp. reflexivity.
Qed.

Lemma read_char_run s i p :
  cached_church_chars s !! i = Some p -> read_char (Z.of_nat i) s = Ret p s.
Proof.
  intros Hp. unfold read_char. destruct (Z.ltb_spec (Z.of_nat i) 0); [lia|].
  rewrite Nat2Z.id, Hp. reflexivity.
Qed.

Lemma write_char_run s i p v :
  cached_church_chars s !! i = Some p ->
  write_char (Z.of_nat i) v s
  = Ret tt (with_cached_church_chars (<[i := v]> (cached_church_chars s)) s).
Proof.
  intros Hp. unfold write_char. destruct (Z.ltb_spec (Z.of_nat i) 0); [lia|].
  rewrite Nat2Z.id, Hp. reflexivity.
Qed.




End Collector.












(** ** The Church character cache decodes to its index (C8) *)

(** *** Memory as a few named cells over a frame *)

(** [overlay addrs cells m0]: the memory [m0] with the first cells of the
    list stored at the corresponding addresses. *)
Fixpoint overlay (addrs : list Z) (cells : list Expr) (m0 : gmap Z Expr)
  : gmap Z Expr :=
  match addrs, cells with
  | a :: addrs', c :: cells' => <[a := c]> (overlay addrs' cells' m0)
  | _, _ => m0
  end.

Lemma overlay_nil_r addrs m0 : overlay addrs [] m0 = m0.
Proof. destruct addrs; reflexivity. Qed.

Lemma overlay_frame addrs cells m0 q :
  q ∉ addrs -> overlay addrs cells m0 !! q = m0 !! q.
Proof.
  revert cells. induction addrs as [| a addrs IH]; intros cells Hq;
    [reflexivity|].
  destruct cells as [| c cells]; [reflexivity|]. simpl.
  apply not_elem_of_cons in Hq as [Hne Hq].
  rewrite lookup_insert_ne by congruence. apply IH. exact Hq.
Qed.

Lemma overlay_lookup addrs cells m0 j a c :
  NoDup addrs -> addrs !! j = Some a -> cells !! j = Some c ->
  overlay addrs cells m0 !! a = Some c.
Proof.
  revert cells j. induction addrs as [| a0 addrs IH]; intros cells j Hnd Ha Hc;
    [discriminate|].
  destruct cells as [| c0 cells]; [discriminate|].
  apply NoDup_cons in Hnd as [Hni Hnd]. destruct j as [| j]; simpl in *.
  - injection Ha as <-. injection Hc as <-. apply lookup_insert_eq.
  - rewrite lookup_insert_ne.
    + eapply IH; eassumption.
    + intros <-. apply Hni. eapply list_elem_of_lookup_2. exact Ha.
Qed.

Lemma overlay_update addrs cells m0 j a c :
  NoDup addrs -> addrs !! j = Some a -> (j < length cells)%nat ->
  <[a := c]> (overlay addrs cells m0) = overlay addrs (<[j := c]> cells) m0.
Proof.
  revert cells j. induction addrs as [| a0 addrs IH]; intros cells j Hnd Ha Hj;
    [discriminate|].
  destruct cells as [| c0 cells]; [simpl in Hj; lia|].
  apply NoDup_cons in Hnd as [Hni Hnd]. destruct j as [| j]; simpl in *.
  - injection Ha as <-. apply insert_insert_eq.
  - rewrite insert_insert_ne.
    + f_equal. apply IH; [exact Hnd | exact Ha | lia].
    + intros <-. apply Hni. eapply list_elem_of_lookup_2. exact Ha.
Qed.

Lemma overlay_alloc addrs cells m0 a c :
  NoDup addrs -> addrs !! length cells = Some a ->
  <[a := c]> (overlay addrs cells m0) = overlay addrs (cells ++ [c]) m0.
Proof.
  revert cells. induction addrs as [| a0 addrs IH]; intros cells Hnd Ha;
    [discriminate|].
  apply NoDup_cons in Hnd as [Hni Hnd].
  destruct cells as [| c0 cells]; simpl in *.
  - injection Ha as <-. rewrite overlay_nil_r. reflexivity.
  - rewrite insert_insert_ne.
    + f_equal. apply IH; assumption.
    + intros <-. apply Hni. eapply list_elem_of_lookup_2. exact Ha.
Qed.

Lemma overlay_S2 addrs cells m0 j e k k1 c x y :
  NoDup addrs -> addrs !! j = Some e -> (j < length cells)%nat ->
  addrs !! length cells = Some k -> addrs !! S (length cells) = Some k1 ->
  <[e := c]> (<[k1 := y]> (<[k := x]> (overlay addrs cells m0)))
  = overlay addrs (<[j := c]> (cells ++ [x; y])) m0.
Proof.
  intros Hnd Hj Hlt Hk Hk1.
  rewrite (overlay_alloc addrs cells _ k _ Hnd Hk).
  rewrite (overlay_alloc addrs (cells ++ [x]) _ k1 _ Hnd).
  - rewrite (overlay_update addrs _ _ j e _ Hnd Hj).
    + rewrite <- app_assoc. reflexivity.
    + rewrite !length_app. simpl. lia.
  - rewrite length_app. simpl.
    replace (length cells + 1)%nat with (S (length cells)) by lia.
    exact Hk1.
Qed.

Section Named.
(** The named addresses and the state that supplies everything but memory
    and the allocation pointer. *)
Variables (addrs : list Z) (base : state).
Hypothesis addrs_nodup : NoDup addrs.

Definition st (cells : list Expr) (k : Z) : state :=
  with_mem (fun _ => overlay addrs cells (mem base)) (with_next_alloc k base).

Lemma st_lookup cells k j a c :
  addrs !! j = Some a -> cells !! j = Some c ->
  mem (st cells k) !! a = Some c.
Proof. intros Ha Hc. simpl. eapply overlay_lookup; eassumption. Qed.

Lemma st_lookup_frame cells k q c :
  q ∉ addrs -> mem base !! q = Some c -> mem (st cells k) !! q = Some c.
Proof. intros Hq Hc. simpl. rewrite overlay_frame by exact Hq. exact Hc. Qed.

Lemma st_insert cells k j a c :
  addrs !! j = Some a -> (j < length cells)%nat ->
  with_mem (insert a c) (st cells k) = st (<[j := c]> cells) k.
Proof.
  intros Ha Hj. unfold st, with_mem. simpl. f_equal.
  apply overlay_update; assumption.
Qed.

Lemma update_st cells k j a c f :
  addrs !! j = Some a -> cells !! j = Some c ->
  update a f (st cells k) = Ret tt (st (<[j := f c]> cells) k).
Proof.
  intros Ha Hc. rewrite (update_Some a f _ c (st_lookup _ _ _ _ _ Ha Hc)).
  rewrite (st_insert cells k j a (f c) Ha); [reflexivity|].
  eapply lookup_lt_Some. exact Hc.
Qed.

Lemma new_Expr_st cells k k' t x y :
  addrs !! length cells = Some k -> k' = k + 1 ->
  new_Expr t x y (st cells k) = Ret k (st (cells ++ [Expr_ctor t x y]) k').
Proof.
  intros Ha ->. rewrite new_Expr_run. f_equal.
  unfold st, with_mem, with_next_alloc. simpl. f_equal.
  apply overlay_alloc; assumption.
Qed.

Lemma check_rooted_st fuel cells k e prev :
  k + 2 < from_space_end base ->
  check_rooted fuel 2 e prev (st cells k) = Ret (e, prev) (st cells k).
Proof.
  intros Hk. apply check_rooted_enough. unfold is_exhausted. simpl.
  apply Z.leb_gt. exact Hk.
Qed.
End Named.

(** *** Steps of the reducer on cells whose contents are known *)

Lemma drop_i1_id fuel a s c :
  mem s !! a = Some c -> type c <> Tag.I1 -> drop_i1 fuel a s = Ret a s.
Proof.
  intros Hc Ht. unfold drop_i1. rewrite (bind_Ret _ _ _ _ _ (load_Some _ _ _ Hc)).
  destruct (decide (type c = Tag.I1)); [contradiction | reflexivity].
Qed.

Lemma descend_stop fuel0 fuel prev cur s c :
  mem s !! cur = Some c -> type c <> Tag.A ->
  descend fuel0 (S fuel) prev cur s = Ret (prev, cur) s.
Proof.
  intros Hc Ht. cbn [descend]. rewrite (bind_Ret _ _ _ _ _ (load_Some _ _ _ Hc)).
  destruct (decide (type c = Tag.A)); [contradiction | reflexivity].
Qed.

Lemma descend_A fuel0 fuel prev cur s c c1 :
  mem s !! cur = Some c -> type c = Tag.A ->
  mem s !! arg1 c = Some c1 -> type c1 <> Tag.I1 ->
  descend fuel0 (S fuel) prev cur s
  = descend fuel0 fuel cur (arg1 c) (with_mem (insert cur (set_arg1 prev c)) s).
Proof.
  intros Hc Ht Hc1 Ht1. cbn [descend].
  rewrite (bind_Ret _ _ _ _ _ (load_Some _ _ _ Hc)).
  destruct (decide (type c = Tag.A)); [|contradiction].
  rewrite (bind_Ret _ _ _ _ _ (drop_i1_id fuel0 _ _ _ Hc1 Ht1)).
  rewrite (bind_Ret _ _ _ _ _ (update_Some _ _ _ _ Hc)). reflexivity.
Qed.

(** One turn of the reducer's loop from a cell that is not an [I1]: walk
    down, then, unless the walk started at the top with nothing to unwind,
    restore the innermost application and rewrite it. *)
Lemma partial_eval_loop_turn pe fuel0 fuel prev cur s c prev1 cur1 s1 c1 :
  mem s !! cur = Some c -> type c <> Tag.I1 ->
  descend fuel0 fuel0 prev cur s = Ret (prev1, cur1) s1 ->
  prev1 <> 0 ->
  mem s1 !! prev1 = Some c1 ->
  partial_eval_loop pe fuel0 (S fuel) prev cur s
  = ('(cur2, prev2) ← partial_eval_primitive_application pe fuel0 prev1
                        (arg1 c1);
     partial_eval_loop pe fuel0 fuel prev2 cur2)
      (with_mem (insert prev1 (set_arg1 cur1 c1)) s1).
Proof.
  intros Hc Ht Hd Hp Hc1. cbn [partial_eval_loop].
  rewrite (bind_Ret _ _ _ _ _ (drop_i1_id fuel0 _ _ _ Hc Ht)).
  rewrite (bind_Ret _ _ _ _ _ Hd).
  destruct (Z.eqb_spec prev1 0); [contradiction|].
  rewrite (bind_Ret _ _ _ _ _ (load_Some _ _ _ Hc1)).
  rewrite (bind_Ret _ _ _ _ _ (update_Some _ _ _ _ Hc1)). reflexivity.
Qed.

Lemma partial_eval_loop_done pe fuel0 fuel cur s c :
  mem s !! cur = Some c -> type c <> Tag.I1 -> type c <> Tag.A ->
  partial_eval_loop pe (S fuel0) (S fuel) 0 cur s = Ret cur s.
Proof.
  intros Hc Hi Ha. cbn [partial_eval_loop].
  rewrite (bind_Ret _ _ _ _ _ (drop_i1_id _ _ _ _ Hc Hi)).
  rewrite (bind_Ret _ _ _ _ _ (descend_stop _ _ _ _ _ _ Hc Ha)).
  reflexivity.
Qed.

Lemma insert_again e (c1 c2 : Expr) s :
  with_mem (insert e c2) (with_mem (insert e c1) s) = with_mem (insert e c2) s.
Proof. unfold with_mem. simpl. f_equal. apply insert_insert_eq. Qed.

(** Three stores into the fields of one cell amount to one store of the
    final cell. *)
Lemma update_thrice {X} e f1 f2 f3 (k : M X) s c :
  mem s !! e = Some c ->
  (update e f1;; update e f2;; update e f3;; k) s
  = k (with_mem (insert e (f3 (f2 (f1 c)))) s).
Proof.
  intros Hc.
  rewrite (bind_Ret _ _ _ _ _ (update_Some _ _ _ _ Hc)).
  erewrite (bind_Ret _ _ _ _ _ (update_Some e f2 _ (f1 c) _)).
  erewrite (bind_Ret _ _ _ _ _ (update_Some e f3 _ (f2 (f1 c)) _)).
  rewrite !insert_again. reflexivity.
  Unshelve. all: simpl; apply lookup_insert_eq.
Qed.

Section PrimitiveRewrites.
Variables (pe : Z -> M Z) (fuel : nat) (e prev : Z) (s : state) (c l : Expr).
Hypothesis He : mem s !! e = Some c.
Hypothesis Hl : mem s !! arg1 c = Some l.

Lemma rewrite_I :
  type l = Tag.I ->
  partial_eval_primitive_application pe fuel e prev s
  = Ret (arg2 c, prev)
      (with_mem (insert e (mkExpr (forward c) (arg2 c) 0 Tag.I1)) s).
Proof.
  intros Ht. unfold partial_eval_primitive_application.
  rewrite (bind_Ret _ _ _ _ _ (load_Some _ _ _ He)).
  rewrite (bind_Ret _ _ _ _ _ (load_Some _ _ _ Hl)). rewrite Ht.
  rewrite (update_thrice _ _ _ _ _ _ _ He). reflexivity.
Qed.

Lemma rewrite_K :
  type l = Tag.K ->
  partial_eval_primitive_application pe fuel e prev s
  = Ret (e, prev)
      (with_mem (insert e (mkExpr (forward c) (arg2 c) 0 Tag.K1)) s).
Proof.
  intros Ht. unfold partial_eval_primitive_application.
  rewrite (bind_Ret _ _ _ _ _ (load_Some _ _ _ He)).
  rewrite (bind_Ret _ _ _ _ _ (load_Some _ _ _ Hl)). rewrite Ht.
  rewrite (update_thrice _ _ _ _ _ _ _ He). reflexivity.
Qed.

Lemma rewrite_S :
  type l = Tag.S ->
  partial_eval_primitive_application pe fuel e prev s
  = Ret (e, prev)
      (with_mem (insert e (mkExpr (forward c) (arg2 c) 0 Tag.S1)) s).
Proof.
  intros Ht. unfold partial_eval_primitive_application.
  rewrite (bind_Ret _ _ _ _ _ (load_Some _ _ _ He)).
  rewrite (bind_Ret _ _ _ _ _ (load_Some _ _ _ Hl)). rewrite Ht.
  rewrite (update_thrice _ _ _ _ _ _ _ He). reflexivity.
Qed.

Hypothesis Hne : arg1 c <> e.

Lemma rewrite_K1 :
  type l = Tag.K1 ->
  partial_eval_primitive_application pe fuel e prev s
  = Ret (arg1 l, prev)
      (with_mem (insert e (mkExpr (forward c) (arg1 l) 0 Tag.I1)) s).
Proof.
  intros Ht. unfold partial_eval_primitive_application.
  rewrite (bind_Ret _ _ _ _ _ (load_Some _ _ _ He)).
  rewrite (bind_Ret _ _ _ _ _ (load_Some _ _ _ Hl)). rewrite Ht.
  rewrite (bind_Ret _ _ _ _ _ (update_Some _ _ _ _ He)).
  assert (Hl1 : forall c', mem (with_mem (insert e c') s) !! arg1 c = Some l).
  { intros c'. simpl. rewrite lookup_insert_ne by congruence. exact Hl. }
  rewrite (bind_Ret _ _ _ _ _ (load_Some _ _ _ (Hl1 _))).
  erewrite (bind_Ret _ _ _ _ _ (update_Some e _ _ (set_type Tag.I1 c) _)).
  erewrite (bind_Ret _ _ _ _ _ (update_Some e _ _
              (set_arg1 (arg1 l) (set_type Tag.I1 c)) _)).
  rewrite !insert_again.
  rewrite (bind_Ret _ _ _ _ _ (load_Some _ _ _ (Hl1 _))). reflexivity.
  Unshelve. all: simpl; apply lookup_insert_eq.
Qed.

Lemma rewrite_S1 :
  type l = Tag.S1 ->
  partial_eval_primitive_application pe fuel e prev s
  = Ret (e, prev)
      (with_mem (insert e (mkExpr (forward c) (arg1 l) (arg2 c) Tag.S2)) s).
Proof.
  intros Ht. unfold partial_eval_primitive_application.
  rewrite (bind_Ret _ _ _ _ _ (load_Some _ _ _ He)).
  rewrite (bind_Ret _ _ _ _ _ (load_Some _ _ _ Hl)). rewrite Ht.
  rewrite (bind_Ret _ _ _ _ _ (update_Some _ _ _ _ He)).
  assert (Hl1 : forall c', mem (with_mem (insert e c') s) !! arg1 c = Some l).
  { intros c'. simpl. rewrite lookup_insert_ne by congruence. exact Hl. }
  rewrite (bind_Ret _ _ _ _ _ (load_Some _ _ _ (Hl1 _))).
  erewrite (bind_Ret _ _ _ _ _ (update_Some e _ _ (set_type Tag.S2 c) _)).
  erewrite (bind_Ret _ _ _ _ _ (update_Some e _ _
              (set_arg1 (arg1 l) (set_type Tag.S2 c)) _)).
  rewrite !insert_again. reflexivity.
  Unshelve. all: simpl; apply lookup_insert_eq.
Qed.

(** The [S2] rewrite when no collection is needed. *)
Lemma rewrite_S2 :
  type l = Tag.S2 ->
  is_exhausted s 2 = false ->
  e <> next_alloc s -> e <> next_alloc s + 1 -> arg1 c <> next_alloc s ->
  partial_eval_primitive_application pe fuel e prev s
  = Ret (e, prev)
      (with_mem
         (insert e (mkExpr (forward c) (next_alloc s) (next_alloc s + 1)
                      (type c)))
         (with_mem (insert (next_alloc s + 1)
                      (Expr_ctor Tag.A (arg2 l) (arg2 c)))
            (with_next_alloc (next_alloc s + 1 + 1)
               (with_mem (insert (next_alloc s)
                            (Expr_ctor Tag.A (arg1 l) (arg2 c)))
                  s)))).
Proof.
  intros Ht Hex Hn0 Hn1 Hln. unfold partial_eval_primitive_application.
  rewrite (bind_Ret _ _ _ _ _ (load_Some _ _ _ He)).
  rewrite (bind_Ret _ _ _ _ _ (load_Some _ _ _ Hl)). rewrite Ht.
  unfold case_S2.
  rewrite (bind_Ret _ _ _ _ _ (check_rooted_enough fuel 2 e prev s Hex)).
  rewrite (bind_Ret _ _ _ _ _ (load_Some _ _ _ He)).
  rewrite (bind_Ret _ _ _ _ _ (load_Some _ _ _ Hl)).
  unfold partial_apply.
  rewrite (bind_Ret _ _ _ _ _ (new_Expr_run _ _ _ _)).
  erewrite (bind_Ret _ _ _ _ _ (update_Some e _ _ c _)).
  erewrite (bind_Ret _ _ _ _ _ (load_Some (arg1 c) _ l _)).
  rewrite (bind_Ret _ _ _ _ _ (new_Expr_run _ _ _ _)).
  erewrite (bind_Ret _ _ _ _ _ (update_Some e _ _ (set_arg1 (next_alloc s) c) _)).
  cbn [mret M_ret ret]. f_equal.
  unfold with_mem, with_next_alloc. simpl. f_equal.
  apply map_eq. intros q. rewrite !lookup_insert.
  repeat case_decide; subst; try reflexivity; congruence.
  Unshelve.
  - simpl. rewrite lookup_insert_ne by congruence. exact He.
  - simpl. rewrite lookup_insert_ne by congruence.
    rewrite lookup_insert_ne by congruence. exact Hl.
  - simpl. rewrite lookup_insert_ne by congruence. apply lookup_insert_eq.
Qed.
End PrimitiveRewrites.

(** The [Inc] rewrite around a call of the reducer that comes back with the
    two pushed roots in place. *)
Lemma root_run e s (top : nat) x :
  root_stack_top s = Z.of_nat top -> roots s !! top = Some x ->
  root e s
  = Ret tt (with_root_stack_top (Z.of_nat (S top))
              (with_roots (<[top := e]> (roots s)) s)).
Proof.
  intros Htop Hx. unfold root. rewrite bind_unfold. cbn [get].
  rewrite Htop. rewrite (bind_Ret _ _ _ _ _ (write_root_run _ _ _ _ Hx)).
  unfold modify. do 2 f_equal. lia.
Qed.

Lemma unroot_run s (top : nat) x :
  root_stack_top s = Z.of_nat (S top) -> roots s !! top = Some x ->
  unroot s = Ret x (with_root_stack_top (Z.of_nat top) s).
Proof.
  intros Htop Hx. unfold unroot. rewrite bind_unfold. cbn [get].
  rewrite Htop. replace (Z.of_nat (S top) - 1) with (Z.of_nat top) by lia.
  rewrite bind_unfold. unfold modify.
  apply read_root_run. exact Hx.
Qed.

Lemma rewrite_Inc pe fuel e prev s c l (top : nat) x y r s3 c3 rc :
  mem s !! e = Some c -> mem s !! arg1 c = Some l -> type l = Tag.Inc ->
  root_stack_top s = Z.of_nat top ->
  roots s !! top = Some x -> roots s !! S top = Some y ->
  pe (arg2 c)
     (with_root_stack_top (Z.of_nat (S (S top)))
        (with_roots (<[S top := prev]> (<[top := e]> (roots s))) s))
  = Ret r s3 ->
  root_stack_top s3 = Z.of_nat (S (S top)) ->
  roots s3 !! top = Some e -> roots s3 !! S top = Some prev ->
  mem s3 !! e = Some c3 ->
  mem s3 !! r = Some rc -> r <> e ->
  wrap_int (wrap_int (to_number rc + 1)) <> 0 ->
  partial_eval_primitive_application pe fuel e prev s
  = Ret (e, prev)
      (with_mem
         (insert e (mkExpr (forward c3) (wrap_int (to_number rc + 1)) 0
                      Tag.Num))
         (with_root_stack_top (Z.of_nat top) s3)).
Proof.
  intros He Hl Ht Htop Hx Hy Hpe Htop3 Hr0 Hr1 He3 Hrc Hne Hnz.
  unfold partial_eval_primitive_application.
  rewrite (bind_Ret _ _ _ _ _ (load_Some _ _ _ He)).
  rewrite (bind_Ret _ _ _ _ _ (load_Some _ _ _ Hl)). rewrite Ht.
  rewrite (bind_Ret _ _ _ _ _ (root_run e s top x Htop Hx)).
  erewrite (bind_Ret _ _ _ _ _ (root_run prev _ (S top) y _ _)).
  cbn [roots with_root_stack_top with_roots].
  rewrite (bind_Ret _ _ _ _ _ Hpe).
  rewrite (bind_Ret _ _ _ _ _ (unroot_run s3 (S top) prev Htop3 Hr1)).
  erewrite (bind_Ret _ _ _ _ _ (unroot_run _ top e _ _)).
  erewrite (bind_Ret _ _ _ _ _ (update_Some e _ _ c3 _)).
  erewrite (bind_Ret _ _ _ _ _ (load_Some r _ rc _)).
  erewrite (bind_Ret _ _ _ _ _ (update_Some e _ _ (set_type Tag.Num c3) _)).
  erewrite (bind_Ret _ _ _ _ _
              (load_Some e _ (set_arg1 (wrap_int (to_number rc + 1))
                                (set_type Tag.Num c3)) _)).
  unfold numeric_arg1. cbn [arg1 set_arg1 set_type].
  destruct (Z.eqb_spec (wrap_int (wrap_int (to_number rc + 1))) 0);
    [contradiction|].
  erewrite (bind_Ret _ _ _ _ _
              (update_Some e _ _ (set_arg1 (wrap_int (to_number rc + 1))
                                    (set_type Tag.Num c3)) _)).
  rewrite !insert_again. reflexivity.
  Unshelve.
  all: try (simpl; apply lookup_insert_eq).
  all: try reflexivity.
  all: simpl.
  all: try (rewrite lookup_insert_ne by congruence).
  all: try assumption.
  rewrite list_lookup_insert_ne by lia. exact Hy.
Qed.

Section NamedRewrites.
Variables (addrs : list Z) (base : state).
Hypothesis addrs_nodup : NoDup addrs.
Variables (pe : Z -> M Z) (fuel : nat) (prev : Z).
Variables (cells : list Expr) (k : Z) (j : nat) (e : Z) (c l : Expr).
Hypothesis Hj : addrs !! j = Some e.
Hypothesis Hc : cells !! j = Some c.
Hypothesis Hl : mem (st addrs base cells k) !! arg1 c = Some l.

Let He := st_lookup addrs base addrs_nodup cells k j e c Hj Hc.
Let Hlt := lookup_lt_Some _ _ _ Hc.

Lemma rewrite_I_st :
  type l = Tag.I ->
  partial_eval_primitive_application pe fuel e prev (st addrs base cells k)
  = Ret (arg2 c, prev)
      (st addrs base (<[j := mkExpr (forward c) (arg2 c) 0 Tag.I1]> cells) k).
Proof.
  intros Ht. rewrite (rewrite_I pe fuel e prev _ c l He Hl Ht).
  rewrite (st_insert addrs base addrs_nodup cells k j e _ Hj Hlt). reflexivity.
Qed.

Lemma rewrite_K_st :
  type l = Tag.K ->
  partial_eval_primitive_application pe fuel e prev (st addrs base cells k)
  = Ret (e, prev)
      (st addrs base (<[j := mkExpr (forward c) (arg2 c) 0 Tag.K1]> cells) k).
Proof.
  intros Ht. rewrite (rewrite_K pe fuel e prev _ c l He Hl Ht).
  rewrite (st_insert addrs base addrs_nodup cells k j e _ Hj Hlt). reflexivity.
Qed.

Lemma rewrite_S_st :
  type l = Tag.S ->
  partial_eval_primitive_application pe fuel e prev (st addrs base cells k)
  = Ret (e, prev)
      (st addrs base (<[j := mkExpr (forward c) (arg2 c) 0 Tag.S1]> cells) k).
Proof.
  intros Ht. rewrite (rewrite_S pe fuel e prev _ c l He Hl Ht).
  rewrite (st_insert addrs base addrs_nodup cells k j e _ Hj Hlt). reflexivity.
Qed.

Lemma rewrite_K1_st :
  type l = Tag.K1 -> arg1 c <> e ->
  partial_eval_primitive_application pe fuel e prev (st addrs base cells k)
  = Ret (arg1 l, prev)
      (st addrs base (<[j := mkExpr (forward c) (arg1 l) 0 Tag.I1]> cells) k).
Proof.
  intros Ht Hne. rewrite (rewrite_K1 pe fuel e prev _ c l He Hl Hne Ht).
  rewrite (st_insert addrs base addrs_nodup cells k j e _ Hj Hlt). reflexivity.
Qed.

Lemma rewrite_S1_st :
  type l = Tag.S1 -> arg1 c <> e ->
  partial_eval_primitive_application pe fuel e prev (st addrs base cells k)
  = Ret (e, prev)
      (st addrs base
         (<[j := mkExpr (forward c) (arg1 l) (arg2 c) Tag.S2]> cells) k).
Proof.
  intros Ht Hne. rewrite (rewrite_S1 pe fuel e prev _ c l He Hl Hne Ht).
  rewrite (st_insert addrs base addrs_nodup cells k j e _ Hj Hlt). reflexivity.
Qed.

Lemma rewrite_S2_st k1 k2 :
  type l = Tag.S2 -> arg1 c <> e -> arg1 c <> k ->
  addrs !! length cells = Some k ->
  addrs !! S (length cells) = Some k1 ->
  addrs !! S (S (length cells)) = Some k2 ->
  k1 = k + 1 -> k2 = k1 + 1 ->
  k2 < from_space_end base ->
  partial_eval_primitive_application pe fuel e prev (st addrs base cells k)
  = Ret (e, prev)
      (st addrs base
         (<[j := mkExpr (forward c) k k1 (type c)]>
            (cells ++ [Expr_ctor Tag.A (arg1 l) (arg2 c);
                       Expr_ctor Tag.A (arg2 l) (arg2 c)])) k2).
Proof.
  intros Ht Hne Hnk Hk Hk1 _ -> -> Hroom.
  assert (Hek : e <> k).
  { intros Heq. pose proof Hj as Hj'. rewrite Heq in Hj'.
    pose proof (NoDup_lookup _ _ _ _ addrs_nodup Hj' Hk). lia. }
  assert (Hek1 : e <> k + 1).
  { intros Heq. pose proof Hj as Hj'. rewrite Heq in Hj'.
    pose proof (NoDup_lookup _ _ _ _ addrs_nodup Hj' Hk1). lia. }
  rewrite (rewrite_S2 pe fuel e prev _ c l He Hl Hne Ht).
  - f_equal. unfold st, with_mem, with_next_alloc.
    cbn [mem next_alloc from_space_start from_space_end to_space_start
         to_space_end work_stack roots root_stack_top cached_church_chars
         stdin_ stdout_ stderr_].
    f_equal.
    apply (overlay_S2 addrs cells (mem base) j e k (k + 1)); try assumption.
  - unfold is_exhausted. simpl. apply Z.leb_gt. lia.
  - exact Hek.
  - exact Hek1.
  - exact Hnk.
Qed.
End NamedRewrites.

(** *** Decoding a Church numeral of the cache *)

(** [church_chain lim m n p]: in memory [m] the pointer [p] is the cache's
    numeral [n]: [KI] for 0, [I] for 1, and for larger [n] an arena cell
    below [lim] holding [S2(SKSK, p')] with [p'] the numeral [n - 1]. *)
Fixpoint church_chain (lim : Z) (m : gmap Z Expr) (n : nat) (p : Z) : Prop :=
  match n with
  | O => p = KI
  | S O => p = cI
  | S (S _ as n') =>
      12 < p < lim /\
      exists p', m !! p = Some (Expr_ctor Tag.S2 SKSK p') /\
                 church_chain lim m n' p'
  end.

Lemma church_chain_frame lim lim' m m' n p :
  lim <= lim' ->
  (forall q c, 12 < q < lim -> m !! q = Some c -> type c = Tag.S2 ->
               m' !! q = Some c) ->
  church_chain lim m n p -> church_chain lim' m' n p.
Proof.
  intros Hle Hfr. revert p. induction n as [| [| n] IH]; intros p; simpl;
    try (intros ->; reflexivity).
  intros (Hp & p' & Hc & Hch). split; [lia|]. exists p'.
  split; [apply Hfr; [exact Hp | exact Hc | reflexivity]|].
  apply IH. exact Hch.
Qed.

Lemma static_lookup m a c :
  static_mem ⊆ m -> static_mem !! a = Some c -> m !! a = Some c.
Proof. intros Hsub Ha. eapply lookup_weaken; eassumption. Qed.

Ltac not_in_list :=
  repeat (apply not_elem_of_cons; split;
          [unfold cK, cS, cI, KI, KS, SKSK, cInc, cZero; lia|]);
  apply not_elem_of_nil.

Section Level.
Variables (s : state) (e0 e1 p N : Z).
Hypothesis Hstatic : static_mem ⊆ mem s.
Hypothesis HN : next_alloc s = N.
Hypothesis Hb0 : 12 < e0 < N.
Hypothesis Hb1 : 12 < e1 < N.
Hypothesis H01 : e0 <> e1.
Hypothesis He0 : mem s !! e0 = Some (Expr_ctor Tag.A e1 cZero).
Hypothesis He1 : mem s !! e1 = Some (Expr_ctor Tag.A p cInc).

Definition level_addrs : list Z :=
  [e0; e1; N; N + 1; N + 2; N + 3; N + 4; N + 5; N + 6].

Lemma level_addrs_nodup : NoDup level_addrs.
Proof.
  unfold level_addrs.
  repeat (apply NoDup_cons; split; [not_in_list|]). apply NoDup_nil. exact I.
Qed.

Lemma level_start :
  s = st level_addrs s [Expr_ctor Tag.A e1 cZero; Expr_ctor Tag.A p cInc] N.
Proof.
  unfold st. destruct s as [m a b c d n w r t cc i o er]. simpl in *.
  subst n. unfold with_mem, with_next_alloc. simpl. f_equal.
  rewrite (insert_id _ e1) by exact He1. rewrite insert_id by exact He0.
  reflexivity.
Qed.

(** The static atoms the decoding meets. *)
Lemma level_statics :
  mem s !! cK = Some (Expr_ctor Tag.K 0 0) /\
  mem s !! cS = Some (Expr_ctor Tag.S 0 0) /\
  mem s !! cI = Some (Expr_ctor Tag.I 0 0) /\
  mem s !! KI = Some (Expr_ctor Tag.K1 cI 0) /\
  mem s !! KS = Some (Expr_ctor Tag.K1 cS 0) /\
  mem s !! SKSK = Some (Expr_ctor Tag.S2 KS cK) /\
  mem s !! cInc = Some (Expr_ctor Tag.Inc 0 0) /\
  mem s !! cZero = Some (Expr_ctor Tag.Num 0 0).
Proof. repeat split; apply (static_lookup _ _ _ Hstatic); reflexivity. Qed.

Ltac norm :=
  unfold set_arg1, set_arg2, set_type, set_forward, Expr_ctor;
  cbn [arg1 arg2 type forward insert list_insert app length].

Ltac st_cell :=
  norm;
  first
    [ apply (st_lookup _ _ level_addrs_nodup _ _ 0%nat); reflexivity
    | apply (st_lookup _ _ level_addrs_nodup _ _ 1%nat); reflexivity
    | apply (st_lookup _ _ level_addrs_nodup _ _ 2%nat); reflexivity
    | apply (st_lookup _ _ level_addrs_nodup _ _ 3%nat); reflexivity
    | apply (st_lookup _ _ level_addrs_nodup _ _ 4%nat); reflexivity
    | apply (st_lookup _ _ level_addrs_nodup _ _ 5%nat); reflexivity
    | apply (st_lookup _ _ level_addrs_nodup _ _ 6%nat); reflexivity
    | apply (st_lookup _ _ level_addrs_nodup _ _ 7%nat); reflexivity
    | apply st_lookup_frame; [not_in_list | eassumption] ].

Ltac st_side := reflexivity || (simpl; lia).

Ltac st_fold :=
  first
    [ rewrite (st_insert _ _ level_addrs_nodup _ _ 0%nat) by st_side
    | rewrite (st_insert _ _ level_addrs_nodup _ _ 1%nat) by st_side
    | rewrite (st_insert _ _ level_addrs_nodup _ _ 2%nat) by st_side
    | rewrite (st_insert _ _ level_addrs_nodup _ _ 3%nat) by st_side
    | rewrite (st_insert _ _ level_addrs_nodup _ _ 4%nat) by st_side
    | rewrite (st_insert _ _ level_addrs_nodup _ _ 5%nat) by st_side
    | rewrite (st_insert _ _ level_addrs_nodup _ _ 6%nat) by st_side
    | rewrite (st_insert _ _ level_addrs_nodup _ _ 7%nat) by st_side ];
  cbn [insert list_insert].

Hypothesis Hroom : N + 6 < from_space_end s.

Ltac solve_ne :=
  norm; unfold cK, cS, cI, KI, KS, SKSK, cInc, cZero in *; lia.

Ltac descend_step :=
  etransitivity;
  [ eapply descend_A; [st_cell | reflexivity | st_cell | discriminate]
  | norm; st_fold; norm ].

Ltac descend_all :=
  repeat descend_step; eapply descend_stop; [st_cell | discriminate].

(** One turn of the loop up to the call of the primitive rewrite. *)
Ltac turn :=
  etransitivity;
  [ eapply partial_eval_loop_turn;
    [ st_cell | discriminate | descend_all | solve_ne | st_cell ]
  | norm; st_fold; norm ].

Ltac rewrite_at idx :=
  first
    [ eapply rewrite_I_st with (addrs_nodup := level_addrs_nodup) (j := idx);
      [reflexivity | reflexivity | st_cell | reflexivity]
    | eapply rewrite_K_st with (addrs_nodup := level_addrs_nodup) (j := idx);
      [reflexivity | reflexivity | st_cell | reflexivity]
    | eapply rewrite_S_st with (addrs_nodup := level_addrs_nodup) (j := idx);
      [reflexivity | reflexivity | st_cell | reflexivity]
    | eapply rewrite_K1_st with (addrs_nodup := level_addrs_nodup) (j := idx);
      [reflexivity | reflexivity | st_cell | reflexivity | solve_ne]
    | eapply rewrite_S1_st with (addrs_nodup := level_addrs_nodup) (j := idx);
      [reflexivity | reflexivity | st_cell | reflexivity | solve_ne]
    | eapply rewrite_S2_st with (addrs_nodup := level_addrs_nodup) (j := idx);
      [ reflexivity | reflexivity | st_cell | reflexivity | solve_ne
      | solve_ne | reflexivity | reflexivity | reflexivity | lia | lia
      | lia ] ].

(** The primitive rewrite that ends a turn. *)
Ltac rewrite_step :=
  etransitivity;
  [ eapply bind_Ret;
    first [ rewrite_at 0%nat | rewrite_at 1%nat | rewrite_at 2%nat
          | rewrite_at 3%nat | rewrite_at 4%nat | rewrite_at 5%nat
          | rewrite_at 6%nat | rewrite_at 7%nat ]
  | cbv beta iota; norm ].

Lemma level_zero_st pe f0 f :
  p = KI ->
  partial_eval_loop pe (S (S (S (S f0)))) (S (S (S (S f)))) 0 e0
    (st level_addrs s [Expr_ctor Tag.A e1 cZero; Expr_ctor Tag.A p cInc] N)
  = Ret cZero
      (st level_addrs s
         [mkExpr 0 cZero 0 Tag.I1; mkExpr 0 cI 0 Tag.I1] N).
Proof.
  intros Hp.
  destruct level_statics
    as (HcK & HcS & HcI & HKI & HKS & HSKSK & HcInc & HcZero).
  rewrite Hp.
  turn. rewrite_step.
  turn. rewrite_step.
  eapply partial_eval_loop_done; [st_cell | discriminate | discriminate].
Qed.

Lemma level_zero pe f0 f :
  p = KI ->
  partial_eval_loop pe (S (S (S (S f0)))) (S (S (S (S f)))) 0 e0 s
  = Ret cZero
      (st level_addrs s
         [mkExpr 0 cZero 0 Tag.I1; mkExpr 0 cI 0 Tag.I1] N).
Proof.
  intros Hp. rewrite <- (level_zero_st pe f0 f Hp).
  f_equal. exact level_start.
Qed.

Lemma level_one_st pe f0 f :
  p = cI ->
  partial_eval_loop pe (S (S (S (S f0)))) (S (S (S (S f)))) 0 e0
    (st level_addrs s [Expr_ctor Tag.A e1 cZero; Expr_ctor Tag.A p cInc] N)
  = ('(cur2, prev2) ←
       partial_eval_primitive_application pe (S (S (S (S f0)))) e0 0;
     partial_eval_loop pe (S (S (S (S f0)))) (S (S f)) prev2 cur2)
      (st level_addrs s
         [mkExpr 0 cInc cZero Tag.A; mkExpr 0 cInc 0 Tag.I1] N).
Proof.
  intros Hp.
  destruct level_statics
    as (HcK & HcS & HcI & HKI & HKS & HSKSK & HcInc & HcZero).
  rewrite Hp.
  turn. rewrite_step.
  turn. reflexivity.
Qed.

Lemma level_one pe f0 f :
  p = cI ->
  partial_eval_loop pe (S (S (S (S f0)))) (S (S (S (S f)))) 0 e0 s
  = ('(cur2, prev2) ←
       partial_eval_primitive_application pe (S (S (S (S f0)))) e0 0;
     partial_eval_loop pe (S (S (S (S f0)))) (S (S f)) prev2 cur2)
      (st level_addrs s
         [mkExpr 0 cInc cZero Tag.A; mkExpr 0 cInc 0 Tag.I1] N).
Proof.
  intros Hp. rewrite <- (level_one_st pe f0 f Hp).
  f_equal. exact level_start.
Qed.

Variables (lim p' : Z).
Hypothesis Hlim : 12 < p < lim /\ lim <= e0 /\ lim <= e1.
Hypothesis Hp : mem s !! p = Some (Expr_ctor Tag.S2 SKSK p').

(** The cells of a level that decodes a numeral above 1, when the reducer
    reaches the application of [Inc]. *)
Definition level_cells : list Expr :=
  [ mkExpr 0 cInc (N + 5) Tag.A;
    mkExpr 0 (N + 3) (N + 1) Tag.S2;
    mkExpr 0 (N + 3) 0 Tag.S1;
    mkExpr 0 p' cInc Tag.A;
    mkExpr 0 cS 0 Tag.I1;
    mkExpr 0 cInc 0 Tag.K1;
    mkExpr 0 cInc 0 Tag.I1;
    mkExpr 0 (N + 1) cZero Tag.A ].

Lemma level_many_st pe f0 f :
  partial_eval_loop pe (S (S (S (S (S (S f0))))))
    (S (S (S (S (S (S (S (S (S (S f)))))))))) 0 e0
    (st level_addrs s [Expr_ctor Tag.A e1 cZero; Expr_ctor Tag.A p cInc] N)
  = ('(cur2, prev2) ←
       partial_eval_primitive_application pe (S (S (S (S (S (S f0)))))) e0 0;
     partial_eval_loop pe (S (S (S (S (S (S f0)))))) (S f) prev2 cur2)
      (st level_addrs s level_cells (N + 6)).
Proof.
  destruct level_statics
    as (HcK & HcS & HcI & HKI & HKS & HSKSK & HcInc & HcZero).
  turn. rewrite_step.
  turn. rewrite_step.
  turn. rewrite_step.
  turn. rewrite_step.
  turn. rewrite_step.
  turn. rewrite_step.
  turn. rewrite_step.
  turn. rewrite_step.
  turn. reflexivity.
Qed.

Lemma level_many pe f0 f :
  partial_eval_loop pe (S (S (S (S (S (S f0))))))
    (S (S (S (S (S (S (S (S (S (S f)))))))))) 0 e0 s
  = ('(cur2, prev2) ←
       partial_eval_primitive_application pe (S (S (S (S (S (S f0)))))) e0 0;
     partial_eval_loop pe (S (S (S (S (S (S f0)))))) (S f) prev2 cur2)
      (st level_addrs s level_cells (N + 6)).
Proof.
  rewrite <- (level_many_st pe f0 f). f_equal. exact level_start.
Qed.
End Level.

Lemma level_frame e0 e1 N s cells k q :
  q < N -> q <> e0 -> q <> e1 ->
  mem (st (level_addrs e0 e1 N) s cells k) !! q = mem s !! q.
Proof.
  intros H1 H2 H3. unfold st, with_mem. cbn [mem].
  apply overlay_frame. unfold level_addrs. not_in_list.
Qed.

Lemma wrap_int_small z : - 2 ^ 31 <= z < 2 ^ 31 -> wrap_int z = z.
Proof. intros Hz. unfold wrap_int. rewrite Z.mod_small by lia. lia. Qed.

(** The application of [Inc] and the turn of the loop that follows it. *)
Lemma inc_finish pe f0 f s1 e0 c (top : nat) r s3 rc v :
  mem s1 !! e0 = Some c -> arg1 c = cInc ->
  mem s1 !! cInc = Some (Expr_ctor Tag.Inc 0 0) ->
  root_stack_top s1 = Z.of_nat top ->
  (S top < length (roots s1))%nat ->
  pe (arg2 c)
     (with_root_stack_top (Z.of_nat (S (S top)))
        (with_roots (<[S top := 0]> (<[top := e0]> (roots s1))) s1))
  = Ret r s3 ->
  root_stack_top s3 = Z.of_nat (S (S top)) ->
  (forall i : nat, (i < S (S top))%nat ->
     roots s3 !! i = <[S top := 0]> (<[top := e0]> (roots s1)) !! i) ->
  mem s3 !! e0 = Some c ->
  mem s3 !! r = Some rc -> to_number rc = v -> r <> e0 ->
  0 <= v < 2 ^ 31 - 1 ->
  ('(cur2, prev2) ← partial_eval_primitive_application pe (S f0) e0 0;
   partial_eval_loop pe (S f0) (S f) prev2 cur2) s1
  = Ret e0
      (with_mem (insert e0 (mkExpr (forward c) (v + 1) 0 Tag.Num))
         (with_root_stack_top (Z.of_nat top) s3)).
Proof.
  intros He Ha HInc Htop Hlen Hpe Htop3 Hroots He3 Hrc Hv Hne Hrange.
  destruct (lookup_lt_is_Some_2 (roots s1) top ltac:(lia)) as [x Hx].
  destruct (lookup_lt_is_Some_2 (roots s1) (S top) ltac:(lia)) as [y Hy].
  assert (Hw : wrap_int (to_number rc + 1) = v + 1).
  { rewrite Hv. apply wrap_int_small. lia. }
  erewrite (bind_Ret _ _ _ _ _
              (rewrite_Inc pe (S f0) e0 0 s1 c (Expr_ctor Tag.Inc 0 0)
                 top x y r s3 c rc He _ _ Htop Hx Hy Hpe Htop3 _ _ He3 Hrc
                 Hne _)).
  - rewrite Hw. cbv beta iota.
    eapply partial_eval_loop_done;
      [simpl; apply lookup_insert_eq | discriminate | discriminate].
  Unshelve.
  + rewrite Ha. exact HInc.
  + reflexivity.
  + rewrite Hroots by lia. rewrite list_lookup_insert_ne by lia.
    apply list_lookup_insert_eq. lia.
  + rewrite Hroots by lia. apply list_lookup_insert_eq.
    rewrite length_insert. lia.
  + rewrite Hw, wrap_int_small by lia. lia.
Qed.

(** What a call of the reducer on [e0 = A(e1, Zero)], [e1 = A(p, Inc)]
    leaves behind when [p] is the cache's numeral for [v]: a number cell
    holding [v], every other cell that existed before untouched, and the
    root stack as it was. *)
Record decoded (s : state) (e0 e1 v r : Z) (s' : state) : Prop :=
  { dec_result : exists rc, mem s' !! r = Some rc /\ to_number rc = v;
    dec_where : r = cZero \/ r = e0;
    dec_mem : forall q, q < next_alloc s -> q <> e0 -> q <> e1 ->
                        mem s' !! q = mem s !! q;
    dec_top : root_stack_top s' = root_stack_top s;
    dec_roots : forall i : nat, Z.of_nat i < root_stack_top s ->
                                roots s' !! i = roots s !! i }.

Lemma static_mem_dom a c : static_mem !! a = Some c -> 1 <= a <= 12.
Proof.
  intros Ha. destruct (decide (1 <= a <= 12)) as [|Hout]; [assumption|].
  exfalso. unfold static_mem in Ha.
  apply elem_of_list_to_map_2 in Ha.
  repeat (apply elem_of_cons in Ha as [Ha | Ha];
          [injection Ha as -> _;
           unfold cK, cS, cI, KI, SI, KS, KK, SKSK, SIKS, Iota, cInc, cZero
             in Hout; lia|]).
  apply elem_of_nil in Ha. exact Ha.
Qed.

Lemma level_static e0 e1 N s cells k :
  static_mem ⊆ mem s -> 12 < e0 -> 12 < e1 -> 12 < N ->
  static_mem ⊆ mem (st (level_addrs e0 e1 N) s cells k).
Proof.
  intros Hst H0 H1 HN. apply map_subseteq_spec. intros a c Ha.
  pose proof (static_mem_dom a c Ha) as Hdom.
  unfold st, with_mem. cbn [mem]. rewrite overlay_frame.
  - eapply lookup_weaken; eassumption.
  - unfold level_addrs. not_in_list.
Qed.

Lemma partial_eval_church (n : nat) :
  forall f lim s e0 e1 p (top : nat),
    static_mem ⊆ mem s ->
    church_chain lim (mem s) n p ->
    lim <= e0 -> lim <= e1 ->
    12 < e0 < next_alloc s -> 12 < e1 < next_alloc s -> e0 <> e1 ->
    mem s !! e0 = Some (Expr_ctor Tag.A e1 cZero) ->
    mem s !! e1 = Some (Expr_ctor Tag.A p cInc) ->
    next_alloc s + 6 * Z.of_nat n + 6 < from_space_end s ->
    root_stack_top s = Z.of_nat top ->
    (top + 2 * n < length (roots s))%nat ->
    Z.of_nat n < 2 ^ 31 - 1 ->
    exists r s',
      partial_eval (12 + (n + f)) e0 s = Ret r s' /\
      decoded s e0 e1 (Z.of_nat n) r s'.
Proof.
  induction n as [| n IH];
    intros f lim s e0 e1 p top Hst Hch Hl0 Hl1 Hb0 Hb1 H01 He0 He1 Hroom Htop
      Hroots Hn.
  - (* the numeral 0 is KI *)
    simpl in Hch. eexists _, _. split.
    + cbn [Nat.add partial_eval].
      eapply (level_zero s e0 e1 p (next_alloc s)); eauto.
    + split.
      * exists (Expr_ctor Tag.Num 0 0). split; [|reflexivity].
        rewrite level_frame by (unfold cZero; lia).
        eapply lookup_weaken; [|exact Hst]. reflexivity.
      * left. reflexivity.
      * intros q Hq Hq0 Hq1. apply level_frame; assumption.
      * reflexivity.
      * reflexivity.
  - destruct n as [| n].
    + (* the numeral 1 is I *)
      simpl in Hch. eexists _, _. split.
      * cbn [Nat.add partial_eval].
        etransitivity;
          [eapply (level_one s e0 e1 p (next_alloc s)); eauto|].
        eapply (inc_finish _ _ _ _ e0 _ top cZero _ (Expr_ctor Tag.Num 0 0) 0).
        -- apply (st_lookup _ _
                    (level_addrs_nodup e0 e1 (next_alloc s) Hb0 Hb1 H01)
                    _ _ 0%nat); reflexivity.
        -- reflexivity.
        -- rewrite level_frame by (unfold cInc; lia).
           eapply lookup_weaken; [|exact Hst]. reflexivity.
        -- exact Htop.
        -- simpl. lia.
        -- cbn [arg2]. apply partial_eval_of_whnf.
           exists Tag.Num. split; [|split; discriminate].
           unfold tag_at. cbn [mem with_root_stack_top with_roots].
           rewrite level_frame by (unfold cZero; lia).
           rewrite (static_lookup _ cZero (Expr_ctor Tag.Num 0 0) Hst eq_refl).
           reflexivity.
        -- reflexivity.
        -- reflexivity.
        -- apply (st_lookup _ _
                    (level_addrs_nodup e0 e1 (next_alloc s) Hb0 Hb1 H01)
                    _ _ 0%nat); reflexivity.
        -- cbn [mem with_root_stack_top with_roots].
           rewrite level_frame by (unfold cZero; lia).
           eapply lookup_weaken; [|exact Hst]. reflexivity.
        -- reflexivity.
        -- unfold cZero. lia.
        -- lia.
      * split.
        -- eexists. split; [simpl; apply lookup_insert_eq|]. reflexivity.
        -- right. reflexivity.
        -- intros q Hq Hq0 Hq1.
           cbn [mem with_mem with_root_stack_top with_roots].
           rewrite lookup_insert_ne by congruence.
           apply (level_frame e0 e1 (next_alloc s) s _ (next_alloc s));
             assumption.
        -- simpl. symmetry. exact Htop.
        -- intros i Hi. simpl.
           rewrite !list_lookup_insert_ne by lia. reflexivity.
    + (* a larger numeral is S2(SKSK, p') with p' the numeral before *)
      cbn [church_chain] in Hch. destruct Hch as (Hp & p' & Hpc & Hch).
      pose (N := next_alloc s).
      pose (cells := level_cells N p').
      pose (s1 := st (level_addrs e0 e1 N) s cells (N + 6)).
      pose (s2 := with_root_stack_top (Z.of_nat (S (S top)))
                    (with_roots (<[S top := 0]> (<[top := e0]> (roots s1)))
                       s1)).
      pose proof (level_addrs_nodup e0 e1 N Hb0 Hb1 H01) as Hnd.
      destruct (IH f lim s2 (N + 5) (N + 1) p' (S (S top)))
        as (r & s3 & Hpe & Hdec).
      * apply (level_static e0 e1 N s cells (N + 6)); [exact Hst|lia..].
      * eapply church_chain_frame; [reflexivity| |exact Hch].
        intros q c Hq Hc _.
        change (mem s2 !! q) with (mem s1 !! q). unfold s1.
        rewrite level_frame by (fold N in Hb0, Hb1; lia). exact Hc.
      * fold N in Hb0. lia.
      * fold N in Hb0. lia.
      * change (next_alloc s2) with (N + 6). fold N in Hb0. lia.
      * change (next_alloc s2) with (N + 6). fold N in Hb0. lia.
      * lia.
      * apply (st_lookup _ _ Hnd _ _ 7%nat); reflexivity.
      * apply (st_lookup _ _ Hnd _ _ 3%nat); reflexivity.
      * change (next_alloc s2) with (N + 6).
        change (from_space_end s2) with (from_space_end s).
        fold N in Hroom. lia.
      * reflexivity.
      * change (roots s2) with (<[S top := 0]> (<[top := e0]> (roots s))).
        rewrite !length_insert. lia.
      * lia.
      * destruct Hdec as [(rc & Hrc & Hv) Hwhere Hmem Htop3 Hroots3].
        eexists _, _. split.
        -- cbn [Nat.add partial_eval].
           etransitivity;
             [eapply (level_many s e0 e1 p N); eauto; fold N in Hroom; lia|].
           eapply (inc_finish _ _ _ s1 e0 _ top r s3 rc (Z.of_nat (S n))).
           ++ apply (st_lookup _ _ Hnd _ _ 0%nat); reflexivity.
           ++ reflexivity.
           ++ unfold s1.
              rewrite level_frame by (fold N in Hb0; unfold cInc; lia).
              eapply lookup_weaken; [|exact Hst]. reflexivity.
           ++ exact Htop.
           ++ change (roots s1) with (roots s). lia.
           ++ exact Hpe.
           ++ exact Htop3.
           ++ intros i Hi. apply Hroots3.
              change (root_stack_top s2) with (Z.of_nat (S (S top))). lia.
           ++ rewrite Hmem.
              ** apply (st_lookup _ _ Hnd _ _ 0%nat); reflexivity.
              ** change (next_alloc s2) with (N + 6). fold N in Hb0. lia.
              ** fold N in Hb0. lia.
              ** fold N in Hb0. lia.
           ++ exact Hrc.
           ++ exact Hv.
           ++ fold N in Hb0. destruct Hwhere as [-> | ->]; unfold cZero; lia.
           ++ lia.
        -- split.
           ++ eexists. split; [simpl; apply lookup_insert_eq|].
              unfold to_number, numeric_arg1. simpl.
              rewrite wrap_int_small by lia. lia.
           ++ right. reflexivity.
           ++ intros q Hq Hq0 Hq1. simpl.
              rewrite lookup_insert_ne by congruence.
              rewrite Hmem.
              ** apply (level_frame e0 e1 N s cells (N + 6)); assumption.
              ** change (next_alloc s2) with (N + 6). fold N in Hq. lia.
              ** fold N in Hq. lia.
              ** fold N in Hq. lia.
           ++ simpl. symmetry. exact Htop.
           ++ intros i Hi. simpl. rewrite Hroots3.
              ** change (roots s2 !! i)
                   with (<[S top := 0]> (<[top := e0]> (roots s)) !! i).
                 rewrite !list_lookup_insert_ne by lia. reflexivity.
              ** change (root_stack_top s2) with (Z.of_nat (S (S top))). lia.
Qed.

(** *** The cache and its decoder *)

(** [cached_church_chars[n]], null outside the array. *)
Definition ccc (s : state) (n : Z) : Z :=
  default 0 (cached_church_chars s !! Z.to_nat n).

(** The cache is filled: entry 0 is [KI], entry 1 is [I], and every later
    entry is an arena cell [S2(SKSK, previous entry)]. *)
Record cache_wf (s : state) : Prop :=
  { cw_static : static_mem ⊆ mem s;
    cw_zero : ccc s 0 = KI;
    cw_one : ccc s 1 = cI;
    cw_chain : forall i, 2 <= i <= 256 ->
      12 < ccc s i < next_alloc s /\
      mem s !! ccc s i = Some (Expr_ctor Tag.S2 SKSK (ccc s (i - 1))) }.

Lemma cache_chain s (n : nat) :
  cache_wf s -> (n <= 256)%nat ->
  church_chain (next_alloc s) (mem s) n (ccc s (Z.of_nat n)).
Proof.
  intros Hwf. induction n as [| n IH]; intros Hn.
  - exact (cw_zero s Hwf).
  - destruct n as [| n].
    + exact (cw_one s Hwf).
    + cbn [church_chain].
      destruct (cw_chain s Hwf (Z.of_nat (S (S n))) ltac:(lia)) as [Hb Hc].
      split; [exact Hb|]. exists (ccc s (Z.of_nat (S n))). split.
      * rewrite Hc. do 3 f_equal. lia.
      * apply IH. lia.
Qed.

Lemma check_enough fuel n s :
  is_exhausted s n = false -> check fuel n s = Ret tt s.
Proof.
  intros Hex. unfold check. rewrite bind_unfold. simpl. rewrite Hex.
  reflexivity.
Qed.

(** Decoding an entry of a filled cache when the heap and the root stack
    have room for the whole reduction. *)
Lemma church2int_cached s (n top fuel : nat) :
  cache_wf s ->
  (n <= 256)%nat ->
  12 < next_alloc s ->
  next_alloc s + 6 * Z.of_nat n + 8 < from_space_end s ->
  root_stack_top s = Z.of_nat top -> (2 <= top)%nat ->
  (top + 2 * n < length (roots s))%nat ->
  (12 + n <= fuel)%nat ->
  exists s', church2int fuel (ccc s (Z.of_nat n)) s = Ret (Z.of_nat n) s'.
Proof.
  intros Hwf Hn HN Hroom Htop Htop2 Hroots Hfuel.
  pose (N := next_alloc s).
  pose (sA := with_roots (<[1%nat := N + 1]> (roots s))
                (with_mem (insert (N + 1) (Expr_ctor Tag.A N cZero))
                   (with_next_alloc (N + 1 + 1)
                      (with_mem
                         (insert N (Expr_ctor Tag.A (ccc s (Z.of_nat n)) cInc))
                         (with_next_alloc (N + 1) s))))).
  assert (Hfr : forall q, q < N -> mem sA !! q = mem s !! q).
  { intros q Hq. unfold sA. cbn [mem with_roots with_mem with_next_alloc].
    rewrite !lookup_insert_ne by lia. reflexivity. }
  replace fuel with (12 + (n + (fuel - 12 - n)))%nat by lia.
  destruct (partial_eval_church n (fuel - 12 - n) N sA (N + 1) N
              (ccc s (Z.of_nat n)) top) as (r & s' & Hpe & Hdec).
  - apply map_subseteq_spec. intros a c Ha.
    pose proof (static_mem_dom a c Ha). rewrite Hfr by (fold N in HN; lia).
    eapply lookup_weaken; [exact Ha | exact (cw_static s Hwf)].
  - eapply church_chain_frame; [reflexivity| |exact (cache_chain s n Hwf Hn)].
    intros q c Hq Hc _. rewrite Hfr by (fold N; lia). exact Hc.
  - lia.
  - lia.
  - change (next_alloc sA) with (N + 1 + 1). fold N in HN. lia.
  - change (next_alloc sA) with (N + 1 + 1). fold N in HN. lia.
  - lia.
  - unfold sA. cbn [mem with_roots with_mem with_next_alloc].
    apply lookup_insert_eq.
  - unfold sA. cbn [mem with_roots with_mem with_next_alloc].
    rewrite lookup_insert_ne by lia. apply lookup_insert_eq.
  - change (next_alloc sA) with (N + 1 + 1).
    change (from_space_end sA) with (from_space_end s). fold N in Hroom. lia.
  - exact Htop.
  - change (roots sA) with (<[1%nat := N + 1]> (roots s)).
    rewrite length_insert. exact Hroots.
  - lia.
  - destruct Hdec as [(rc & Hrc & Hv) Hwhere Hmem Htop' Hroots'].
    destruct (lookup_lt_is_Some_2 (roots s) 1 ltac:(lia)) as [x Hx].
    assert (Hx' : roots s' !! 1%nat = Some (N + 1)).
    { rewrite Hroots'
        by (change (root_stack_top sA) with (root_stack_top s); lia).
      change (roots sA) with (<[1%nat := N + 1]> (roots s)).
      apply list_lookup_insert_eq. lia. }
    eexists. unfold church2int.
    assert (Hex : is_exhausted s 2 = false)
      by (unfold is_exhausted; apply Z.leb_gt; lia).
    rewrite (bind_Ret _ _ _ _ _ (check_enough _ 2 s Hex)).
    unfold partial_apply.
    rewrite (bind_Ret _ _ _ _ _ (new_Expr_run _ _ _ _)).
    rewrite (bind_Ret _ _ _ _ _ (new_Expr_run _ _ _ _)).
    cbn [next_alloc with_mem with_next_alloc].
    erewrite (bind_Ret _ _ _ _ _ (write_root_run _ 1 x _ _)).
    fold N. change (with_roots _ _) with sA.
    rewrite (bind_Ret _ _ _ _ _ Hpe).
    rewrite (bind_Ret _ _ _ _ _ (load_Some _ _ _ Hrc)).
    rewrite Hv. destruct (Z.eqb_spec (Z.of_nat n) (-1)); [lia|].
    change church2int_root with (Z.of_nat 1).
    rewrite (bind_Ret _ _ _ _ _ (write_root_run _ 1 _ _ Hx')).
    reflexivity.
    Unshelve. exact Hx.
Qed.

(** *** Filling the cache *)

Lemma make_church_char_S fuel ch :
  make_church_char (S fuel) ch
  = (let ch := if (ch <? 0) || (256 <? ch) then 256 else ch in
     p ← read_char ch;
     (if p =? 0 then
        n ← operator_new;
        q ← make_church_char fuel (ch - 1);
        store n (Expr_ctor Tag.S2 SKSK q);;
        write_char ch n
      else ret tt);;
     read_char ch).
Proof. reflexivity. Qed.

(** A missing entry whose predecessor is present costs one cell. *)
Lemma make_church_char_fill fuel (i : nat) s q :
  (1 <= i <= 256)%nat ->
  cached_church_chars s !! i = Some 0 ->
  cached_church_chars s !! (i - 1)%nat = Some q -> q <> 0 ->
  make_church_char (S (S fuel)) (Z.of_nat i) s
  = Ret (next_alloc s)
      (with_cached_church_chars
         (<[i := next_alloc s]> (cached_church_chars s))
         (with_mem (insert (next_alloc s) (Expr_ctor Tag.S2 SKSK q))
            (with_next_alloc (next_alloc s + 1) s))).
Proof.
  intros Hi H0 Hq Hnz. rewrite make_church_char_S. cbv zeta.
  destruct (Z.ltb_spec (Z.of_nat i) 0); [lia|].
  destruct (Z.ltb_spec 256 (Z.of_nat i)); [lia|]. cbn [orb].
  rewrite (bind_Ret _ _ _ _ _ (read_char_run s i 0 H0)).
  change (0 =? 0) with true. cbv iota.
  assert (Hin :
    (n ← operator_new;
     q ← make_church_char (S fuel) (Z.of_nat i - 1);
     store n (Expr_ctor Tag.S2 SKSK q);;
     write_char (Z.of_nat i) n) s
    = Ret tt
        (with_cached_church_chars
           (<[i := next_alloc s]> (cached_church_chars s))
           (with_mem (insert (next_alloc s) (Expr_ctor Tag.S2 SKSK q))
              (with_next_alloc (next_alloc s + 1) s)))).
  { rewrite (bind_Ret _ _ _ _ _ (operator_new_run s)).
    erewrite (bind_Ret _ _ _ _ _
                (make_church_char_cached fuel (Z.of_nat i - 1) _ q _ _ Hnz)).
    - rewrite (bind_Ret _ _ _ _ _ (store_run _ _ _)).
      erewrite (write_char_run _ i 0); [reflexivity | exact H0]. }
  rewrite (bind_Ret _ _ _ _ _ Hin).
  apply read_char_run. cbn [cached_church_chars with_cached_church_chars].
  apply list_lookup_insert_eq. eapply lookup_lt_Some. exact H0.
  Unshelve.
  - lia.
  - replace (Z.to_nat (Z.of_nat i - 1)) with (i - 1)%nat by lia. exact Hq.
Qed.

(** The state of the cache after [k] turns of the loop that fills it,
    started in [s0]. *)
Record cache_built (s0 : state) (k : nat) (s : state) : Prop :=
  { cb_static : static_mem ⊆ mem s;
    cb_alloc : 12 < next_alloc s <= next_alloc s0 + Z.of_nat k;
    cb_zero : cached_church_chars s !! 0%nat = Some KI;
    cb_one : cached_church_chars s !! 1%nat = Some cI;
    cb_done : forall i, (2 <= i < k)%nat ->
      exists a b,
        cached_church_chars s !! i = Some a /\
        cached_church_chars s !! (i - 1)%nat = Some b /\
        12 < a < next_alloc s /\
        mem s !! a = Some (Expr_ctor Tag.S2 SKSK b);
    cb_todo : forall i, (2 <= i)%nat -> (k <= i < 257)%nat ->
      cached_church_chars s !! i = Some 0;
    cb_end : from_space_end s = from_space_end s0;
    cb_top : root_stack_top s = root_stack_top s0;
    cb_roots : roots s = roots s0 }.

Lemma cache_built_step fuel s0 (k : nat) s :
  (k < 257)%nat -> cache_built s0 k s ->
  exists p s',
    make_church_char (S (S fuel)) (Z.of_nat k) s = Ret p s' /\
    cache_built s0 (S k) s'.
Proof.
  intros Hk [Hst Hal Hz Ho Hdone Htodo Hend Htop Hroots].
  destruct (le_lt_dec 2 k) as [Hk2 | Hk2].
  - (* a missing entry *)
    pose proof (Htodo k Hk2 ltac:(lia)) as H0.
    assert (Hq : exists q, cached_church_chars s !! (k - 1)%nat = Some q /\
                           q <> 0).
    { destruct (decide (k = 2%nat)) as [-> | Hne].
      - exists cI. split; [exact Ho | discriminate].
      - destruct (Hdone (k - 1)%nat ltac:(lia)) as (a & b & Ha & _ & Hb & _).
        exists a. split; [exact Ha | lia]. }
    destruct Hq as (q & Hq & Hnz).
    eexists _, _. split;
      [apply (make_church_char_fill fuel k s q); [lia|assumption..]|].
    split; cbn [mem next_alloc cached_church_chars from_space_end
                root_stack_top roots with_cached_church_chars with_mem
                with_next_alloc]; try assumption.
    + apply insert_subseteq_r; [|exact Hst].
      destruct (static_mem !! next_alloc s) as [c|] eqn:E; [|reflexivity].
      apply static_mem_dom in E. lia.
    + lia.
    + rewrite list_lookup_insert_ne by lia. exact Hz.
    + rewrite list_lookup_insert_ne by lia. exact Ho.
    + intros i Hi. destruct (decide (i = k)) as [-> | Hne].
      * exists (next_alloc s), q. split; [|split; [|split]].
        -- apply list_lookup_insert_eq. eapply lookup_lt_Some. exact H0.
        -- rewrite list_lookup_insert_ne by lia. exact Hq.
        -- lia.
        -- apply lookup_insert_eq.
      * destruct (Hdone i ltac:(lia)) as (a & b & Ha & Hb & Hab & Hm).
        exists a, b. split; [|split; [|split]].
        -- rewrite list_lookup_insert_ne by lia. exact Ha.
        -- rewrite list_lookup_insert_ne by lia. exact Hb.
        -- lia.
        -- rewrite lookup_insert_ne by lia. exact Hm.
    + intros i Hi2 Hi. rewrite list_lookup_insert_ne by lia.
      apply Htodo; lia.
  - (* entries 0 and 1 are there from the start *)
    assert (Hp : exists p, cached_church_chars s !! k = Some p /\ p <> 0).
    { destruct k as [| [| k]]; [| |lia].
      - exists KI. split; [exact Hz | discriminate].
      - exists cI. split; [exact Ho | discriminate]. }
    destruct Hp as (p & Hp & Hnz).
    exists p, s. split.
    + apply make_church_char_cached; [lia| |exact Hnz].
      rewrite Nat2Z.id. exact Hp.
    + split; try assumption.
      * lia.
      * intros i Hi. lia.
      * intros i Hi2 Hi. apply Htodo; lia.
Qed.

Lemma cache_built_loop fuel s0 (m : nat) :
  forall (k : nat) s,
    (k + m = 257)%nat -> cache_built s0 k s ->
    exists s',
      for_loop m (Z.of_nat k)
        (fun i => make_church_char (S (S fuel)) i;; ret tt) s = Ret tt s' /\
      cache_built s0 257 s'.
Proof.
  induction m as [| m IH]; intros k s Hk Hb.
  - exists s. split; [reflexivity|].
    replace 257%nat with k by lia. exact Hb.
  - destruct (cache_built_step fuel s0 k s ltac:(lia) Hb)
      as (p & s1 & Hrun & Hb1).
    destruct (IH (S k) s1 ltac:(lia) Hb1) as (s' & Hloop & Hb').
    exists s'. split; [|exact Hb'].
    cbn [for_loop].
    rewrite bind_unfold, (bind_Ret _ _ _ _ _ Hrun).
    cbn [mret M_ret ret].
    replace (Z.of_nat k + 1) with (Z.of_nat (S k)) by lia.
    exact Hloop.
Qed.

Lemma cache_built_start input :
  cache_built (initial_state input) 0 (initial_state input).
Proof.
  split; try reflexivity.
  - cbn [next_alloc initial_state]. unfold space1. lia.
  - intros i Hi. lia.
  - intros i Hi2 Hi. cbn [cached_church_chars initial_state].
    destruct i as [| [| i]]; [lia | lia |].
    cbn [lookup list_lookup]. apply lookup_replicate_2. lia.
Qed.

Lemma cache_built_wf s0 s : cache_built s0 257 s -> cache_wf s.
Proof.
  intros [Hst Hal Hz Ho Hdone Htodo Hend Htop Hroots]. split.
  - exact Hst.
  - unfold ccc. change (Z.to_nat 0) with 0%nat. rewrite Hz. reflexivity.
  - unfold ccc. change (Z.to_nat 1) with 1%nat. rewrite Ho. reflexivity.
  - intros i Hi.
    destruct (Hdone (Z.to_nat i) ltac:(lia)) as (a & b & Ha & Hb & Hab & Hm).
    unfold ccc. replace (Z.to_nat (i - 1)) with (Z.to_nat i - 1)%nat by lia.
    rewrite Ha, Hb. simpl. split; assumption.
Qed.

(** C8.  After the loop of [main] that fills the Church character cache,
    entry 0 is the static atom [KI], entry 1 is the static atom [I], every
    entry [i] from 2 to 256 is a cell [S2(SKSK, entry i - 1)], and
    [church2int] decodes entry [n] to [n] for every [n] from 0 to 256. *)
Theorem C8_church_roundtrip (input : list Z) (k1 k2 : nat) :
  exists s,
    init_church_chars (2 + k1) (initial_state input) = Ret tt s /\
    ccc s 0 = KI /\
    ccc s 1 = cI /\
    (forall i, 2 <= i <= 256 ->
       mem s !! ccc s i = Some (Expr_ctor Tag.S2 SKSK (ccc s (i - 1)))) /\
    (forall n, 0 <= n <= 256 ->
       exists s', church2int (268 + k2) (ccc s n) s = Ret n s').
Proof.
  destruct (cache_built_loop k1 (initial_state input) 257 0
              (initial_state input) eq_refl (cache_built_start input))
    as (s & Hrun & Hb).
  pose proof (cache_built_wf _ _ Hb) as Hwf.
  exists s. split; [exact Hrun|].
  split; [exact (cw_zero s Hwf)|]. split; [exact (cw_one s Hwf)|]. split.
  - intros i Hi. exact (proj2 (cw_chain s Hwf i Hi)).
  - intros n Hn.
    destruct Hb as [_ Hal _ _ _ _ Hend Htop Hroots].
    assert (Hfse : from_space_end (initial_state input) = 2097168)
      by reflexivity.
    assert (HN : next_alloc (initial_state input) = 16) by reflexivity.
    destruct (church2int_cached s (Z.to_nat n) 2 (268 + k2) Hwf) as [s' Hs'].
    + lia.
    + lia.
    + rewrite Hend, Hfse. lia.
    + rewrite Htop. reflexivity.
    + lia.
    + rewrite Hroots. cbn [roots initial_state].
      rewrite length_replicate. unfold MAX_ROOTS. lia.
    + lia.
    + exists s'. rewrite Z2Nat.id in Hs' by lia. exact Hs'.
Qed.

Lemma C8_church_roundtrip_witness :
  exists s s',
    init_church_chars 2 (initial_state []) = Ret tt s /\
    church2int 268 (ccc s 65) s = Ret 65 s'.
Proof.
  destruct (C8_church_roundtrip [] 0 0) as (s & Hrun & _ & _ & _ & Hdec).
  destruct (Hdec 65 ltac:(lia)) as [s' Hs'].
  exists s, s'. split; [exact Hrun | exact Hs'].
Defined.

(** * Further properties of the code *)

(** ** The root stack *)

(** [root] and [unroot] are a stack: two pushes followed by two pops give
    the pointers back in reverse order and leave the stack pointer where it
    was; the table keeps the pushed values in the two slots above it.
    Neither function checks a bound: a push with the table full writes past
    its end, and a pop from the empty stack reads before its start. *)
Theorem root_unroot_stack a b s (top : nat) :
  root_stack_top s = Z.of_nat top ->
  ((S top < length (roots s))%nat ->
   (root a;; root b;; y ← unroot; x ← unroot; mret (x, y)) s
   = Ret (a, b) (with_roots (<[S top := b]> (<[top := a]> (roots s))) s)) /\
  (top = length (roots s) -> root a s = Fault) /\
  (top = 0%nat -> unroot s = Fault).
Proof.
  intros Htop. split; [|split].
  - intros Hlen.
    destruct (lookup_lt_is_Some_2 (roots s) top ltac:(lia)) as [x Hx].
    destruct (lookup_lt_is_Some_2 (roots s) (S top) ltac:(lia)) as [y Hy].
    rewrite (bind_Ret _ _ _ _ _ (root_run a s top x Htop Hx)).
    erewrite (bind_Ret _ _ _ _ _ (root_run b _ (S top) y _ _)).
    erewrite (bind_Ret _ _ _ _ _ (unroot_run _ (S top) b _ _)).
    erewrite (bind_Ret _ _ _ _ _ (unroot_run _ top a _ _)).
    cbn [mret M_ret ret]. f_equal.
    destruct s as [m a1 b1 c1 d1 n w r t cc i o e]. simpl in *. subst t.
    reflexivity.
    Unshelve.
    + reflexivity.
    + simpl. rewrite list_lookup_insert_ne by lia. exact Hy.
    + reflexivity.
    + simpl. apply list_lookup_insert_eq. rewrite length_insert. lia.
    + reflexivity.
    + simpl. rewrite list_lookup_insert_ne by lia.
      apply list_lookup_insert_eq. lia.
  - intros ->. unfold root. rewrite bind_unfold. cbn [get]. rewrite bind_unfold.
    unfold write_root. rewrite Htop.
    destruct (Z.ltb_spec (Z.of_nat (length (roots s))) 0); [reflexivity|].
    rewrite Nat2Z.id. rewrite lookup_ge_None_2 by lia. reflexivity.
  - intros ->. unfold unroot. rewrite bind_unfold. cbn [get]. rewrite bind_unfold.
    cbn [modify]. unfold read_root. rewrite Htop. reflexivity.
Qed.

Lemma root_unroot_stack_witness :
  (root 16 ;; root 17;; y ← unroot; x ← unroot; mret (x, y)) (initial_state [])
  = Ret (16, 17)
      (with_roots (<[3%nat := 17]> (<[2%nat := 16]> (roots (initial_state []))))
         (initial_state [])).
Proof.
  apply (proj1 (root_unroot_stack 16 17 (initial_state []) 2 eq_refl)).
  cbn [roots initial_state]. rewrite length_replicate. unfold MAX_ROOTS. lia.
Defined.

(** ** Reserving cells *)

(** Observations the collector has no part in: they look at nothing but the
    standard streams and the root stack pointer. *)
Class Outside_heap {A} (f : state -> A) : Prop := {
  oh_mem : forall g s, f (with_mem g s) = f s;
  oh_next_alloc : forall v s, f (with_next_alloc v s) = f s;
  oh_work_stack : forall v s, f (with_work_stack v s) = f s;
  oh_roots : forall v s, f (with_roots v s) = f s;
  oh_chars : forall v s, f (with_cached_church_chars v s) = f s;
  oh_swap : forall s, f (swap_spaces s) = f s
}.

#[global] Instance Outside_heap_stdin : Outside_heap stdin_.
Proof. split; reflexivity. Qed.
#[global] Instance Outside_heap_stdout : Outside_heap stdout_.
Proof. split; reflexivity. Qed.
#[global] Instance Outside_heap_stderr : Outside_heap stderr_.
Proof. split; reflexivity. Qed.

Section Collector_keeps.
Context {A : Type} (f : state -> A) `{!Outside_heap f}.





End Collector_keeps.



(** ** Run-time errors of the reducer and the decoder *)

Lemma with_mem_id e c s : mem s !! e = Some c -> with_mem (insert e c) s = s.
Proof.
  intros Hc. destruct s as [m a1 b1 c1 d1 n w r t cc i o er]. simpl in *.
  unfold with_mem. simpl. rewrite insert_id by exact Hc. reflexivity.
Qed.

(** Applying a number: when the head of an application is a [Num] cell, the
    reducer prints its diagnostic and ends the process with exit code 3; the
    heap is as it was, the spine having been restored before the rewrite was
    tried. *)
Theorem apply_number_exits fuel e s c l :
  e <> 0 ->
  mem s !! e = Some c -> type c = Tag.A ->
  mem s !! arg1 c = Some l -> type l = Tag.Num ->
  partial_eval (S (S fuel)) e s
  = Exit 3 (with_stderr (stderr_ s ++ [msg_num]) s).
Proof.
  intros He Hc Ht Hl Htl.
  assert (Hne : arg1 c <> e).
  { intros Heq. rewrite Heq, Hc in Hl. injection Hl as ->. congruence. }
  cbn [partial_eval].
  erewrite (partial_eval_loop_turn _ _ _ 0 e s c e (arg1 c) _ (set_arg1 0 c)
              Hc ltac:(congruence) _ He _).
  - cbn [arg1 set_arg1]. rewrite insert_again.
    replace (set_arg1 (arg1 c) (set_arg1 0 c)) with c by (destruct c; reflexivity).
    rewrite (with_mem_id e c s Hc).
    unfold partial_eval_primitive_application.
    rewrite bind_unfold.
    rewrite (bind_Ret _ _ _ _ _ (load_Some _ _ _ Hc)).
    rewrite (bind_Ret _ _ _ _ _ (load_Some _ _ _ Hl)). rewrite Htl.
    reflexivity.
  Unshelve.
  + rewrite (descend_A _ _ 0 e s c l Hc Ht Hl ltac:(congruence)).
    eapply descend_stop.
    * simpl. rewrite lookup_insert_ne by congruence. exact Hl.
    * congruence.
  + simpl. apply lookup_insert_eq.
Qed.

Definition apply_number_state : state :=
  with_mem (insert 16 (Expr_ctor Tag.A cZero cK))
    (with_next_alloc 17 (initial_state [])).

Lemma apply_number_exits_witness :
  partial_eval 2 16 apply_number_state
  = Exit 3 (with_stderr [msg_num] apply_number_state).
Proof.
  apply (apply_number_exits 0 16 apply_number_state
           (Expr_ctor Tag.A cZero cK) (Expr_ctor Tag.Num 0 0)).
  - lia.
  - reflexivity.
  - reflexivity.
  - reflexivity.
  - reflexivity.
Defined.

(** [church2int] reports a result that is not a number: if the reduction of
    [church Inc Zero] returns a cell whose [to_number()] is -1 (any cell that
    is not a [Num], or a [Num] holding -1), the decoder prints its diagnostic
    and ends the process with exit code 3, leaving [church2int_root] set. *)
Theorem church2int_not_a_number fuel church s r s' c :
  is_exhausted s 2 = false ->
  (1 < length (roots s))%nat ->
  partial_eval fuel (next_alloc s + 1)
    (with_roots (<[1%nat := next_alloc s + 1]> (roots s))
       (with_mem (insert (next_alloc s + 1)
                    (Expr_ctor Tag.A (next_alloc s) cZero))
          (with_next_alloc (next_alloc s + 1 + 1)
             (with_mem (insert (next_alloc s) (Expr_ctor Tag.A church cInc))
                (with_next_alloc (next_alloc s + 1) s)))))
  = Ret r s' ->
  mem s' !! r = Some c -> to_number c = -1 ->
  church2int fuel church s
  = Exit 3 (with_stderr (stderr_ s' ++ [msg_result]) s').
Proof.
  intros Hex Hlen Hpe Hc Hn.
  destruct (lookup_lt_is_Some_2 (roots s) 1 Hlen) as [x Hx].
  unfold church2int.
  rewrite (bind_Ret _ _ _ _ _ (check_enough _ 2 s Hex)).
  unfold partial_apply.
  rewrite (bind_Ret _ _ _ _ _ (new_Expr_run _ _ _ _)).
  rewrite (bind_Ret _ _ _ _ _ (new_Expr_run _ _ _ _)).
  cbn [next_alloc with_mem with_next_alloc].
  erewrite (bind_Ret _ _ _ _ _ (write_root_run _ 1 x _ _)).
  cbn [roots with_mem with_next_alloc].
  rewrite (bind_Ret _ _ _ _ _ Hpe).
  rewrite (bind_Ret _ _ _ _ _ (load_Some _ _ _ Hc)).
  rewrite Hn. reflexivity.
  Unshelve. exact Hx.
Qed.

(** [K Inc Zero] reduces to [Inc], which is not a number. *)
Lemma church2int_not_a_number_witness :
  exists s', church2int 3 cK (initial_state []) = Exit 3 s' /\
             stderr_ s' = [msg_result].
Proof.
  pose (s := initial_state []).
  pose (sA := with_roots (<[1%nat := next_alloc s + 1]> (roots s))
       (with_mem (insert (next_alloc s + 1)
                    (Expr_ctor Tag.A (next_alloc s) cZero))
          (with_next_alloc (next_alloc s + 1 + 1)
             (with_mem (insert (next_alloc s) (Expr_ctor Tag.A cK cInc))
                (with_next_alloc (next_alloc s + 1) s))))).
  pose (s' := state_of (partial_eval 3 (next_alloc s + 1) sA) sA).
  exists (with_stderr (stderr_ s' ++ [msg_result]) s').
  split; [|vm_compute; reflexivity].
  apply (church2int_not_a_number 3 cK s cInc s' (Expr_ctor Tag.Inc 0 0)).
  - reflexivity.
  - cbn [roots s initial_state]. rewrite length_replicate. unfold MAX_ROOTS. lia.
  - vm_compute. reflexivity.
  - vm_compute. reflexivity.
  - reflexivity.
Defined.

(** ** The parser *)

(** Expressions in the three notations that can be mixed freely: the atoms
    [k K s S i I], Unlambda's [`ab], Iota's [*ab] and the parenthesised
    lists of combinator calculus. *)
#[warnings="-register-all"]
Inductive syntax : Type :=
| Atom (c : Z)
| Tick (a b : syntax)
| Star (a b : syntax)
| Paren (xs : list syntax).

Definition is_atom (c : Z) : bool :=
  (c =? chr "k"%char) || (c =? chr "K"%char) || (c =? chr "s"%char) ||
  (c =? chr "S"%char) || (c =? chr "i"%char) || (c =? chr "I"%char).

Fixpoint well_formed (x : syntax) : bool :=
  match x with
  | Atom c => is_atom c
  | Tick a b | Star a b => well_formed a && well_formed b
  | Paren xs => forallb well_formed xs
  end.

(** The text of an expression. *)
Fixpoint render (x : syntax) : list Z :=
  match x with
  | Atom c => [c]
  | Tick a b => chr "`"%char :: render a ++ render b
  | Star a b => chr "*"%char :: render a ++ render b
  | Paren xs => chr "("%char :: concat (map render xs) ++ [chr ")"%char]
  end.

Fixpoint syntax_size (x : syntax) : nat :=
  match x with
  | Atom _ => 1
  | Tick a b | Star a b => S (syntax_size a + syntax_size b)
  | Paren xs => S (S (list_sum (map syntax_size xs)))
  end.

(** Binary trees of applications over static atoms. *)
Inductive tree : Type :=
| Leaf (p : Z)
| Node (l r : tree).

Definition atom_cell (c : Z) (i_is_iota : bool) : Z :=
  if (c =? chr "k"%char) || (c =? chr "K"%char) then cK
  else if (c =? chr "s"%char) || (c =? chr "S"%char) then cS
  else if (c =? chr "i"%char) && i_is_iota then Iota
  else cI.

(** What a list of operands applied from left to right denotes, starting
    from what has been read so far. *)
Definition apply_all (acc : option tree) (ts : list tree) : option tree :=
  foldl (fun acc t => Some match acc with None => t | Some a => Node a t end)
    acc ts.

(** What an expression denotes; [i] is Iota exactly when it is an operand
    of [*]. *)
Fixpoint denote (x : syntax) (i_is_iota : bool) : tree :=
  match x with
  | Atom c => Leaf (atom_cell c i_is_iota)
  | Tick a b => Node (denote a false) (denote b false)
  | Star a b => Node (denote a true) (denote b true)
  | Paren xs =>
      default (Leaf cI) (apply_all None (map (fun y => denote y false) xs))
  end.

(** [graph lo lim m p t]: in memory [m] the pointer [p] is the root of a
    graph that spells [t], every application being an [A] cell in
    [lo, lim). *)
Fixpoint graph (lo lim : Z) (m : gmap Z Expr) (p : Z) (t : tree) : Prop :=
  match t with
  | Leaf q => p = q
  | Node l r =>
      lo <= p < lim /\
      exists pl pr, m !! p = Some (Expr_ctor Tag.A pl pr) /\
                    graph lo lim m pl l /\ graph lo lim m pr r
  end.

Fixpoint nodes (t : tree) : Z :=
  match t with
  | Leaf _ => 0
  | Node l r => 1 + nodes l + nodes r
  end.

Lemma nodes_nonneg t : 0 <= nodes t.
Proof. induction t; simpl; lia. Qed.

Lemma graph_mono lo lo' lim lim' m m' p t :
  lo' <= lo -> lim <= lim' ->
  (forall q, lo <= q < lim -> m' !! q = m !! q) ->
  graph lo lim m p t -> graph lo' lim' m' p t.
Proof.
  intros Hlo Hle Hm. revert p. induction t as [q | l IHl r IHr]; intros p; simpl.
  - auto.
  - intros (Hp & pl & pr & Hc & Hl & Hr). split; [lia|].
    exists pl, pr. split; [rewrite Hm by exact Hp; exact Hc|].
    split; [apply IHl; exact Hl | apply IHr; exact Hr].
Qed.

Section ParserCorrect.
Context {T : Type} `{Stream T}.

Lemma getch_seq_app (f : T) n m :
  getch_seq f (n + m) =
  let '(a, f1) := getch_seq f n in
  let '(b, f2) := getch_seq f1 m in (a ++ b, f2).
Proof.
  revert f. induction n as [| n IH]; intros f.
  - simpl. destruct (getch_seq f m). reflexivity.
  - cbn [Nat.add]. rewrite !getch_seq_S. destruct (getch f) as [c f1].
    rewrite IH. destruct (getch_seq f1 n) as [a f2].
    destruct (getch_seq f2 m) as [b f3]. reflexivity.
Qed.

(** Reading [a ++ b]: first [a], then [b]. *)
Lemma getch_seq_split (f f' : T) a b :
  getch_seq f (length (a ++ b)) = (a ++ b, f') ->
  exists f1, getch_seq f (length a) = (a, f1) /\
             getch_seq f1 (length b) = (b, f').
Proof.
  rewrite length_app, getch_seq_app.
  destruct (getch_seq f (length a)) as [a' f1] eqn:Ea.
  destruct (getch_seq f1 (length b)) as [b' f2] eqn:Eb.
  intros E. injection E as E ->.
  assert (Hla : length a' = length a).
  { clear -Ea. revert f a' f1 Ea. generalize (length a) as n.
    induction n as [| n IH]; intros f a' f1 Ea.
    - injection Ea as <- _. reflexivity.
    - rewrite getch_seq_S in Ea. destruct (getch f) as [c f0].
      destruct (getch_seq f0 n) as [cs f2] eqn:E0.
      injection Ea as <- _. simpl. f_equal. eapply IH. exact E0. }
  apply app_inj_1 in E as [-> ->]; [|exact Hla].
  exists f1. split; [reflexivity | exact Eb].
Qed.

Lemma getch_seq_cons (f f' : T) c rest :
  getch_seq f (length (c :: rest)) = (c :: rest, f') ->
  exists f1, getch f = (c, f1) /\ getch_seq f1 (length rest) = (rest, f').
Proof.
  cbn [length]. rewrite getch_seq_S. destruct (getch f) as [c0 f1] eqn:Eg.
  destruct (getch_seq f1 (length rest)) as [cs f2] eqn:Es.
  intros E. injection E as -> -> ->. exists f1.
  split; [reflexivity | exact Es].
Qed.

(** What a successful parse leaves: a graph for [t] made of [nodes t] fresh
    cells, with everything allocated before and everything outside the heap
    untouched. *)
Definition parsed (s : state) (t : tree) (r : Z) (s' : state) : Prop :=
  0 < r /\
  graph (next_alloc s) (next_alloc s') (mem s') r t /\
  next_alloc s' = next_alloc s + nodes t /\
  (forall q, q < next_alloc s -> mem s' !! q = mem s !! q) /\
  s' = with_mem (fun _ => mem s') (with_next_alloc (next_alloc s') s).

Lemma only_heap_refl s :
  s = with_mem (fun _ => mem s) (with_next_alloc (next_alloc s) s).
Proof. destruct s. reflexivity. Qed.

Lemma only_heap_trans s s1 s2 :
  s1 = with_mem (fun _ => mem s1) (with_next_alloc (next_alloc s1) s) ->
  s2 = with_mem (fun _ => mem s2) (with_next_alloc (next_alloc s2) s1) ->
  s2 = with_mem (fun _ => mem s2) (with_next_alloc (next_alloc s2) s).
Proof. intros H1 H2. rewrite H2 at 1. rewrite H1 at 1. reflexivity. Qed.

Lemma only_heap_alloc s s2 g v :
  s2 = with_mem (fun _ => mem s2) (with_next_alloc (next_alloc s2) s) ->
  with_mem g (with_next_alloc v s2)
  = with_mem (fun _ => mem (with_mem g (with_next_alloc v s2)))
      (with_next_alloc (next_alloc (with_mem g (with_next_alloc v s2))) s).
Proof. intros ->. reflexivity. Qed.

Lemma render_cons x :
  well_formed x = true ->
  exists c rest, render x = c :: rest /\
                 c <> chr ")"%char /\ c <> EOF.
Proof.
  destruct x as [c | a b | a b | xs]; simpl; intros Hwf.
  - exists c, []. split; [reflexivity|].
    unfold is_atom in Hwf. rewrite !orb_true_iff, !Z.eqb_eq in Hwf.
    split; intros ->; vm_compute in Hwf; intuition discriminate.
  - eexists _, _. split; [reflexivity|]. split; discriminate.
  - eexists _, _. split; [reflexivity|]. split; discriminate.
  - eexists _, _. split; [reflexivity|]. split; discriminate.
Qed.

Lemma parse_expr_atom fuel (f : T) c flag s :
  is_atom c = true ->
  parse_expr (S fuel) f c flag s = Ret (atom_cell c flag, f) s /\
  0 < atom_cell c flag.
Proof.
  unfold is_atom. rewrite !orb_true_iff, !Z.eqb_eq.
  intros [[[[[-> | ->] | ->] | ->] | ->] | ->]; destruct flag;
    split; reflexivity.
Qed.

(** The two prefix applications: the operands are read with [i] meaning
    Iota under [*] and the identity under a backquote. *)
Lemma parse_expr_prefix fuel (f : T) ch flag :
  ch = chr "`"%char \/ ch = chr "*"%char ->
  parse_expr (S fuel) f ch flag =
  (let '(c1, f) := getch f in
   '(p, f) ← parse_expr fuel f c1 (ch =? chr "*"%char);
   let '(c2, f) := getch f in
   '(q, f) ← parse_expr fuel f c2 (ch =? chr "*"%char);
   r ← partial_apply p q;
   mret (r, f)).
Proof. intros [-> | ->]; reflexivity. Qed.

Lemma parse_expr_paren fuel (f : T) flag :
  parse_expr (S fuel) f (chr "("%char) flag =
  parse_manual_close_with (parse_expr fuel) fuel f (chr ")"%char).
Proof. reflexivity. Qed.

(** The specification of a parser for one expression, for expressions of a
    bounded syntax_size. *)
Definition parses (pexpr : T -> Z -> bool -> M (Z * T)) (bound : nat) : Prop :=
  forall x (f : T) ch rest f' flag s,
    well_formed x = true ->
    render x = ch :: rest ->
    getch_seq f (length rest) = (rest, f') ->
    (syntax_size x <= bound)%nat ->
    12 < next_alloc s ->
    exists r s',
      pexpr f ch flag s = Ret (r, f') s' /\ parsed s (denote x flag) r s'.

Definition nodes_of (acc : option tree) : Z :=
  match acc with None => 0 | Some t => nodes t end.

(** The accumulator of [parse_manual_close]: null while nothing has been
    read. *)
Definition holds (lo : Z) (s : state) (e : Z) (acc : option tree) : Prop :=
  match acc with
  | None => e = 0
  | Some t => 0 < e /\ graph lo (next_alloc s) (mem s) e t
  end.

(** The loop of [parse_manual_close] over a run of complete operands: it
    comes round with the operands applied from left to right. *)
Lemma parse_manual_close_loop_operands pexpr bound xs :
  parses pexpr bound ->
  forall fuel (f : T) e acc f1 lo s,
    forallb well_formed xs = true ->
    Forall (fun x => (syntax_size x <= bound)%nat) xs ->
    getch_seq f (length (concat (map render xs)))
    = (concat (map render xs), f1) ->
    lo <= next_alloc s -> 12 < next_alloc s ->
    holds lo s e acc ->
    exists e1 s1,
      parse_manual_close_loop pexpr (length xs + fuel) f e s
      = parse_manual_close_loop pexpr fuel f1 e1 s1 /\
      holds lo s1 e1
        (apply_all acc (map (fun y => denote y false) xs)) /\
      next_alloc s1 = next_alloc s
                      + nodes_of (apply_all acc
                                    (map (fun y => denote y false) xs))
                      - nodes_of acc /\
      nodes_of acc <= nodes_of (apply_all acc
                                  (map (fun y => denote y false) xs)) /\
      (forall q, q < next_alloc s -> mem s1 !! q = mem s !! q) /\
      s1 = with_mem (fun _ => mem s1) (with_next_alloc (next_alloc s1) s).
Proof.
  intros Hparses.
  induction xs as [| x xs IH];
    intros fuel f e acc f1 lo s Hwf Hsz Hseq Hlo Hst Hacc.
  - simpl in Hseq. injection Hseq as <-.
    exists e, s. split; [reflexivity|]. split; [exact Hacc|].
    split; [simpl; lia|]. split; [simpl; lia|].
    split; [reflexivity | apply only_heap_refl].
  - cbn [forallb] in Hwf. apply andb_true_iff in Hwf as [Hwx Hwxs].
    inversion Hsz as [| ? ? Hsx Hsxs]; subst.
    destruct (render_cons x Hwx) as (c & rest & Hr & Hc1 & Hc2).
    cbn [map concat] in Hseq. rewrite Hr in Hseq. cbn [app] in Hseq.
    apply getch_seq_cons in Hseq as (f2 & Hg & Hseq).
    apply getch_seq_split in Hseq as (f3 & Hseq1 & Hseq2).
    destruct (Hparses x f2 c rest f3 false s Hwx Hr Hseq1 Hsx Hst)
      as (e2 & s1 & E1 & Hpos & Hg1 & Hn1 & Hfr1 & Hoh1).
    pose proof (nodes_nonneg (denote x false)) as Hnn.
    cbn [length Nat.add parse_manual_close_loop]. rewrite Hg.
    assert (Hgo : negb (c =? chr ")"%char) && negb (c =? EOF) = true).
    { apply andb_true_iff.
      split; apply negb_true_iff, Z.eqb_neq; assumption. }
    rewrite Hgo. rewrite (bind_Ret _ _ _ _ _ E1).
    (* the accumulator after this operand *)
    set (acc1 := Some match acc with
                      | None => denote x false
                      | Some a => Node a (denote x false)
                      end).
    assert (Hstep : exists e1 s2,
              (if e =? 0 then mret e2 else partial_apply e e2) s1
              = Ret e1 s2 /\
              holds lo s2 e1 acc1 /\
              next_alloc s2 = next_alloc s + nodes_of acc1 - nodes_of acc /\
              (forall q, q < next_alloc s -> mem s2 !! q = mem s !! q) /\
              s2 = with_mem (fun _ => mem s2)
                     (with_next_alloc (next_alloc s2) s)).
    { destruct acc as [a|]; simpl in Hacc.
      - destruct Hacc as [He Hga].
        destruct (Z.eqb_spec e 0) as [|_]; [lia|].
        unfold partial_apply. rewrite new_Expr_run.
        eexists _, _. split; [reflexivity|].
        split; [|split; [|split]].
        + simpl. split; [lia|]. split; [lia|].
          exists e, e2. split; [apply lookup_insert_eq|]. split.
          * eapply graph_mono; [reflexivity| |intros q Hq|exact Hga].
            -- lia.
            -- rewrite lookup_insert_ne by lia. apply Hfr1. lia.
          * eapply graph_mono; [exact Hlo| |intros q Hq|exact Hg1].
            -- lia.
            -- rewrite lookup_insert_ne by lia. reflexivity.
        + simpl. lia.
        + intros q Hq. simpl. rewrite lookup_insert_ne by lia.
          apply Hfr1. exact Hq.
        + apply only_heap_alloc. exact Hoh1.
      - subst e. simpl. eexists _, _. split; [reflexivity|].
        split; [|split; [|split]].
        + simpl. split; [exact Hpos|].
          eapply graph_mono; [exact Hlo|reflexivity| |exact Hg1].
          reflexivity.
        + simpl. lia.
        + exact Hfr1.
        + exact Hoh1. }
    destruct Hstep as (e1 & s2 & E2 & Hacc1 & Hn2 & Hfr2 & Hoh2).
    rewrite (bind_Ret _ _ _ _ _ E2).
    assert (Hnacc : 0 <= nodes_of acc).
    { destruct acc as [a|]; simpl; [apply nodes_nonneg | lia]. }
    assert (Hnacc1 : nodes_of acc <= nodes_of acc1).
    { unfold acc1. destruct acc as [a|]; simpl; lia. }
    destruct (IH fuel f3 e1 acc1 f1 lo s2 Hwxs Hsxs Hseq2 ltac:(lia)
                ltac:(lia) Hacc1)
      as (e' & s' & E & Hacc' & Hn' & Hle' & Hfr' & Hoh').
    exists e', s'. split; [exact E|].
    cbn [map apply_all foldl]. fold acc1.
    change (foldl _ acc1 (map (fun y => denote y false) xs))
      with (apply_all acc1 (map (fun y => denote y false) xs)).
    split; [exact Hacc'|]. split; [lia|]. split; [lia|]. split.
    + intros q Hq. rewrite Hfr' by lia. apply Hfr2. exact Hq.
    + eapply only_heap_trans; eassumption.
Qed.

(** The operands of a well-formed list, from the start of
    [parse_manual_close]. *)
Lemma parse_manual_close_operands pexpr bound xs fuel (f : T) f1 s :
  parses pexpr bound ->
  forallb well_formed xs = true ->
  Forall (fun x => (syntax_size x <= bound)%nat) xs ->
  getch_seq f (length (concat (map render xs)))
  = (concat (map render xs), f1) ->
  12 < next_alloc s ->
  exists e1 s1,
    parse_manual_close_loop pexpr (length xs + fuel) f 0 s
    = parse_manual_close_loop pexpr fuel f1 e1 s1 /\
    parsed s (denote (Paren xs) false) (if e1 =? 0 then cI else e1) s1.
Proof.
  intros Hparses Hwf Hsz Hseq Hst.
  destruct (parse_manual_close_loop_operands pexpr bound xs Hparses fuel f 0
              None f1 (next_alloc s) s Hwf Hsz Hseq ltac:(lia) Hst eq_refl)
    as (e & s' & E & Hacc & Hn & _ & Hfr & Hoh).
  exists e, s'. split; [exact E|]. cbn [denote].
  destruct (apply_all None (map (fun y => denote y false) xs)) as [t|];
    simpl in Hacc, Hn |- *.
  - destruct Hacc as [Hpos Hg].
    destruct (Z.eqb_spec e 0) as [|_]; [lia|].
    split; [exact Hpos|]. split; [exact Hg|]. split; [lia|].
    split; assumption.
  - subst e. simpl. split; [reflexivity|]. split; [reflexivity|].
    split; [simpl; lia|]. split; assumption.
Qed.

Lemma parse_manual_close_with_spec pexpr bound xs fuel (f : T) term f' s :
  parses pexpr bound ->
  forallb well_formed xs = true ->
  Forall (fun x => (syntax_size x <= bound)%nat) xs ->
  (length xs < fuel)%nat ->
  term = chr ")"%char \/ term = EOF ->
  getch_seq f (length (concat (map render xs) ++ [term]))
  = (concat (map render xs) ++ [term], f') ->
  12 < next_alloc s ->
  exists r s',
    parse_manual_close_with pexpr fuel f term s = Ret (r, f') s' /\
    parsed s (denote (Paren xs) false) r s'.
Proof.
  intros Hparses Hwf Hsz Hfuel Hterm Hseq Hst.
  apply getch_seq_split in Hseq as (f1 & Hseq & Hlast).
  simpl in Hlast. destruct (getch f1) as [c f2] eqn:Hg.
  injection Hlast as -> ->.
  destruct (parse_manual_close_operands pexpr bound xs
              (S (fuel - length xs - 1)) f f1 s Hparses Hwf Hsz Hseq Hst)
    as (e & s' & E & Hp).
  replace (length xs + S (fuel - length xs - 1))%nat with fuel in E by lia.
  unfold parse_manual_close_with. rewrite bind_unfold, E.
  cbn [parse_manual_close_loop]. rewrite Hg.
  assert (Hstop : negb (term =? chr ")"%char) && negb (term =? EOF) = false).
  { destruct Hterm as [-> | ->]; reflexivity. }
  rewrite Hstop. cbn [mret M_ret ret].
  rewrite Z.eqb_refl. cbn [negb].
  eexists _, s'. split; [reflexivity | exact Hp].
Qed.

Lemma parse_expr_spec fuel : parses (parse_expr fuel) fuel.
Proof.
  induction fuel as [| fuel IH];
    intros x f ch rest f' flag s Hwf Hr Hseq Hsz Hst.
  { destruct x; simpl in Hsz; lia. }
  assert (IH' : forall bound, (bound <= fuel)%nat ->
                              parses (parse_expr fuel) bound).
  { intros bound Hb x0 f0 ch0 rest0 f0' flag0 s0 H1 H2 H3 H4 H5.
    apply (IH x0 f0 ch0 rest0 f0' flag0 s0 H1 H2 H3); [lia | exact H5]. }
  destruct x as [c | a b | a b | xs].
  - (* an atom *)
    simpl in Hr, Hwf. injection Hr as <- <-. simpl in Hseq.
    injection Hseq as <-.
    destruct (parse_expr_atom fuel f c flag s Hwf) as [E Hpos].
    exists (atom_cell c flag), s. split; [exact E|].
    split; [exact Hpos|]. split; [reflexivity|]. split; [simpl; lia|].
    split; [reflexivity | apply only_heap_refl].
  - (* `ab *)
    simpl in Hr, Hwf, Hsz. injection Hr as <- <-.
    apply andb_true_iff in Hwf as [Hwa Hwb].
    destruct (render_cons a Hwa) as (c1 & r1 & Hra & _).
    destruct (render_cons b Hwb) as (c2 & r2 & Hrb & _).
    rewrite Hra, Hrb in Hseq. cbn [app] in Hseq.
    apply getch_seq_cons in Hseq as (f1 & Hg1 & Hseq).
    apply getch_seq_split in Hseq as (f2 & Hs1 & Hseq).
    apply getch_seq_cons in Hseq as (f3 & Hg2 & Hs2).
    destruct (IH a f1 c1 r1 f2 false s Hwa Hra Hs1 ltac:(lia) Hst)
      as (p & s1 & E1 & Hp1 & Hga & Hn1 & Hfr1 & Hoh1).
    pose proof (nodes_nonneg (denote a false)) as Hna.
    destruct (IH b f3 c2 r2 f' false s1 Hwb Hrb Hs2 ltac:(lia) ltac:(lia))
      as (q & s2 & E2 & Hp2 & Hgb & Hn2 & Hfr2 & Hoh2).
    pose proof (nodes_nonneg (denote b false)) as Hnb.
    rewrite parse_expr_prefix by (left; reflexivity).
    rewrite Hg1. rewrite (bind_Ret _ _ _ _ _ E1). rewrite Hg2.
    rewrite (bind_Ret _ _ _ _ _ E2).
    unfold partial_apply. rewrite (bind_Ret _ _ _ _ _ (new_Expr_run _ _ _ _)).
    eexists _, _. split; [reflexivity|].
    split; [lia|]. split; [|split; [|split]].
    + simpl. split; [lia|]. exists p, q.
      split; [apply lookup_insert_eq|]. split.
      * eapply graph_mono; [reflexivity| |intros x Hx|exact Hga].
        -- lia.
        -- rewrite lookup_insert_ne by lia. apply Hfr2. lia.
      * eapply graph_mono; [| |intros x Hx|exact Hgb].
        -- lia.
        -- lia.
        -- rewrite lookup_insert_ne by lia. reflexivity.
    + simpl. lia.
    + intros x Hx. simpl. rewrite lookup_insert_ne by lia.
      rewrite Hfr2 by lia. apply Hfr1. exact Hx.
    + apply only_heap_alloc. eapply only_heap_trans; eassumption.
  - (* *ab *)
    simpl in Hr, Hwf, Hsz. injection Hr as <- <-.
    apply andb_true_iff in Hwf as [Hwa Hwb].
    destruct (render_cons a Hwa) as (c1 & r1 & Hra & _).
    destruct (render_cons b Hwb) as (c2 & r2 & Hrb & _).
    rewrite Hra, Hrb in Hseq. cbn [app] in Hseq.
    apply getch_seq_cons in Hseq as (f1 & Hg1 & Hseq).
    apply getch_seq_split in Hseq as (f2 & Hs1 & Hseq).
    apply getch_seq_cons in Hseq as (f3 & Hg2 & Hs2).
    destruct (IH a f1 c1 r1 f2 true s Hwa Hra Hs1 ltac:(lia) Hst)
      as (p & s1 & E1 & Hp1 & Hga & Hn1 & Hfr1 & Hoh1).
    pose proof (nodes_nonneg (denote a true)) as Hna.
    destruct (IH b f3 c2 r2 f' true s1 Hwb Hrb Hs2 ltac:(lia) ltac:(lia))
      as (q & s2 & E2 & Hp2 & Hgb & Hn2 & Hfr2 & Hoh2).
    pose proof (nodes_nonneg (denote b true)) as Hnb.
    rewrite parse_expr_prefix by (right; reflexivity).
    rewrite Hg1. rewrite (bind_Ret _ _ _ _ _ E1). rewrite Hg2.
    rewrite (bind_Ret _ _ _ _ _ E2).
    unfold partial_apply. rewrite (bind_Ret _ _ _ _ _ (new_Expr_run _ _ _ _)).
    eexists _, _. split; [reflexivity|].
    split; [lia|]. split; [|split; [|split]].
    + simpl. split; [lia|]. exists p, q.
      split; [apply lookup_insert_eq|]. split.
      * eapply graph_mono; [reflexivity| |intros x Hx|exact Hga].
        -- lia.
        -- rewrite lookup_insert_ne by lia. apply Hfr2. lia.
      * eapply graph_mono; [| |intros x Hx|exact Hgb].
        -- lia.
        -- lia.
        -- rewrite lookup_insert_ne by lia. reflexivity.
    + simpl. lia.
    + intros x Hx. simpl. rewrite lookup_insert_ne by lia.
      rewrite Hfr2 by lia. apply Hfr1. exact Hx.
    + apply only_heap_alloc. eapply only_heap_trans; eassumption.
  - (* a parenthesised list *)
    cbn [render well_formed syntax_size] in Hr, Hwf, Hsz. injection Hr as <- <-.
    rewrite parse_expr_paren.
    destruct (parse_manual_close_with_spec (parse_expr fuel) fuel xs fuel f
                (chr ")"%char) f' s IH) as (r & s' & E & Hp).
    + exact Hwf.
    + apply Forall_forall. intros x Hx.
      apply list_elem_of_In in Hx.
      assert (syntax_size x <= list_sum (map syntax_size xs))%nat; [|lia].
      clear -Hx. induction xs as [| y ys IHys]; [destruct Hx|].
      destruct Hx as [-> | Hx]; simpl; [lia|]. specialize (IHys Hx). lia.
    + assert (length xs <= list_sum (map syntax_size xs))%nat; [|lia].
      clear. induction xs as [| y ys IHys]; simpl; [lia|].
      assert (1 <= syntax_size y)%nat by (destruct y; simpl; lia). lia.
    + left. reflexivity.
    + exact Hseq.
    + exact Hst.
    + exists r, s'. split; [exact E|].
      destruct Hp as (H1 & H2 & H3 & H4 & H5).
      repeat split; assumption.
Qed.
End ParserCorrect.

(** A whole program is a list of operands ended by the end of the input. *)
Lemma parse_manual_close_program (T : Type) (ST : Stream T) xs fuel (f f' : T) s :
  forallb well_formed xs = true ->
  getch_seq f (length (concat (map render xs) ++ [EOF]))
  = (concat (map render xs) ++ [EOF], f') ->
  (S (list_sum (map syntax_size xs)) < fuel)%nat ->
  12 < next_alloc s ->
  exists r s',
    parse_manual_close fuel f EOF s = Ret (r, f') s' /\
    parsed s (denote (Paren xs) false) r s'.
Proof.
  intros Hwf Hseq Hfuel Hst. unfold parse_manual_close.
  apply (parse_manual_close_with_spec (parse_expr fuel) fuel xs fuel f EOF f' s
           (parse_expr_spec fuel) Hwf); try assumption.
  - apply Forall_forall. intros x Hx. apply list_elem_of_In in Hx.
    assert (syntax_size x <= list_sum (map syntax_size xs))%nat; [|lia].
    clear -Hx. induction xs as [| y ys IHys]; [destruct Hx|].
    destruct Hx as [-> | Hx]; simpl; [lia|]. specialize (IHys Hx). lia.
  - assert (length xs <= list_sum (map syntax_size xs))%nat; [|lia].
    clear. induction xs as [| y ys IHys]; simpl; [lia|].
    assert (1 <= syntax_size y)%nat by (destruct y; simpl; lia). lia.
  - right. reflexivity.
Qed.

(** C7 and the parser of one expression meet in [parse_manual_close]:
    a whole program is a list of operands ended by the end of the input. *)
Theorem parse_program_correct (T : Type) (ST : Stream T) xs fuel (f f' : T) s :
  forallb well_formed xs = true ->
  getch_seq f (length (concat (map render xs) ++ [EOF]))
  = (concat (map render xs) ++ [EOF], f') ->
  (S (list_sum (map syntax_size xs)) < fuel)%nat ->
  12 < next_alloc s ->
  exists r s',
    parse_manual_close fuel f EOF s = Ret (r, f') s' /\
    parsed s (denote (Paren xs) false) r s'.
Proof. exact (parse_manual_close_program T ST xs fuel f f' s). Qed.

(** ** Programs on the command line *)

(** The characters of a string, as [unsigned char] values. *)
Definition text (s : string) : list Z := map chr (String.list_ascii_of_string s).

Lemma char_at_text s i :
  char_at s i =
  match text s !! i with
  | Some n => if n <? 128 then n else n - 256
  | None => 0
  end.
Proof.
  unfold char_at, text. revert i.
  induction s as [| a s IH]; intros i; [destruct i; reflexivity|].
  destruct i as [| i]; [reflexivity|]. simpl. apply IH.
Qed.

(** Plain text: no NUL and nothing above 127. *)
Definition plain (cs : list Z) : Prop := Forall (fun c => 0 < c < 128) cs.

Lemma char_at_plain s i c :
  plain (text s) -> text s !! i = Some c -> char_at s i = c /\ c <> 0 /\ c <> EOF.
Proof.
  intros Hp Hc. rewrite char_at_text, Hc.
  pose proof (Forall_lookup_1 _ _ _ _ Hp Hc) as Hr. simpl in Hr.
  destruct (Z.ltb_spec c 128); [|lia]. unfold EOF. lia.
Qed.

Lemma char_at_end s i :
  (length (text s) <= i)%nat -> char_at s i = 0.
Proof.
  intros Hi. rewrite char_at_text, lookup_ge_None_2 by exact Hi. reflexivity.
Qed.

Lemma string_stream_getch_seq s (pos : nat) cs :
  plain (text s) ->
  cs = take (length cs) (drop pos (text s)) ->
  getch_seq (mkStringStream s pos) (length cs)
  = (cs, mkStringStream s (pos + length cs)).
Proof.
  intros Hp. revert pos. induction cs as [| c cs IH]; intros pos Hcs.
  - simpl. rewrite Nat.add_0_r. reflexivity.
  - cbn [length] in *. rewrite getch_seq_S.
    assert (Hc : text s !! pos = Some c).
    { destruct (drop pos (text s)) as [| d ds] eqn:Hd; [discriminate|].
      simpl in Hcs. injection Hcs as <- _.
      rewrite <- (Nat.add_0_r pos), <- lookup_drop, Hd. reflexivity. }
    destruct (char_at_plain s pos c Hp Hc) as (Hch & Hnz & _).
    cbn [getch StringStream_Stream str p]. rewrite Hch.
    destruct (Z.eqb_spec c 0) as [|_]; [contradiction|].
    rewrite (IH (S pos)).
    + replace (S pos + length cs)%nat with (pos + S (length cs))%nat by lia.
      reflexivity.
    + rewrite (drop_S _ _ _ Hc) in Hcs. simpl in Hcs.
      injection Hcs as Hcs. exact Hcs.
Qed.

Lemma string_stream_eof s (pos n : nat) :
  (length (text s) <= pos)%nat ->
  getch_seq (mkStringStream s pos) n = (replicate n EOF, mkStringStream s pos).
Proof.
  intros Hp. induction n as [| n IH]; [reflexivity|].
  rewrite getch_seq_S. cbn [getch StringStream_Stream str p].
  rewrite (char_at_end s pos Hp). cbn [Z.eqb]. rewrite IH. reflexivity.
Qed.

(** A [StringStream] delivers the characters of a plain string in order,
    one per call and without skipping any (blanks included), and from the
    end of the string on it delivers [EOF] without moving; [ungetch] of the
    character just read puts the stream back where it was. *)
Theorem string_stream_delivers s :
  plain (text s) ->
  (forall n,
     getch_seq (mkStringStream s 0) (length (text s) + n)
     = (text s ++ replicate n EOF, mkStringStream s (length (text s)))) /\
  (forall pos c f1,
     getch (mkStringStream s pos) = (c, f1) ->
     ungetch c f1 = mkStringStream s pos).
Proof.
  intros Hp. split.
  - intros n. rewrite getch_seq_app.
    rewrite (string_stream_getch_seq s 0 (text s) Hp)
      by (rewrite drop_0, firstn_all; reflexivity).
    cbn [Nat.add]. rewrite (string_stream_eof s _ n) by lia. reflexivity.
  - intros pos c f1. cbn [getch ungetch StringStream_Stream str p].
    destruct (text s !! pos) as [d|] eqn:Hd.
    + destruct (char_at_plain s pos d Hp Hd) as (Hch & Hnz & Hne).
      rewrite Hch. destruct (Z.eqb_spec d 0) as [|_]; [contradiction|].
      intros E. injection E as <- <-.
      destruct (Z.eqb_spec d EOF) as [|_]; [contradiction|]. reflexivity.
    + rewrite (char_at_end s pos) by (apply lookup_ge_None; exact Hd).
      cbn [Z.eqb]. intros E. injection E as <- <-. reflexivity.
Qed.

Lemma string_stream_delivers_witness :
  getch_seq (mkStringStream "k k" 0) 5
  = ([chr "k"%char; chr " "%char; chr "k"%char; EOF; EOF],
     mkStringStream "k k" 3).
Proof.
  apply (proj1 (string_stream_delivers "k k" ltac:(repeat constructor)) 2%nat).
Defined.

Lemma parse_program_correct_witness :
  exists r s',
    parse_manual_close 12 (mkStringStream "`k(si)*ii" 0) EOF (initial_state [])
    = Ret (r, mkStringStream "`k(si)*ii" 9) s' /\
    parsed (initial_state [])
      (Node (Node (Leaf cK) (Node (Leaf cS) (Leaf cI)))
         (Node (Leaf Iota) (Leaf Iota))) r s'.
Proof.
  apply (parse_program_correct StringStream _
           [Tick (Atom (chr "k"%char))
              (Paren [Atom (chr "s"%char); Atom (chr "i"%char)]);
            Star (Atom (chr "i"%char)) (Atom (chr "i"%char))]
           12 (mkStringStream "`k(si)*ii" 0)
           (mkStringStream "`k(si)*ii" 9) (initial_state [])).
  - reflexivity.
  - reflexivity.
  - simpl. lia.
  - simpl. unfold space1. lia.
Defined.

(** The characters [parse_expr] knows. *)
Definition starts_expr (c : Z) : bool :=
  (c =? chr "`"%char) || (c =? chr "*"%char) || (c =? chr "("%char) ||
  (c =? chr ")"%char) || is_atom c || is_digit c.

Lemma parse_expr_invalid {T} `{Stream T} fuel (f : T) c flag :
  starts_expr c = false ->
  parse_expr (S fuel) f c flag = error "Invalid character!" f.
Proof.
  unfold starts_expr, is_atom, is_digit. rewrite !orb_false_iff.
  intros (((((H1 & H2) & H3) & H4) & (((((H5 & H6) & H7) & H8) & H9) & H10))
          & (H11 & H12)).
  cbn [parse_expr]. unfold is_digit.
  rewrite H1, H2, H3, H4, H5, H6, H7, H8, H9, H10, H11, H12. reflexivity.
Qed.

(** What [StringStream::error] prints: the message, the program, and a
    caret under the character before the read pointer. *)
Definition command_line_error (msg : string) (s : string) (pos : nat)
  : list string :=
  [ "While parsing command line: " +:+ msg +:+ nl +:+ s +:+ nl;
    spaces (Nat.pred pos);
    "^" +:+ nl ].

Lemma string_stream_error {X} msg s pos st :
  @error _ StringStream_Stream X msg (mkStringStream s pos) st
  = Exit 1 (with_stderr (stderr_ st ++ command_line_error msg s pos) st).
Proof.
  cbn [error StringStream_Stream]. unfold fputs_stderr, modify.
  rewrite !bind_unfold. unfold exit, with_stderr, command_line_error. simpl.
  rewrite <- !app_assoc. reflexivity.
Qed.

Lemma parsed_stderr s t r s' : parsed s t r s' -> stderr_ s' = stderr_ s.
Proof. intros (_ & _ & _ & _ & ->). reflexivity. Qed.

(** Syntax errors in a program given with [-e]: after any number of
    complete expressions, a character that cannot start an expression (a
    blank, say), a closing parenthesis that closes nothing, or the end of
    the text inside a parenthesis end the process with exit code 1; the
    diagnostic names the error, repeats the program and puts a caret under
    the offending character, or under the last one when the text ends too
    early. *)
Theorem command_line_syntax_errors xs txt c rest fuel s :
  forallb well_formed xs = true ->
  plain (text txt) ->
  (S (S (list_sum (map syntax_size xs))) < fuel)%nat ->
  12 < next_alloc s ->
  (text txt = concat (map render xs) ++ c :: rest ->
   starts_expr c = false ->
   exists s',
     parse_manual_close fuel (mkStringStream txt 0) EOF s = Exit 1 s' /\
     stderr_ s' = stderr_ s ++
       command_line_error "Invalid character!" txt
         (S (length (concat (map render xs))))) /\
  (text txt = concat (map render xs) ++ chr ")"%char :: rest ->
   exists s',
     parse_manual_close fuel (mkStringStream txt 0) EOF s = Exit 1 s' /\
     stderr_ s' = stderr_ s ++
       command_line_error "Unmatched trailing close-parenthesis!" txt
         (S (length (concat (map render xs))))) /\
  (text txt = chr "("%char :: concat (map render xs) ->
   exists s',
     parse_manual_close fuel (mkStringStream txt 0) EOF s = Exit 1 s' /\
     stderr_ s' = stderr_ s ++
       command_line_error "Premature end of program!" txt
         (S (length (concat (map render xs))))).
Proof.
  intros Hwf Hplain Hfuel Hst.
  assert (Hsz : forall bound, (list_sum (map syntax_size xs) <= bound)%nat ->
                  Forall (fun x => (syntax_size x <= bound)%nat) xs).
  { intros bound Hb. apply Forall_forall. intros x Hx.
    apply list_elem_of_In in Hx.
    assert (syntax_size x <= list_sum (map syntax_size xs))%nat; [|lia].
    clear -Hx. induction xs as [| y ys IHys]; [destruct Hx|].
    destruct Hx as [-> | Hx]; simpl; [lia|]. specialize (IHys Hx). lia. }
  assert (Hlen : (length xs <= list_sum (map syntax_size xs))%nat).
  { clear. induction xs as [| y ys IHys]; simpl; [lia|].
    assert (1 <= syntax_size y)%nat by (destruct y; simpl; lia). lia. }
  set (pre := concat (map render xs)) in *.
  (* the top-level loop up to the offending character *)
  assert (Htop : forall d rest0,
            text txt = pre ++ d :: rest0 ->
            exists e1 s1,
              parse_manual_close_loop (parse_expr fuel) fuel
                (mkStringStream txt 0) 0 s
              = parse_manual_close_loop (parse_expr fuel)
                  (S (fuel - length xs - 1))
                  (mkStringStream txt (length pre)) e1 s1 /\
              stderr_ s1 = stderr_ s /\
              getch (mkStringStream txt (length pre))
              = (d, mkStringStream txt (S (length pre)))).
  { intros d rest0 Htext.
    destruct (parse_manual_close_operands (parse_expr fuel) fuel xs
                (S (fuel - length xs - 1)) (mkStringStream txt 0)
                (mkStringStream txt (length pre)) s (parse_expr_spec fuel)
                Hwf (Hsz fuel ltac:(lia)))
      as (e1 & s1 & E & Hp); [|exact Hst|].
    - fold pre. apply (string_stream_getch_seq txt 0 pre Hplain).
      rewrite drop_0, Htext, take_app_length. reflexivity.
    - replace (length xs + S (fuel - length xs - 1))%nat with fuel in E
        by lia.
      exists e1, s1. split; [exact E|].
      split; [eapply parsed_stderr; exact Hp|].
      assert (Hd : text txt !! length pre = Some d).
      { rewrite Htext, lookup_app_r by lia.
        rewrite Nat.sub_diag. reflexivity. }
      destruct (char_at_plain txt _ d Hplain Hd) as (Hch & Hnz & _).
      cbn [getch StringStream_Stream str p].
      rewrite Hch. destruct (Z.eqb_spec d 0); [contradiction | reflexivity]. }
  split; [|split].
  - intros Htext Hc.
    destruct (Htop c rest Htext) as (e1 & s1 & E & Herr & Hg).
    unfold parse_manual_close, parse_manual_close_with.
    rewrite bind_unfold, E. cbn [parse_manual_close_loop]. rewrite Hg.
    assert (Hgo : negb (c =? chr ")"%char) && negb (c =? EOF) = true).
    { unfold starts_expr in Hc. rewrite !orb_false_iff in Hc.
      destruct Hc as (((((_ & _) & _) & Hc) & _) & _). rewrite Hc.
      assert (Hd : text txt !! length pre = Some c).
      { rewrite Htext, lookup_app_r by lia.
        rewrite Nat.sub_diag. reflexivity. }
      destruct (char_at_plain txt _ c Hplain Hd) as (_ & _ & Hne).
      destruct (Z.eqb_spec c EOF); [contradiction | reflexivity]. }
    rewrite Hgo.
    destruct fuel as [| fuel']; [lia|].
    rewrite (parse_expr_invalid fuel' _ c false Hc).
    rewrite bind_unfold, string_stream_error.
    eexists. split; [reflexivity|]. simpl. rewrite Herr. reflexivity.
  - intros Htext.
    destruct (Htop _ rest Htext) as (e1 & s1 & E & Herr & Hg).
    unfold parse_manual_close, parse_manual_close_with.
    rewrite bind_unfold, E. cbn [parse_manual_close_loop]. rewrite Hg.
    rewrite Z.eqb_refl. cbn [negb andb mret M_ret ret].
    change (negb (chr ")"%char =? EOF)) with true.
    change (chr ")"%char =? EOF) with false. cbv iota.
    rewrite bind_unfold, string_stream_error.
    eexists. split; [reflexivity|]. simpl. rewrite Herr. reflexivity.
  - intros Htext.
    destruct fuel as [| fuel']; [lia|].
    (* the list after the parenthesis *)
    destruct (parse_manual_close_operands (parse_expr fuel') fuel' xs
                (S (fuel' - length xs - 1)) (mkStringStream txt 1)
                (mkStringStream txt (1 + length pre)) s
                (parse_expr_spec fuel') Hwf (Hsz fuel' ltac:(lia)))
      as (e1 & s1 & E & Hp); [|exact Hst|].
    { fold pre. apply (string_stream_getch_seq txt 1 pre Hplain).
      rewrite Htext. cbn [drop]. rewrite drop_0, firstn_all. reflexivity. }
    replace (length xs + S (fuel' - length xs - 1))%nat with fuel' in E
      by lia.
    assert (Hend : getch (mkStringStream txt (1 + length pre))
                   = (EOF, mkStringStream txt (1 + length pre))).
    { cbn [getch StringStream_Stream str p].
      rewrite char_at_end; [reflexivity|].
      rewrite Htext. simpl. lia. }
    assert (Hopen : getch (mkStringStream txt 0)
                    = (chr "("%char, mkStringStream txt 1)).
    { assert (Hd : text txt !! 0%nat = Some (chr "("%char))
        by (rewrite Htext; reflexivity).
      destruct (char_at_plain txt _ _ Hplain Hd) as (Hch & _ & _).
      cbn [getch StringStream_Stream str p].
      rewrite Hch. reflexivity. }
    assert (Hinner : exists s',
              parse_expr (S fuel') (mkStringStream txt 1) (chr "("%char) false
                s = Exit 1 s' /\
              stderr_ s' = stderr_ s ++
                command_line_error "Premature end of program!" txt
                  (S (length pre))).
    { rewrite parse_expr_paren. unfold parse_manual_close_with.
      rewrite bind_unfold, E. cbn [parse_manual_close_loop]. rewrite Hend.
      change (negb (EOF =? chr ")"%char) && negb (EOF =? EOF)) with false.
      cbv iota. cbn [mret M_ret ret].
      change (negb (EOF =? chr ")"%char)) with true. cbv iota.
      rewrite Z.eqb_refl.
      rewrite bind_unfold, string_stream_error.
      eexists. split; [reflexivity|]. simpl.
      rewrite (parsed_stderr _ _ _ _ Hp). reflexivity. }
    destruct Hinner as (s' & Hinner & Herr).
    exists s'. split; [|exact Herr].
    unfold parse_manual_close, parse_manual_close_with.
    rewrite bind_unfold. cbn [parse_manual_close_loop]. rewrite Hopen.
    change (negb (chr "("%char =? chr ")"%char) && negb (chr "("%char =? EOF))
      with true. cbv iota.
    rewrite bind_unfold, Hinner. reflexivity.
Qed.

Lemma command_line_syntax_errors_witness :
  exists s',
    parse_manual_close 5 (mkStringStream "k k" 0) EOF (initial_state [])
    = Exit 1 s' /\
    stderr_ s' = command_line_error "Invalid character!" "k k" 2.
Proof.
  destruct (command_line_syntax_errors [Atom (chr "k"%char)] "k k"
              (chr " "%char) [chr "k"%char] 5 (initial_state []))
    as (Hbad & _ & _).
  - reflexivity.
  - repeat constructor.
  - simpl. lia.
  - simpl. unfold space1. lia.
  - apply Hbad; reflexivity.
Defined.

(** ** Program files *)

(** The model of a [FILE*] opened for reading is the list of the bytes not
    read yet.  [getc] takes the first one, or returns [EOF]; [ungetc] puts a
    character back, and does nothing with [EOF]. *)
Definition getc (bytes : list Z) : Z * list Z :=
  match bytes with
  | [] => (EOF, [])
  | b :: rest => (b, rest)
  end.

Definition ungetc (ch : Z) (bytes : list Z) : list Z :=
  if ch =? EOF then bytes else ch mod 256 :: bytes.

(** [isspace] in the C locale, which the program never leaves. *)
Definition isspace (ch : Z) : bool := (ch =? 32) || ((9 <=? ch) && (ch <=? 13)).

Definition circular_buf_size : Z := 256.

(** [class File].  [circular_buf] holds [circular_buf_size] characters, as
    [unsigned char] values; the constructor leaves it uninitialised, so its
    first contents are a parameter.  [cur_pos] and [last_newline] are [int]s
    that count characters: the model follows them while they stay below
    2^31, and [cur_pos] while it is not negative (it is 0 after the
    constructor, and the parser calls [ungetch] only after a [getch]). *)
Record File : Type := mkFile {
  file : list Z;
  filename : string;
  circular_buf : list Z;
  last_newline : Z;
  cur_pos : Z
}.

Definition File_new (f : list Z) (name : string) (junk : list Z) : File :=
  mkFile f name junk 0 0.

(** The inner [do ... while (ch != '\n' && ch != EOF)] of [File::getch],
    with [getc] written out: what it stops on and the bytes left. *)
Fixpoint skip_comment (bytes : list Z) : Z * list Z :=
  match bytes with
  | [] => (EOF, [])
  | ch :: rest =>
      if negb (ch =? 10) && negb (ch =? EOF) then skip_comment rest
      else (ch, rest)
  end.

(** The outer [do ... while (isspace(ch))].  Every turn but the last takes
    at least one byte, so the bound [File_getch] gives is never reached. *)
Fixpoint File_getch_loop (fuel : nat) (f : File) : Z * File :=
  match fuel with
  | O => (EOF, f)
  | S fuel' =>
      let '(ch, bytes) := getc (file f) in
      let buf :=
        <[Z.to_nat (Z.rem (cur_pos f) circular_buf_size) := ch mod 256]>
          (circular_buf f) in
      let cur := cur_pos f + 1 in
      let '(ch, bytes) :=
        if ch =? chr "#"%char then skip_comment bytes else (ch, bytes) in
      let last := if ch =? 10 then cur else last_newline f in
      let f := mkFile bytes (filename f) buf last cur in
      if isspace ch then File_getch_loop fuel' f else (ch, f)
  end.

Definition File_getch (f : File) : Z * File :=
  File_getch_loop (S (length (file f))) f.

Definition File_ungetch (ch : Z) (f : File) : File :=
  mkFile (ungetc ch (file f)) (filename f) (circular_buf f) (last_newline f)
    (cur_pos f - 1).

Definition dquote : string := String (Ascii.ascii_of_nat 34) EmptyString.

(** [fputs(s, stdout)] and [putc(c, stderr)]. *)
Definition fputs_stdout (s : string) : M unit :=
  modify (fun st => with_stdout (stdout_ st ++ text s) st).

Definition putc_stderr (c : Z) : M unit :=
  fputs_stderr (String (Ascii.ascii_of_nat (Z.to_nat (c mod 256))) EmptyString).

(** [circular_buf[i % circular_buf_size]] *)
Definition read_buf (f : File) (i : Z) : M Z :=
  let j := Z.rem i circular_buf_size in
  if j <? 0 then fault
  else match circular_buf f !! Z.to_nat j with
       | Some c => mret c
       | None => fault
       end.

Definition File_error {X} (msg : string) (f : File) : M X :=
  fputs_stderr ("While parsing " +:+ dquote +:+ filename f +:+ dquote
                +:+ ": " +:+ msg +:+ nl);;
  from ← (if cur_pos f - last_newline f <? circular_buf_size
          then mret (last_newline f)
          else fputs_stdout "...";;
               mret (cur_pos f - circular_buf_size + 1));
  for_loop (Z.to_nat (cur_pos f - from)) from
    (fun i => c ← read_buf f i; putc_stderr c);;
  fputs_stderr (" <--" +:+ nl);;
  exit 1.

#[global] Instance File_Stream : Stream File := {
  getch := File_getch;
  ungetch := File_ungetch;
  error X := @File_error X
}.

(** ** The command line *)

Definition usage_text : string :=
  "usage: lazy [-b] { -e program | program-file.lazy } *" +:+ nl +:+
  nl +:+
  "   -b           puts stdin and stdout into binary mode on systems that care"
  +:+ nl +:+
  "                (i.e. Windows)" +:+ nl +:+
  nl +:+
  "   -e program   takes program code from the command line (like Perl's -e"
  +:+ nl +:+
  "                switch)" +:+ nl +:+
  nl +:+
  "   program-file.lazy   name of file containing program code" +:+ nl +:+
  nl +:+
  " If more than one -e or filename argument is given, the programs will be"
  +:+ nl +:+
  " combined by functional composition (but in Unix pipe order, not mathematical-"
  +:+ nl +:+
  " notation order). If no -e or filename argument is given, the result is a"
  +:+ nl +:+
  " degenerate composition, i.e. the identity function." +:+ nl.

Definition usage {X} : M X := fputs_stdout usage_text;; exit 0.

(** The loop of [main] over [argv[1..]].  [fopen] is a function from file
    names to the contents of the files that can be opened for reading;
    [junk] is what the buffer of a [File] holds before anything is read.
    A [File] on [stdin] shares the stream with the program's own input: the
    bytes the parser leaves unread stay on [stdin]. *)
Fixpoint main_programs (fuel : nat) (fopen : string -> option (list Z))
    (junk : list Z) (args : list string) (e : Z) : M Z :=
  match args with
  | [] => mret e
  | a :: rest =>
      if char_at a 0 =? chr "-"%char then
        let c := char_at a 1 in
        if c =? 0 then
          st ← get;
          '(e1, f) ← parse_manual_close fuel
                       (File_new (stdin_ st) "(standard input)" junk) EOF;
          modify (with_stdin (file f));;
          e ← compose e1 e;
          main_programs fuel fopen junk rest e
        else if c =? chr "b"%char then main_programs fuel fopen junk rest e
        else if c =? chr "e"%char then
          match rest with
          | [] => usage
          | prog :: rest' =>
              e ← append_program fuel e (mkStringStream prog 0);
              main_programs fuel fopen junk rest' e
          end
        else usage
      else
        match fopen a with
        | None =>
            fputs_stderr ("Unable to open the file " +:+ dquote +:+ a
                          +:+ dquote +:+ "." +:+ nl);;
            exit 1
        | Some bytes =>
            e ← append_program fuel e (File_new bytes a junk);
            main_programs fuel fopen junk rest e
        end
  end.

(** [main(argc, argv)], [args] being [argv[1..argc-1]]. *)
Definition main_argv (fuel : nat) (fopen : string -> option (list Z))
    (junk : list Z) (args : list string) : M unit :=
  init_church_chars fuel;;
  e ← main_programs fuel fopen junk args cI;
  lr ← new_Expr Tag.LazyRead 0 0;
  top ← partial_apply e lr;
  write_root toplevel_root top;;
  main_loop fuel fuel.

(** ** What a program file delivers *)

(** The text of a file as the parser sees it: without blanks and without
    comments, which run from a [#] to the end of the line. *)
Fixpoint strip_from (in_comment : bool) (bytes : list Z) : list Z :=
  match bytes with
  | [] => []
  | b :: rest =>
      if in_comment then strip_from (negb (b =? 10)) rest
      else if b =? chr "#"%char then strip_from true rest
      else if isspace b then strip_from false rest
      else b :: strip_from false rest
  end.

Definition strip (bytes : list Z) : list Z := strip_from false bytes.

Definition is_byte (b : Z) : Prop := 0 <= b < 256.

Lemma skip_comment_spec bytes :
  Forall is_byte bytes ->
  (exists rest, skip_comment bytes = (10, rest) /\
                strip_from true bytes = strip rest /\
                Forall is_byte rest /\
                (length rest < length bytes)%nat) \/
  (skip_comment bytes = (EOF, []) /\ strip_from true bytes = []).
Proof.
  induction bytes as [| b bytes IH]; intros Hb.
  - right. split; reflexivity.
  - inversion Hb as [| ? ? Hb1 Hb2]; subst. cbn [skip_comment strip_from].
    destruct (Z.eqb_spec b 10) as [-> | Hne].
    + left. exists bytes. cbn. repeat split; [exact Hb2 | lia].
    + assert (HnE : (b =? EOF) = false).
      { apply Z.eqb_neq. unfold is_byte, EOF in *. lia. }
      rewrite HnE. cbn [negb andb].
      destruct (IH Hb2) as [(rest & E & Hs & Hr & Hl) | [E Hs]].
      * left. exists rest. repeat split; try assumption. simpl. lia.
      * right. split; assumption.
Qed.

Lemma File_getch_loop_spec fuel : forall f,
  Forall is_byte (file f) ->
  (length (file f) < fuel)%nat ->
  exists f',
    File_getch_loop fuel f
    = (match strip (file f) with [] => EOF | c :: _ => c end, f') /\
    strip (file f') = tail (strip (file f)) /\
    Forall is_byte (file f') /\
    (length (file f') <= length (file f))%nat /\
    filename f' = filename f.
Proof.
  induction fuel as [| fuel IH]; intros f Hb Hfuel; [lia|].
  destruct f as [bytes name buf last cur]. cbn [file filename] in *.
  cbn [File_getch_loop file filename circular_buf last_newline cur_pos].
  destruct bytes as [| b bytes].
  - cbn [getc]. change (EOF =? chr "#"%char) with false. cbv iota.
    change (EOF =? 10) with false. change (isspace EOF) with false. cbv iota.
    eexists. split; [reflexivity|]. cbn. repeat split; [constructor | lia].
  - cbn [getc]. inversion Hb as [| ? ? Hb1 Hb2]; subst.
    unfold strip. cbn [strip_from].
    destruct (Z.eqb_spec b (chr "#"%char)) as [-> | Hnc].
    + (* a comment *)
      destruct (skip_comment_spec bytes Hb2)
        as [(rest & E & Hs & Hr & Hl) | [E Hs]]; rewrite E, Hs.
      * change (10 =? 10) with true. change (isspace 10) with true. cbv iota.
        match goal with
        | |- context [File_getch_loop fuel ?g] =>
            destruct (IH g) as (f' & E' & Hs' & Hb' & Hl' & Hn');
              [exact Hr | simpl in *; lia |]
        end.
        exists f'. split; [exact E'|]. cbn [file filename length] in *.
        repeat split; try assumption. lia.
      * change (EOF =? 10) with false. change (isspace EOF) with false.
        cbv iota. eexists. split; [reflexivity|]. cbn.
        repeat split; [constructor | lia].
    + destruct (isspace b) eqn:Hsp.
      * match goal with
        | |- context [File_getch_loop fuel ?g] =>
            destruct (IH g) as (f' & E' & Hs' & Hb' & Hl' & Hn');
              [exact Hb2 | simpl in *; lia |]
        end.
        exists f'. split; [exact E'|]. cbn [file filename length] in *.
        repeat split; try assumption. lia.
      * eexists. split; [reflexivity|]. cbn [file filename tail].
        repeat split; [exact Hb2 | simpl; lia].
Qed.

Lemma File_getch_spec f :
  Forall is_byte (file f) ->
  exists f',
    getch f = (match strip (file f) with [] => EOF | c :: _ => c end, f') /\
    strip (file f') = tail (strip (file f)) /\
    Forall is_byte (file f') /\
    filename f' = filename f.
Proof.
  intros Hb.
  destruct (File_getch_loop_spec (S (length (file f))) f Hb ltac:(lia))
    as (f' & E & Hs & Hb' & _ & Hn).
  exists f'. repeat split; assumption.
Qed.

Lemma File_getch_seq cs : forall f n,
  Forall is_byte (file f) ->
  strip (file f) = cs ->
  exists f',
    getch_seq f (length cs + n) = (cs ++ replicate n EOF, f') /\
    filename f' = filename f.
Proof.
  induction cs as [| c cs IH]; intros f n Hb Hs.
  - induction n as [| n IHn] in f, Hb, Hs |- *.
    + exists f. split; reflexivity.
    + destruct (File_getch_spec f Hb) as (f1 & E & Hs1 & Hb1 & Hn1).
      rewrite Hs in E, Hs1. cbn [tail] in Hs1.
      destruct (IHn f1 Hb1 Hs1) as (f' & E' & Hn').
      exists f'. cbn [length Nat.add] in *. rewrite getch_seq_S, E, E'.
      split; [reflexivity | congruence].
  - destruct (File_getch_spec f Hb) as (f1 & E & Hs1 & Hb1 & Hn1).
    rewrite Hs in E, Hs1. cbn [tail] in Hs1.
    destruct (IH f1 n Hb1 Hs1) as (f' & E' & Hn').
    exists f'. cbn [length Nat.add]. rewrite getch_seq_S, E, E'.
    split; [reflexivity | congruence].
Qed.

Lemma strip_from_clean c bytes :
  Forall (fun b => isspace b = false /\ b <> chr "#"%char)
    (strip_from c bytes).
Proof.
  revert c. induction bytes as [| b bytes IH]; intros c; [constructor|].
  cbn [strip_from]. destruct c; [apply IH|].
  destruct (Z.eqb_spec b (chr "#"%char)); [apply IH|].
  destruct (isspace b) eqn:Hsp; [apply IH|].
  constructor; [split; assumption | apply IH].
Qed.

(** A program file is read as its text without blanks and comments:
    [File::getch] delivers the bytes of the file that are neither white
    space nor part of a comment (a [#] and everything up to the end of its
    line), in order, and [EOF] from then on. *)
Theorem file_stream_delivers bytes name junk n :
  Forall is_byte bytes ->
  (exists f',
     getch_seq (File_new bytes name junk) (length (strip bytes) + n)
     = (strip bytes ++ replicate n EOF, f')) /\
  Forall (fun b => isspace b = false /\ b <> chr "#"%char) (strip bytes).
Proof.
  intros Hb. split; [|apply strip_from_clean].
  destruct (File_getch_seq (strip bytes) (File_new bytes name junk) n Hb
              eq_refl) as (f' & E & _).
  exists f'. exact E.
Qed.

(** The file that holds [`k # K] on its first line and [ i] on its
    second. *)
Definition example_file : list Z :=
  [chr "`"%char; chr "k"%char; chr " "%char; chr "#"%char; chr " "%char;
   chr "K"%char; 10; chr " "%char; chr "i"%char].

Lemma example_file_bytes : Forall is_byte example_file.
Proof.
  unfold example_file.
  repeat (constructor; [split; [discriminate | reflexivity]|]). constructor.
Qed.

Lemma file_stream_delivers_witness :
  exists f',
    getch_seq (File_new example_file "example.lazy" (replicate 256 0)) 4
    = ([chr "`"%char; chr "k"%char; chr "i"%char; EOF], f').
Proof.
  apply (proj1 (file_stream_delivers example_file "example.lazy" (replicate 256 0) 1
                  example_file_bytes)).
Defined.

(** A program file parses as its text without blanks and comments does. *)
Theorem file_program_correct xs bytes name junk fuel s :
  Forall is_byte bytes ->
  forallb well_formed xs = true ->
  strip bytes = concat (map render xs) ->
  (S (list_sum (map syntax_size xs)) < fuel)%nat ->
  12 < next_alloc s ->
  exists r f' s',
    parse_manual_close fuel (File_new bytes name junk) EOF s
    = Ret (r, f') s' /\
    parsed s (denote (Paren xs) false) r s'.
Proof.
  intros Hb Hwf Hs Hfuel Hst.
  destruct (File_getch_seq (strip bytes) (File_new bytes name junk) 1 Hb
              eq_refl) as (f' & E & _).
  destruct (parse_manual_close_program File _ xs fuel (File_new bytes name junk)
              f' s Hwf) as (r & s' & Er & Hp); [|exact Hfuel|exact Hst|].
  - rewrite <- Hs. rewrite length_app. exact E.
  - exists r, f', s'. split; assumption.
Qed.

Lemma file_program_correct_witness :
  exists r f' s',
    parse_manual_close 5 (File_new example_file "example.lazy" (replicate 256 0)) EOF
      (initial_state [])
    = Ret (r, f') s' /\
    parsed (initial_state []) (Node (Leaf cK) (Leaf cI)) r s'.
Proof.
  apply (file_program_correct
           [Tick (Atom (chr "k"%char)) (Atom (chr "i"%char))]
           example_file "example.lazy" (replicate 256 0) 5 (initial_state [])).
  - exact example_file_bytes.
  - reflexivity.
  - reflexivity.
  - simpl. lia.
  - simpl. unfold space1. lia.
Defined.

(** ** Errors on the command line *)

Section Cache_keeps.
Context {A : Type} (f : state -> A) `{!Outside_heap f}.

Lemma heap_keeps_make_church_char fuel ch : keeps f (make_church_char fuel ch).
Proof.
  assert (Hrd : forall i, keeps f (read_char i)).
  { intros i s x s'. unfold read_char. destruct (i <? 0); [discriminate|].
    destruct (cached_church_chars s !! Z.to_nat i); [|discriminate].
    intros E. injection E as _ <-. reflexivity. }
  assert (Hwr : forall i v, keeps f (write_char i v)).
  { intros i v s x s'. unfold write_char. destruct (i <? 0); [discriminate|].
    destruct (cached_church_chars s !! Z.to_nat i); [|discriminate].
    intros E. injection E as _ <-. apply oh_chars. }
  revert ch. induction fuel as [| fuel IH]; intros ch; [discriminate|].
  cbn [make_church_char].
  apply keeps_bind; [apply Hrd | intros p].
  apply keeps_bind; [|intros _; apply Hrd].
  destruct (p =? 0); [|apply keeps_ret].
  apply keeps_bind.
  { intros s x s' E. injection E as _ <-. apply oh_next_alloc. }
  intros n. apply keeps_bind; [apply IH | intros q].
  apply keeps_bind; [|intros _; apply Hwr].
  apply keeps_modify. intros s. apply oh_mem.
Qed.

Lemma heap_keeps_init fuel : keeps f (init_church_chars fuel).
Proof.
  unfold init_church_chars. apply keeps_for_loop. intros j.
  apply keeps_bind; [apply heap_keeps_make_church_char | intros _].
  apply keeps_ret.
Qed.
End Cache_keeps.

(** The state [main] is in when it turns to its arguments. *)
Lemma init_runs fuel input :
  exists s0,
    init_church_chars (S (S fuel)) (initial_state input) = Ret tt s0 /\
    cache_built (initial_state input) 257 s0 /\
    stdin_ s0 = input /\ stdout_ s0 = [] /\ stderr_ s0 = [].
Proof.
  destruct (cache_built_loop fuel (initial_state input) 257 0
              (initial_state input) eq_refl (cache_built_start input))
    as (s0 & E & Hb).
  exists s0. split; [exact E|]. split; [exact Hb|].
  split; [exact (heap_keeps_init stdin_ _ _ _ _ E)|].
  split; [exact (heap_keeps_init stdout_ _ _ _ _ E)|].
  exact (heap_keeps_init stderr_ _ _ _ _ E).
Qed.

(** Arguments that [main] skips: a dash followed by a [b]. *)
Definition binary_flag (a : string) : Prop :=
  char_at a 0 = chr "-"%char /\ char_at a 1 = chr "b"%char.

Lemma main_programs_skip fuel fopen junk pre rest e :
  Forall binary_flag pre ->
  main_programs fuel fopen junk (pre ++ rest) e
  = main_programs fuel fopen junk rest e.
Proof.
  induction 1 as [| a pre [H0 H1] _ IH]; [reflexivity|].
  cbn [app main_programs]. rewrite H0, H1. exact IH.
Qed.

(** A bad command line is not an error for the shell: after any number of
    [-b] flags, an option other than [-], [-b] and [-e], or an [-e] with
    nothing after it, makes [main] print the usage text on standard output
    and end the process with exit code 0. *)
Theorem usage_exits_zero fuel fopen junk pre a rest input :
  Forall binary_flag pre ->
  char_at a 0 = chr "-"%char ->
  (char_at a 1 <> 0 /\ char_at a 1 <> chr "b"%char /\
   char_at a 1 <> chr "e"%char) \/
  (char_at a 1 = chr "e"%char /\ rest = []) ->
  exists s',
    main_argv (S (S fuel)) fopen junk (pre ++ a :: rest) (initial_state input)
    = Exit 0 s' /\
    stdout_ s' = text usage_text /\ stderr_ s' = [].
Proof.
  intros Hpre Ha Hbad.
  destruct (init_runs fuel input) as (s0 & E0 & _ & _ & Hout & Herr).
  unfold main_argv. rewrite (bind_Ret _ _ _ _ _ E0).
  rewrite bind_unfold, main_programs_skip by exact Hpre.
  cbn [main_programs]. rewrite Ha, Z.eqb_refl.
  assert (Husage : forall X, @usage X s0
            = Exit 0 (with_stdout (stdout_ s0 ++ text usage_text) s0))
    by reflexivity.
  destruct Hbad as [(H0 & Hb & He) | [He ->]].
  - destruct (Z.eqb_spec (char_at a 1) 0); [contradiction|].
    destruct (Z.eqb_spec (char_at a 1) (chr "b"%char)); [contradiction|].
    destruct (Z.eqb_spec (char_at a 1) (chr "e"%char)); [contradiction|].
    rewrite Husage. eexists. split; [reflexivity|].
    cbn [stdout_ stderr_ with_stdout]. rewrite Hout. split; [reflexivity | exact Herr].
  - rewrite He. cbn [Z.eqb]. change (chr "e"%char =? 0) with false.
    change (chr "e"%char =? chr "b"%char) with false.
    change (chr "e"%char =? chr "e"%char) with true. cbv iota.
    rewrite Husage. eexists. split; [reflexivity|].
    cbn [stdout_ stderr_ with_stdout]. rewrite Hout. split; [reflexivity | exact Herr].
Qed.

Lemma usage_exits_zero_witness :
  exists s',
    main_argv 2 (fun _ => None) (replicate 256 0) ["-b"; "-x"] (initial_state [])
    = Exit 0 s' /\
    stdout_ s' = text usage_text /\ stderr_ s' = [].
Proof.
  apply (usage_exits_zero 0 (fun _ => None) (replicate 256 0) ["-b"] "-x" [] []).
  - repeat constructor.
  - reflexivity.
  - left. repeat split; discriminate.
Defined.

(** A program file that cannot be opened: after any number of [-b] flags,
    an argument that does not start with a dash and names no readable file
    makes [main] say so on standard error and end the process with exit
    code 1; nothing is written to standard output. *)
Theorem unreadable_file_exits fuel fopen junk pre a rest input :
  Forall binary_flag pre ->
  char_at a 0 <> chr "-"%char ->
  fopen a = None ->
  exists s',
    main_argv (S (S fuel)) fopen junk (pre ++ a :: rest) (initial_state input)
    = Exit 1 s' /\
    stdout_ s' = [] /\
    stderr_ s' = ["Unable to open the file " +:+ dquote +:+ a +:+ dquote
                  +:+ "." +:+ nl].
Proof.
  intros Hpre Ha Hopen.
  destruct (init_runs fuel input) as (s0 & E0 & _ & _ & Hout & Herr).
  unfold main_argv. rewrite (bind_Ret _ _ _ _ _ E0).
  rewrite bind_unfold, main_programs_skip by exact Hpre.
  cbn [main_programs].
  destruct (Z.eqb_spec (char_at a 0) (chr "-"%char)); [contradiction|].
  rewrite Hopen. eexists. split; [reflexivity|].
  cbn [stdout_ stderr_ with_stderr]. rewrite Herr. split; [exact Hout | reflexivity].
Qed.

Lemma unreadable_file_exits_witness :
  exists s',
    main_argv 2 (fun _ => None) (replicate 256 0) ["missing.lazy"] (initial_state [])
    = Exit 1 s' /\
    stdout_ s' = [] /\
    stderr_ s' = ["Unable to open the file " +:+ dquote +:+ "missing.lazy"
                  +:+ dquote +:+ "." +:+ nl].
Proof.
  apply (unreadable_file_exits 0 (fun _ => None) (replicate 256 0) [] "missing.lazy" [] []).
  - constructor.
  - discriminate.
  - reflexivity.
Defined.

(** ** The collector copies the graph *)


Section Copying.
(** One collection, as in the proof of its safety, and the memory, the root
    table and the cache it starts from. *)
Variables fs fe ts te N0 top : Z.
Hypothesis layout :
  12 < fs /\ fs <= N0 <= fe /\ 12 < ts /\ (fe <= ts \/ te <= fs) /\
  fe - fs <= te - ts.
Variable m0 : gmap Z Expr.
Variables r0 c0 : list Z.




















End Copying.













(** ** The rewrite rules are those of the SKI calculus *)

(** Terms of the calculus the reducer implements; [CRead] stands for the
    input that has not been read yet. *)
Inductive cterm : Type :=
| CK | CS | CI | CInc | CRead
| CNum (n : Z)
| CApp (f x : cterm).

(** Conversion: the congruence generated by the three rules. *)
Inductive conv : cterm -> cterm -> Prop :=
| conv_refl t : conv t t
| conv_sym t u : conv t u -> conv u t
| conv_trans t u v : conv t u -> conv u v -> conv t v
| conv_app f f' x x' : conv f f' -> conv x x' -> conv (CApp f x) (CApp f' x')
| conv_I x : conv (CApp CI x) x
| conv_K x y : conv (CApp (CApp CK x) y) x
| conv_S x y z :
    conv (CApp (CApp (CApp CS x) y) z) (CApp (CApp x z) (CApp y z)).

(** [denotes lim m p t]: in memory [m] the pointer [p] is the root of a
    graph of cells below [lim] that spells the term [t]; a [K1], [S1], [I1]
    or [S2] cell is a combinator applied to its fields. *)
Fixpoint denotes (lim : Z) (m : gmap Z Expr) (p : Z) (t : cterm) : Prop :=
  p < lim /\
  exists c, m !! p = Some c /\
    match t with
    | CK => type c = Tag.K
    | CS => type c = Tag.S
    | CI => type c = Tag.I
    | CInc => type c = Tag.Inc
    | CRead => type c = Tag.LazyRead
    | CNum n => type c = Tag.Num /\ numeric_arg1 c = n
    | CApp f x =>
        match type c with
        | Tag.A => denotes lim m (arg1 c) f /\ denotes lim m (arg2 c) x
        | Tag.K1 => f = CK /\ denotes lim m (arg1 c) x
        | Tag.S1 => f = CS /\ denotes lim m (arg1 c) x
        | Tag.I1 => f = CI /\ denotes lim m (arg1 c) x
        | Tag.S2 =>
            match f with
            | CApp CS f1 =>
                denotes lim m (arg1 c) f1 /\ denotes lim m (arg2 c) x
            | _ => False
            end
        | _ => False
        end
    end.

Fixpoint tsize (t : cterm) : nat :=
  match t with
  | CApp f x => S (tsize f + tsize x)
  | _ => 1%nat
  end.

Lemma denotes_atom lim m p c t :
  m !! p = Some c -> denotes lim m p t ->
  match type c with
  | Tag.K => t = CK
  | Tag.S => t = CS
  | Tag.I => t = CI
  | Tag.Inc => t = CInc
  | Tag.LazyRead => t = CRead
  | Tag.Num => t = CNum (numeric_arg1 c)
  | Tag.K1 => exists x, t = CApp CK x /\ denotes lim m (arg1 c) x
  | Tag.S1 => exists x, t = CApp CS x /\ denotes lim m (arg1 c) x
  | Tag.I1 => exists x, t = CApp CI x /\ denotes lim m (arg1 c) x
  | Tag.S2 =>
      exists x y, t = CApp (CApp CS x) y /\
                  denotes lim m (arg1 c) x /\ denotes lim m (arg2 c) y
  | Tag.A =>
      exists f x, t = CApp f x /\
                  denotes lim m (arg1 c) f /\ denotes lim m (arg2 c) x
  | Tag.Free => False
  end.
Proof.
  intros Hc Hd. destruct t as [| | | | | n | f x]; simpl in Hd;
    destruct Hd as (Hp & c1 & Hc1 & Hd); rewrite Hc in Hc1;
    injection Hc1 as <-.
  1-5: rewrite Hd; reflexivity.
  - destruct Hd as [-> <-]. reflexivity.
  - destruct (type c); try contradiction.
    + exists f, x. split; [reflexivity | exact Hd].
    + destruct Hd as [-> Hd]. exists x. split; [reflexivity | exact Hd].
    + destruct Hd as [-> Hd]. exists x. split; [reflexivity | exact Hd].
    + destruct f as [| | | | | |g f1]; try contradiction.
      destruct g; try contradiction.
      exists f1, x. split; [reflexivity | exact Hd].
    + destruct Hd as [-> Hd]. exists x. split; [reflexivity | exact Hd].
Qed.

Lemma denotes_cell lim m p c t :
  p < lim -> m !! p = Some c ->
  match type c with
  | Tag.K => t = CK
  | Tag.S => t = CS
  | Tag.I => t = CI
  | Tag.Inc => t = CInc
  | Tag.LazyRead => t = CRead
  | Tag.Num => t = CNum (numeric_arg1 c)
  | Tag.K1 => exists x, t = CApp CK x /\ denotes lim m (arg1 c) x
  | Tag.S1 => exists x, t = CApp CS x /\ denotes lim m (arg1 c) x
  | Tag.I1 => exists x, t = CApp CI x /\ denotes lim m (arg1 c) x
  | Tag.S2 =>
      exists x y, t = CApp (CApp CS x) y /\
                  denotes lim m (arg1 c) x /\ denotes lim m (arg2 c) y
  | Tag.A =>
      exists f x, t = CApp f x /\
                  denotes lim m (arg1 c) f /\ denotes lim m (arg2 c) x
  | Tag.Free => False
  end ->
  denotes lim m p t.
Proof.
  intros Hp Hc H. destruct (type c) eqn:Ht.
  - destruct H as (f & x & -> & Hd). simpl. split; [exact Hp|].
    exists c. split; [exact Hc|]. rewrite Ht. exact Hd.
  - subst t. simpl. split; [exact Hp|]. exists c. split; assumption.
  - destruct H as (x & -> & Hd). simpl. split; [exact Hp|].
    exists c. split; [exact Hc|]. rewrite Ht. split; [reflexivity | exact Hd].
  - subst t. simpl. split; [exact Hp|]. exists c. split; assumption.
  - destruct H as (x & -> & Hd). simpl. split; [exact Hp|].
    exists c. split; [exact Hc|]. rewrite Ht. split; [reflexivity | exact Hd].
  - destruct H as (x & y & -> & Hd). simpl. split; [exact Hp|].
    exists c. split; [exact Hc|]. rewrite Ht. exact Hd.
  - subst t. simpl. split; [exact Hp|]. exists c. split; assumption.
  - destruct H as (x & -> & Hd). simpl. split; [exact Hp|].
    exists c. split; [exact Hc|]. rewrite Ht. split; [reflexivity | exact Hd].
  - subst t. simpl. split; [exact Hp|]. exists c. split; assumption.
  - subst t. simpl. split; [exact Hp|]. exists c. split; assumption.
  - subst t. simpl. split; [exact Hp|]. exists c. split; [exact Hc|].
    split; [exact Ht | reflexivity].
  - contradiction.
Qed.

Lemma denotes_below lim m p t : denotes lim m p t -> p < lim.
Proof. destruct t; simpl; tauto. Qed.

#[global] Arguments denotes : simpl never.

(** Terms without numbers and input. *)
Fixpoint pure (t : cterm) : Prop :=
  match t with
  | CK | CS | CI => True
  | CApp f x => pure f /\ pure x
  | _ => False
  end.

(** [sim t u]: [u] is convertible to [t], and pure if [t] is. *)
Definition sim (t u : cterm) : Prop := conv t u /\ (pure t -> pure u).

Lemma sim_refl t : sim t t.
Proof. split; [apply conv_refl | auto]. Qed.

Lemma sim_trans t u v : sim t u -> sim u v -> sim t v.
Proof.
  intros [C1 P1] [C2 P2]. split; [eapply conv_trans; eassumption | auto].
Qed.

Lemma sim_app f f' x x' : sim f f' -> sim x x' -> sim (CApp f x) (CApp f' x').
Proof.
  intros [C1 P1] [C2 P2]. split; [apply conv_app; assumption|].
  simpl. intros [Hf Hx]. auto.
Qed.

Lemma sim_I x : sim (CApp CI x) x.
Proof. split; [apply conv_I | simpl; tauto]. Qed.

Lemma sim_I_back x : sim x (CApp CI x).
Proof. split; [apply conv_sym, conv_I | simpl; tauto]. Qed.

Lemma sim_K x y : sim (CApp (CApp CK x) y) x.
Proof. split; [apply conv_K | simpl; tauto]. Qed.

Lemma sim_S x y z :
  sim (CApp (CApp (CApp CS x) y) z) (CApp (CApp x z) (CApp y z)).
Proof. split; [apply conv_S | simpl; tauto]. Qed.

(** [moves lim lim' m m' p q]: whatever [p] spells in [m], [q] spells a
    similar term in [m']; [preserves] is [moves] for every pointer to
    itself. *)
Definition moves (lim lim' : Z) (m m' : gmap Z Expr) (p q : Z) : Prop :=
  forall t, denotes lim m p t ->
    exists t', denotes lim' m' q t' /\ sim t t'.

Definition preserves (lim lim' : Z) (m m' : gmap Z Expr) : Prop :=
  forall p, moves lim lim' m m' p p.

Lemma preserves_refl lim m : preserves lim lim m m.
Proof. intros p t Hd. exists t. split; [exact Hd | apply sim_refl]. Qed.

Lemma moves_trans lim1 lim2 lim3 m1 m2 m3 p q r :
  moves lim1 lim2 m1 m2 p q -> moves lim2 lim3 m2 m3 q r ->
  moves lim1 lim3 m1 m3 p r.
Proof.
  intros H1 H2 t Hd. destruct (H1 t Hd) as (t1 & Hd1 & S1).
  destruct (H2 t1 Hd1) as (t2 & Hd2 & S2). exists t2.
  split; [exact Hd2 | eapply sim_trans; eassumption].
Qed.

Lemma preserves_trans lim1 lim2 lim3 m1 m2 m3 :
  preserves lim1 lim2 m1 m2 -> preserves lim2 lim3 m2 m3 ->
  preserves lim1 lim3 m1 m3.
Proof. intros H1 H2 p. eapply moves_trans; [apply H1 | apply H2]. Qed.

Section Update.
(** One cell [e] is rewritten and cells are allocated at [lim] and above;
    [kept n] says that the terms of size below [n] have kept their meaning
    up to conversion. *)
Variables (lim lim' : Z) (m m' : gmap Z Expr) (e : Z).
Hypothesis Hlim : lim <= lim'.
Hypothesis Hsame : forall q, q < lim -> q <> e -> m' !! q = m !! q.

Definition kept (n : nat) : Prop :=
  forall u q, (tsize u < n)%nat -> denotes lim m q u ->
    exists u', denotes lim' m' q u' /\ sim u u'.

Hypothesis He :
  forall t, denotes lim m e t -> kept (tsize t) ->
    exists t', denotes lim' m' e t' /\ sim t t'.

Lemma denotes_update : forall n, kept n.
Proof.
  induction n as [n IH] using lt_wf_ind. intros t p Hsz Hd.
  pose proof (IH (tsize t) Hsz) as Hk.
  destruct (decide (p = e)) as [-> | Hne]; [apply He; assumption|].
  pose proof (denotes_below _ _ _ _ Hd) as Hp.
  assert (Hp' : p < lim') by lia.
  destruct (m !! p) as [c|] eqn:Hc.
  2:{ destruct t; simpl in Hd; destruct Hd as (_ & c & Hc' & _);
        rewrite Hc in Hc'; discriminate. }
  assert (Hc' : m' !! p = Some c) by (rewrite Hsame; assumption).
  pose proof (denotes_atom lim m p c t Hc Hd) as Hi.
  destruct (type c) eqn:Ht.
  - destruct Hi as (f & x & -> & Hf & Hx). simpl in Hk.
    destruct (Hk f _ ltac:(lia) Hf) as (f' & Hf' & Cf).
    destruct (Hk x _ ltac:(lia) Hx) as (x' & Hx' & Cx).
    exists (CApp f' x'). split; [|apply sim_app; assumption].
    apply (denotes_cell _ _ _ c); [assumption | assumption|].
    rewrite Ht. exists f', x'. auto.
  - subst t. exists CK. split; [|apply sim_refl].
    apply (denotes_cell _ _ _ c); [assumption | assumption|].
    rewrite Ht. reflexivity.
  - destruct Hi as (x & -> & Hx). simpl in Hk.
    destruct (Hk x _ ltac:(lia) Hx) as (x' & Hx' & Cx).
    exists (CApp CK x'). split; [|apply sim_app; [apply sim_refl | exact Cx]].
    apply (denotes_cell _ _ _ c); [assumption | assumption|].
    rewrite Ht. exists x'. auto.
  - subst t. exists CS. split; [|apply sim_refl].
    apply (denotes_cell _ _ _ c); [assumption | assumption|].
    rewrite Ht. reflexivity.
  - destruct Hi as (x & -> & Hx). simpl in Hk.
    destruct (Hk x _ ltac:(lia) Hx) as (x' & Hx' & Cx).
    exists (CApp CS x'). split; [|apply sim_app; [apply sim_refl | exact Cx]].
    apply (denotes_cell _ _ _ c); [assumption | assumption|].
    rewrite Ht. exists x'. auto.
  - destruct Hi as (x & y & -> & Hx & Hy). simpl in Hk.
    destruct (Hk x _ ltac:(lia) Hx) as (x' & Hx' & Cx).
    destruct (Hk y _ ltac:(lia) Hy) as (y' & Hy' & Cy).
    exists (CApp (CApp CS x') y').
    split; [|repeat apply sim_app; assumption || apply sim_refl].
    apply (denotes_cell _ _ _ c); [assumption | assumption|].
    rewrite Ht. exists x', y'. auto.
  - subst t. exists CI. split; [|apply sim_refl].
    apply (denotes_cell _ _ _ c); [assumption | assumption|].
    rewrite Ht. reflexivity.
  - destruct Hi as (x & -> & Hx). simpl in Hk.
    destruct (Hk x _ ltac:(lia) Hx) as (x' & Hx' & Cx).
    exists (CApp CI x'). split; [|apply sim_app; [apply sim_refl | exact Cx]].
    apply (denotes_cell _ _ _ c); [assumption | assumption|].
    rewrite Ht. exists x'. auto.
  - subst t. exists CRead. split; [|apply sim_refl].
    apply (denotes_cell _ _ _ c); [assumption | assumption|].
    rewrite Ht. reflexivity.
  - subst t. exists CInc. split; [|apply sim_refl].
    apply (denotes_cell _ _ _ c); [assumption | assumption|].
    rewrite Ht. reflexivity.
  - subst t. exists (CNum (numeric_arg1 c)). split; [|apply sim_refl].
    apply (denotes_cell _ _ _ c); [assumption | assumption|].
    rewrite Ht. reflexivity.
  - contradiction.
Qed.

Lemma update_preserves : preserves lim lim' m m'.
Proof. intros p t Hd. apply (denotes_update (S (tsize t))); [lia | exact Hd]. Qed.
End Update.

Section MemoryRules.
(** The rewrites on a memory [m] in which [e] is an application with head
    cell [l]. *)
Variables (lim : Z) (m : gmap Z Expr) (e : Z) (c l : Expr).
Hypothesis He : m !! e = Some c.
Hypothesis HA : type c = Tag.A.
Hypothesis Hl : m !! arg1 c = Some l.
Hypothesis Hlt : e < lim.

(** What [e] spells before the rewrite. *)
Lemma redex_spells t :
  denotes lim m e t ->
  exists f x, t = CApp f x /\
    denotes lim m (arg1 c) f /\ denotes lim m (arg2 c) x.
Proof.
  intros Hd. pose proof (denotes_atom _ _ _ _ _ He Hd) as Hi.
  rewrite HA in Hi. exact Hi.
Qed.

Lemma in_place c' :
  (forall t, denotes lim m e t ->
     kept lim lim m (<[e := c']> m) (tsize t) ->
     exists t', denotes lim (<[e := c']> m) e t' /\ sim t t') ->
  preserves lim lim m (<[e := c']> m).
Proof.
  intros Hcase. apply (update_preserves lim lim m _ e ltac:(lia));
    [|exact Hcase].
  intros q _ Hq. apply lookup_insert_ne. congruence.
Qed.

Lemma mem_I :
  type l = Tag.I ->
  preserves lim lim m (<[e := mkExpr (forward c) (arg2 c) 0 Tag.I1]> m) /\
  moves lim lim m (<[e := mkExpr (forward c) (arg2 c) 0 Tag.I1]> m)
    e (arg2 c).
Proof.
  intros Ht. set (c' := mkExpr (forward c) (arg2 c) 0 Tag.I1).
  assert (Hall : preserves lim lim m (<[e := c']> m)).
  { apply in_place. intros t Hd Hk.
    destruct (redex_spells t Hd) as (f & x & -> & Hf & Hx).
    pose proof (denotes_atom _ _ _ _ _ Hl Hf) as Hi. rewrite Ht in Hi. subst f.
    destruct (Hk x _ ltac:(simpl; lia) Hx) as (x' & Hx' & Cx).
    exists (CApp CI x'). split; [|apply sim_app; [apply sim_refl | exact Cx]].
    apply (denotes_cell _ _ _ c'); [exact Hlt | apply lookup_insert_eq|].
    simpl. exists x'. auto. }
  split; [exact Hall|].
  intros t Hd. destruct (redex_spells t Hd) as (f & x & -> & Hf & Hx).
  pose proof (denotes_atom _ _ _ _ _ Hl Hf) as Hi. rewrite Ht in Hi. subst f.
  destruct (Hall _ x Hx) as (x' & Hx' & Cx). exists x'.
  split; [exact Hx'|]. eapply sim_trans; [apply sim_I | exact Cx].
Qed.

Lemma mem_K :
  type l = Tag.K ->
  preserves lim lim m (<[e := mkExpr (forward c) (arg2 c) 0 Tag.K1]> m).
Proof.
  intros Ht. set (c' := mkExpr (forward c) (arg2 c) 0 Tag.K1).
  apply in_place. intros t Hd Hk.
  destruct (redex_spells t Hd) as (f & x & -> & Hf & Hx).
  pose proof (denotes_atom _ _ _ _ _ Hl Hf) as Hi. rewrite Ht in Hi. subst f.
  destruct (Hk x _ ltac:(simpl; lia) Hx) as (x' & Hx' & Cx).
  exists (CApp CK x'). split; [|apply sim_app; [apply sim_refl | exact Cx]].
  apply (denotes_cell _ _ _ c'); [exact Hlt | apply lookup_insert_eq|].
  simpl. exists x'. auto.
Qed.

Lemma mem_S :
  type l = Tag.S ->
  preserves lim lim m (<[e := mkExpr (forward c) (arg2 c) 0 Tag.S1]> m).
Proof.
  intros Ht. set (c' := mkExpr (forward c) (arg2 c) 0 Tag.S1).
  apply in_place. intros t Hd Hk.
  destruct (redex_spells t Hd) as (f & x & -> & Hf & Hx).
  pose proof (denotes_atom _ _ _ _ _ Hl Hf) as Hi. rewrite Ht in Hi. subst f.
  destruct (Hk x _ ltac:(simpl; lia) Hx) as (x' & Hx' & Cx).
  exists (CApp CS x'). split; [|apply sim_app; [apply sim_refl | exact Cx]].
  apply (denotes_cell _ _ _ c'); [exact Hlt | apply lookup_insert_eq|].
  simpl. exists x'. auto.
Qed.

Lemma mem_K1 :
  type l = Tag.K1 ->
  preserves lim lim m (<[e := mkExpr (forward c) (arg1 l) 0 Tag.I1]> m) /\
  moves lim lim m (<[e := mkExpr (forward c) (arg1 l) 0 Tag.I1]> m)
    e (arg1 l).
Proof.
  intros Ht. set (c' := mkExpr (forward c) (arg1 l) 0 Tag.I1).
  assert (Hall : preserves lim lim m (<[e := c']> m)).
  { apply in_place. intros t Hd Hk.
    destruct (redex_spells t Hd) as (f & x & -> & Hf & Hx).
    pose proof (denotes_atom _ _ _ _ _ Hl Hf) as Hi. rewrite Ht in Hi.
    destruct Hi as (y & -> & Hy).
    destruct (Hk y _ ltac:(simpl; lia) Hy) as (y' & Hy' & Cy).
    exists (CApp CI y'). split.
    - apply (denotes_cell _ _ _ c'); [exact Hlt | apply lookup_insert_eq|].
      simpl. exists y'. auto.
    - eapply sim_trans; [apply sim_K|].
      eapply sim_trans; [exact Cy | apply sim_I_back]. }
  split; [exact Hall|].
  intros t Hd. destruct (redex_spells t Hd) as (f & x & -> & Hf & Hx).
  pose proof (denotes_atom _ _ _ _ _ Hl Hf) as Hi. rewrite Ht in Hi.
  destruct Hi as (y & -> & Hy).
  destruct (Hall _ y Hy) as (y' & Hy' & Cy). exists y'.
  split; [exact Hy'|]. eapply sim_trans; [apply sim_K | exact Cy].
Qed.

Lemma mem_S1 :
  type l = Tag.S1 ->
  preserves lim lim m
    (<[e := mkExpr (forward c) (arg1 l) (arg2 c) Tag.S2]> m).
Proof.
  intros Ht. set (c' := mkExpr (forward c) (arg1 l) (arg2 c) Tag.S2).
  apply in_place. intros t Hd Hk.
  destruct (redex_spells t Hd) as (f & x & -> & Hf & Hx).
  pose proof (denotes_atom _ _ _ _ _ Hl Hf) as Hi. rewrite Ht in Hi.
  destruct Hi as (y & -> & Hy).
  destruct (Hk y _ ltac:(simpl; lia) Hy) as (y' & Hy' & Cy).
  destruct (Hk x _ ltac:(simpl; lia) Hx) as (x' & Hx' & Cx).
  exists (CApp (CApp CS y') x'). split.
  - apply (denotes_cell _ _ _ c'); [exact Hlt | apply lookup_insert_eq|].
    simpl. exists y', x'. auto.
  - repeat apply sim_app; assumption || apply sim_refl.
Qed.

Lemma mem_S2 :
  type l = Tag.S2 ->
  preserves lim (lim + 1 + 1) m
    (<[e := mkExpr (forward c) lim (lim + 1) (type c)]>
       (<[lim + 1 := Expr_ctor Tag.A (arg2 l) (arg2 c)]>
          (<[lim := Expr_ctor Tag.A (arg1 l) (arg2 c)]> m))).
Proof.
  intros Ht.
  set (c' := mkExpr (forward c) lim (lim + 1) (type c)).
  set (m' := <[e := c']> (<[lim + 1 := Expr_ctor Tag.A (arg2 l) (arg2 c)]>
                            (<[lim := Expr_ctor Tag.A (arg1 l) (arg2 c)]>
                               m))).
  apply (update_preserves lim (lim + 1 + 1) m m' e ltac:(lia)).
  - intros q Hq Hne. unfold m'. rewrite !lookup_insert_ne by lia.
    reflexivity.
  - intros t Hd Hk.
    destruct (redex_spells t Hd) as (f & x & -> & Hf & Hx).
    pose proof (denotes_atom _ _ _ _ _ Hl Hf) as Hi. rewrite Ht in Hi.
    destruct Hi as (y & z & -> & Hy & Hz).
    destruct (Hk y _ ltac:(simpl; lia) Hy) as (y' & Hy' & Cy).
    destruct (Hk z _ ltac:(simpl; lia) Hz) as (z' & Hz' & Cz).
    destruct (Hk x _ ltac:(simpl; lia) Hx) as (x' & Hx' & Cx).
    exists (CApp (CApp y' x') (CApp z' x')). split.
    + apply (denotes_cell _ _ _ c');
        [lia | apply lookup_insert_eq|].
      simpl. rewrite HA. eexists _, _. split; [reflexivity|]. split.
      * apply (denotes_cell _ _ _ (Expr_ctor Tag.A (arg1 l) (arg2 c)));
          [lia | |].
        { unfold m'. rewrite !lookup_insert_ne by lia.
          apply lookup_insert_eq. }
        simpl. eexists _, _. split; [reflexivity|]. split; assumption.
      * apply (denotes_cell _ _ _ (Expr_ctor Tag.A (arg2 l) (arg2 c)));
          [lia | |].
        { unfold m'. rewrite lookup_insert_ne by lia.
          apply lookup_insert_eq. }
        simpl. eexists _, _. split; [reflexivity|]. split; assumption.
    + eapply sim_trans; [apply sim_S|].
      repeat apply sim_app; assumption.
Qed.
End MemoryRules.

(** [same_meaning s p s' q]: whatever [p] spells in [s], [q] spells a
    convertible term in [s']. *)
Definition same_meaning (s : state) (p : Z) (s' : state) (q : Z) : Prop :=
  forall t, denotes (next_alloc s) (mem s) p t ->
    exists t', denotes (next_alloc s') (mem s') q t' /\ conv t t'.


Section Rules.
Variables (pe : Z -> M Z) (fuel : nat) (e prev : Z) (s : state) (c l : Expr).
Hypothesis He : mem s !! e = Some c.
Hypothesis HA : type c = Tag.A.
Hypothesis Hl : mem s !! arg1 c = Some l.
Hypothesis Hlt : e < next_alloc s.
Hypothesis Hllt : arg1 c < next_alloc s.







End Rules.



(** ** Programs are composed in pipe order *)

(** The term [Iota]'s static cells spell. *)
Definition iota_term : cterm :=
  CApp (CApp CS (CApp (CApp CS CI) (CApp CK CS))) (CApp CK CK).

(** The term a parse tree stands for; its leaves are the four atoms the
    parser knows. *)
Definition atom_term (p : Z) : cterm :=
  if p =? cK then CK else if p =? cS then CS
  else if p =? Iota then iota_term else CI.

Fixpoint tree_term (t : tree) : cterm :=
  match t with
  | Leaf p => atom_term p
  | Node l r => CApp (tree_term l) (tree_term r)
  end.

Fixpoint atomic (t : tree) : Prop :=
  match t with
  | Leaf p => p = cK \/ p = cS \/ p = cI \/ p = Iota
  | Node l r => atomic l /\ atomic r
  end.

(** The term of a program: its operands applied from left to right. *)
Definition program_term (xs : list syntax) : cterm :=
  tree_term (denote (Paren xs) false).

(** Programs composed as [main] composes them, the first at the bottom. *)
Definition pipe (ts : list cterm) : cterm :=
  foldl (fun acc t => CApp (CApp CS (CApp CK t)) acc) CI ts.

Lemma pipe_applies_from acc x ts :
  conv (CApp (foldl (fun acc t => CApp (CApp CS (CApp CK t)) acc) acc ts) x)
       (foldl (fun a t => CApp t a) (CApp acc x) ts).
Proof.
  revert acc. induction ts as [| t ts IH]; intros acc; [apply conv_refl|].
  simpl. eapply conv_trans; [apply IH|].
  assert (Hgen : forall a b, conv a b ->
            conv (foldl (fun a t => CApp t a) a ts)
                 (foldl (fun a t => CApp t a) b ts)).
  { clear. induction ts as [| t ts IH]; intros a b Hab; [exact Hab|].
    simpl. apply IH. apply conv_app; [apply conv_refl | exact Hab]. }
  apply Hgen. eapply conv_trans; [apply conv_S|].
  apply conv_app; [apply conv_K | apply conv_refl].
Qed.

Lemma foldl_conv x y ts :
  conv x y ->
  conv (foldl (fun a t => CApp t a) x ts) (foldl (fun a t => CApp t a) y ts).
Proof.
  revert x y. induction ts as [| t ts IH]; intros x y Hxy; [exact Hxy|].
  simpl. apply IH. apply conv_app; [apply conv_refl | exact Hxy].
Qed.

Lemma pipe_applies ts x :
  conv (CApp (pipe ts) x) (foldl (fun a t => CApp t a) x ts).
Proof.
  unfold pipe. eapply conv_trans; [apply pipe_applies_from|].
  apply foldl_conv. apply conv_I.
Qed.

(** Cells below the limit that are left alone spell what they spelled. *)
Lemma denotes_mono lim lim' m m' :
  lim <= lim' -> (forall q, q < lim -> m' !! q = m !! q) ->
  forall t p, denotes lim m p t -> denotes lim' m' p t.
Proof.
  intros Hlim Hsame t.
  induction t as [t IH] using (induction_ltof1 _ tsize). unfold ltof in IH.
  intros p Hd. pose proof (denotes_below _ _ _ _ Hd) as Hp.
  destruct (m !! p) as [c|] eqn:Hc.
  2:{ destruct t; simpl in Hd; destruct Hd as (_ & c & Hc' & _);
        rewrite Hc in Hc'; discriminate. }
  assert (Hc' : m' !! p = Some c) by (rewrite Hsame; assumption).
  pose proof (denotes_atom lim m p c t Hc Hd) as Hi.
  apply (denotes_cell lim' m' p c); [lia | exact Hc'|].
  destruct (type c); try exact Hi.
  - destruct Hi as (f & x & -> & Hf & Hx). exists f, x.
    split; [reflexivity|]. split; apply IH; simpl; try lia; assumption.
  - destruct Hi as (x & -> & Hx). exists x.
    split; [reflexivity|]. apply IH; simpl; try lia; assumption.
  - destruct Hi as (x & -> & Hx). exists x.
    split; [reflexivity|]. apply IH; simpl; try lia; assumption.
  - destruct Hi as (x & y & -> & Hx & Hy). exists x, y.
    split; [reflexivity|]. split; apply IH; simpl; try lia; assumption.
  - destruct Hi as (x & -> & Hx). exists x.
    split; [reflexivity|]. apply IH; simpl; try lia; assumption.
Qed.

Section Static.
Variables (lim : Z) (m : gmap Z Expr).
Hypothesis Hstatic : static_mem ⊆ m.
Hypothesis Hlim : 12 < lim.

Lemma static_cell a c : static_mem !! a = Some c -> m !! a = Some c.
Proof. apply static_lookup. exact Hstatic. Qed.

Lemma atom_denotes p :
  p = cK \/ p = cS \/ p = cI \/ p = Iota -> denotes lim m p (atom_term p).
Proof.
  assert (HK : denotes lim m cK CK).
  { split; [unfold cK; lia|]. eexists. split; [apply static_cell; reflexivity|].
    reflexivity. }
  assert (HS : denotes lim m cS CS).
  { split; [unfold cS; lia|]. eexists. split; [apply static_cell; reflexivity|].
    reflexivity. }
  assert (HI : denotes lim m cI CI).
  { split; [unfold cI; lia|]. eexists. split; [apply static_cell; reflexivity|].
    reflexivity. }
  intros [-> | [-> | [-> | ->]]]; [exact HK | exact HS | exact HI|].
  change (atom_term Iota) with iota_term. unfold iota_term.
  apply (denotes_cell _ _ _ (Expr_ctor Tag.S2 SIKS KK));
    [unfold Iota; lia | apply static_cell; reflexivity|].
  simpl. eexists _, _. split; [reflexivity|]. split.
  - apply (denotes_cell _ _ _ (Expr_ctor Tag.S2 cI KS));
      [unfold SIKS; lia | apply static_cell; reflexivity|].
    simpl. eexists _, _. split; [reflexivity|]. split; [exact HI|].
    apply (denotes_cell _ _ _ (Expr_ctor Tag.K1 cS 0));
      [unfold KS; lia | apply static_cell; reflexivity|].
    simpl. eexists. split; [reflexivity | exact HS].
  - apply (denotes_cell _ _ _ (Expr_ctor Tag.K1 cK 0));
      [unfold KK; lia | apply static_cell; reflexivity|].
    simpl. eexists. split; [reflexivity | exact HK].
Qed.

(** A parsed graph spells the term of its tree. *)
Lemma graph_denotes lo t : forall p,
  atomic t -> graph lo lim m p t -> denotes lim m p (tree_term t).
Proof.
  induction t as [q | l IHl r IHr]; intros p Ha Hg; simpl in *.
  - subst p. apply atom_denotes. exact Ha.
  - destruct Ha as [Hal Har].
    destruct Hg as (Hp & pl & pr & Hc & Hl & Hr).
    apply (denotes_cell _ _ _ (Expr_ctor Tag.A pl pr)); [lia | exact Hc|].
    simpl. eexists _, _. split; [reflexivity|]. split; auto.
Qed.
End Static.

Lemma syntax_induction (P : syntax -> Prop) :
  (forall c, P (Atom c)) ->
  (forall a b, P a -> P b -> P (Tick a b)) ->
  (forall a b, P a -> P b -> P (Star a b)) ->
  (forall xs, Forall P xs -> P (Paren xs)) ->
  forall x, P x.
Proof.
  intros HA HT HS HP.
  refine (fix IH (x : syntax) : P x :=
            match x with
            | Atom c => HA c
            | Tick a b => HT a b (IH a) (IH b)
            | Star a b => HS a b (IH a) (IH b)
            | Paren xs =>
                HP xs ((fix go (l : list syntax) : Forall P l :=
                          match l with
                          | [] => @List.Forall_nil _ P
                          | y :: l' => @List.Forall_cons _ P y l' (IH y) (go l')
                          end) xs)
            end).
Qed.

Lemma apply_all_atomic ts : forall acc,
  match acc with Some a => atomic a | None => True end ->
  Forall atomic ts ->
  match apply_all acc ts with Some r => atomic r | None => True end.
Proof.
  induction ts as [| t ts IH]; intros acc Hacc Hts; [exact Hacc|].
  apply Forall_cons in Hts as [Ht Hts]. unfold apply_all in *. simpl.
  apply IH; [|exact Hts]. destruct acc; simpl; auto.
Qed.

Lemma denote_atomic x : forall flag, atomic (denote x flag).
Proof.
  induction x as [c | a b IHa IHb | a b IHa IHb | xs IH] using syntax_induction;
    intros flag.
  - simpl. unfold atom_cell.
    repeat match goal with |- context [if ?b then _ else _] => destruct b end;
      auto.
  - simpl. auto.
  - simpl. auto.
  - cbn [denote].
    pose proof (apply_all_atomic (map (fun y => denote y false) xs) None I)
      as Hall.
    destruct (apply_all None (map (fun y => denote y false) xs)) as [r|];
      [|simpl; auto].
    simpl. apply Hall. apply Forall_map.
    eapply Forall_impl; [exact IH|]. intros y Hy. apply Hy.
Qed.

Lemma render_plain x : well_formed x = true -> plain (render x).
Proof.
  unfold plain.
  induction x as [c | a b IHa IHb | a b IHa IHb | xs IH] using syntax_induction;
    cbn [well_formed render]; intros Hwf.
  - constructor; [|constructor]. unfold is_atom in Hwf.
    repeat (apply orb_true_iff in Hwf as [Hwf | Hwf]);
      apply Z.eqb_eq in Hwf; subst c; vm_compute; split; reflexivity.
  - apply andb_true_iff in Hwf as [Ha Hb].
    constructor; [vm_compute; split; reflexivity|].
    apply Forall_app. split; auto.
  - apply andb_true_iff in Hwf as [Ha Hb].
    constructor; [vm_compute; split; reflexivity|].
    apply Forall_app. split; auto.
  - constructor; [vm_compute; split; reflexivity|].
    apply Forall_app. split; [|constructor; [vm_compute; split; reflexivity
                                            | constructor]].
    induction IH as [| y ys Hy _ IHys]; [constructor|].
    cbn [forallb] in Hwf. apply andb_true_iff in Hwf as [Hwy Hwys].
    cbn [map concat]. apply Forall_app. split; auto.
Qed.

Lemma program_plain xs :
  forallb well_formed xs = true -> plain (concat (map render xs)).
Proof.
  intros Hwf. pose proof (render_plain (Paren xs) Hwf) as Hp.
  cbn [render] in Hp. apply Forall_cons in Hp as [_ Hp].
  apply Forall_app in Hp as [Hp _]. exact Hp.
Qed.

(** Reading a whole command-line program and the end of it. *)
Lemma string_stream_whole src :
  plain (text src) ->
  getch_seq (mkStringStream src 0) (length (text src ++ [EOF]))
  = (text src ++ [EOF], mkStringStream src (length (text src))).
Proof.
  intros Hp. rewrite length_app. rewrite getch_seq_app.
  rewrite (string_stream_getch_seq src 0 (text src) Hp)
    by (rewrite drop_0, firstn_all; reflexivity).
  cbn [Nat.add]. rewrite (string_stream_eof src _ 1) by lia. reflexivity.
Qed.

Lemma compose_run f g s :
  compose f g s
  = Ret (next_alloc s)
      (with_mem (insert (next_alloc s)
                   (Expr_ctor Tag.S2 (next_alloc s + 1) g))
         (with_mem (insert (next_alloc s + 1) (Expr_ctor Tag.K1 f 0))
            (with_next_alloc (next_alloc s + 1 + 1) s))).
Proof. reflexivity. Qed.

(** [compose(f, g)] builds [S (K f) g]. *)
Lemma compose_denotes f g s tf tg :
  denotes (next_alloc s) (mem s) f tf ->
  denotes (next_alloc s) (mem s) g tg ->
  exists r s',
    compose f g s = Ret r s' /\
    denotes (next_alloc s') (mem s') r (CApp (CApp CS (CApp CK tf)) tg) /\
    (forall q, q < next_alloc s -> mem s' !! q = mem s !! q) /\
    next_alloc s <= next_alloc s' /\
    s' = with_mem (fun _ => mem s') (with_next_alloc (next_alloc s') s).
Proof.
  intros Hf Hg. eexists _, _. split; [apply compose_run|].
  set (n := next_alloc s).
  assert (Hsame : forall q, q < n ->
            (<[n := Expr_ctor Tag.S2 (n + 1) g]>
               (<[n + 1 := Expr_ctor Tag.K1 f 0]> (mem s))) !! q
            = mem s !! q).
  { intros q Hq. rewrite !lookup_insert_ne by lia. reflexivity. }
  split; [|split; [exact Hsame | split; [simpl; lia | destruct s; reflexivity]]].
  simpl. fold n.
  apply (denotes_cell _ _ _ (Expr_ctor Tag.S2 (n + 1) g));
    [lia | apply lookup_insert_eq|].
  simpl. eexists _, _. split; [reflexivity|]. split.
  - apply (denotes_cell _ _ _ (Expr_ctor Tag.K1 f 0)); [lia | |].
    { rewrite lookup_insert_ne by lia. apply lookup_insert_eq. }
    simpl. eexists. split; [reflexivity|].
    apply (denotes_mono n _ (mem s)); [lia | exact Hsame | exact Hf].
  - apply (denotes_mono n _ (mem s)); [lia | exact Hsame | exact Hg].
Qed.

(** One [-e program] on the command line. *)
Lemma main_programs_e fuel fopen junk prog rest e :
  main_programs fuel fopen junk ("-e"%string :: prog :: rest) e
  = (e' ← append_program fuel e (mkStringStream prog 0);
     main_programs fuel fopen junk rest e').
Proof. reflexivity. Qed.

(** A program given with [-e]: what it parses to, placed in front of what
    has been composed so far. *)
Lemma append_program_denotes fuel src xs e acc s :
  text src = concat (map render xs) ->
  forallb well_formed xs = true ->
  (S (list_sum (map syntax_size xs)) < fuel)%nat ->
  static_mem ⊆ mem s -> 12 < next_alloc s ->
  denotes (next_alloc s) (mem s) e acc ->
  exists r s',
    append_program fuel e (mkStringStream src 0) s = Ret r s' /\
    denotes (next_alloc s') (mem s') r
      (CApp (CApp CS (CApp CK (program_term xs))) acc) /\
    (forall q, q < next_alloc s -> mem s' !! q = mem s !! q) /\
    next_alloc s <= next_alloc s' /\
    s' = with_mem (fun _ => mem s') (with_next_alloc (next_alloc s') s).
Proof.
  intros Htext Hwf Hfuel Hst Hlo He.
  assert (Hplain : plain (text src))
    by (rewrite Htext; apply program_plain; exact Hwf).
  pose proof (string_stream_whole src Hplain) as Hseq. rewrite Htext in Hseq.
  destruct (parse_manual_close_program StringStream _ xs fuel _ _ s Hwf Hseq
              Hfuel Hlo)
    as (r1 & s1 & E1 & Hr1 & Hg & Hn1 & Hm1 & Hs1).
  pose proof (nodes_nonneg (denote (Paren xs) false)) as Hnn.
  assert (Hst1 : static_mem ⊆ mem s1).
  { apply map_subseteq_spec. intros a c Ha.
    assert (Hlt : a < next_alloc s)
      by (pose proof (static_mem_dom a c Ha); lia).
    rewrite Hm1 by exact Hlt. eapply lookup_weaken; eassumption. }
  assert (Hp1 : denotes (next_alloc s1) (mem s1) r1 (program_term xs)).
  { apply (graph_denotes (next_alloc s1) (mem s1) Hst1 ltac:(lia)
             (next_alloc s));
      [apply denote_atomic | exact Hg]. }
  assert (He1 : denotes (next_alloc s1) (mem s1) e acc).
  { apply (denotes_mono (next_alloc s) _ (mem s)); [lia | exact Hm1 | exact He]. }
  destruct (compose_denotes r1 e s1 _ _ Hp1 He1)
    as (r & s2 & E2 & Hr & Hm2 & Hn2 & Hs2).
  exists r, s2. split.
  - unfold append_program. rewrite (bind_Ret _ _ _ _ _ E1). exact E2.
  - split; [exact Hr|]. split.
    + intros q Hq. rewrite Hm2 by lia. apply Hm1. exact Hq.
    + split; [lia|]. apply (only_heap_trans s s1 s2); assumption.
Qed.

(** [accepted fuel src xs]: the string [src] is the text of the expressions
    [xs], which the parser can read with the fuel it has. *)
Definition accepted (fuel : nat) (src : string) (xs : list syntax) : Prop :=
  text src = concat (map render xs) /\
  forallb well_formed xs = true /\
  (S (list_sum (map syntax_size xs)) < fuel)%nat.

Lemma main_programs_denotes fuel fopen junk srcs xss :
  Forall2 (accepted fuel) srcs xss ->
  forall e acc s,
    static_mem ⊆ mem s -> 12 < next_alloc s ->
    denotes (next_alloc s) (mem s) e acc ->
    exists r s',
      main_programs fuel fopen junk
        (flat_map (fun src => ["-e"%string; src]) srcs) e s = Ret r s' /\
      denotes (next_alloc s') (mem s') r
        (foldl (fun acc t => CApp (CApp CS (CApp CK t)) acc) acc
           (map program_term xss)) /\
      (forall q, q < next_alloc s -> mem s' !! q = mem s !! q) /\
      next_alloc s <= next_alloc s' /\
      s' = with_mem (fun _ => mem s') (with_next_alloc (next_alloc s') s).
Proof.
  induction 1 as [| src xs srcs xss (Htext & Hwf & Hfuel) _ IH];
    intros e acc s Hst Hlo He.
  - exists e, s. split; [reflexivity|]. split; [exact He|].
    split; [reflexivity|]. split; [lia | apply only_heap_refl].
  - cbn [flat_map app]. rewrite main_programs_e.
    destruct (append_program_denotes fuel src xs e acc s Htext Hwf Hfuel Hst
                Hlo He)
      as (r1 & s1 & E1 & Hr1 & Hm1 & Hn1 & Hs1).
    rewrite (bind_Ret _ _ _ _ _ E1).
    assert (Hst1 : static_mem ⊆ mem s1).
    { apply map_subseteq_spec. intros a c Ha.
      assert (Hlt : a < next_alloc s)
        by (pose proof (static_mem_dom a c Ha); lia).
      rewrite Hm1 by exact Hlt. eapply lookup_weaken; eassumption. }
    destruct (IH r1 _ s1 Hst1 ltac:(lia) Hr1)
      as (r & s2 & E2 & Hr & Hm2 & Hn2 & Hs2).
    exists r, s2. split; [exact E2|]. split; [exact Hr|]. split.
    + intros q Hq. rewrite Hm2 by lia. apply Hm1. exact Hq.
    + split; [lia|]. apply (only_heap_trans s s1 s2); assumption.
Qed.

(** The programs given with [-e] are parsed and composed in pipe order:
    [main]'s loop over the arguments returns a graph that spells
    [S (K p_n) (... (S (K p_1) I))], where [p_i] is the term of the [i]-th
    program, and that term applied to an input [x] is convertible to
    [p_n (... (p_1 x))]: the first program sees the input, each further one
    the output of the one before.  Nothing but the heap above the old
    allocation pointer changes. *)
Theorem programs_compose fuel fopen junk srcs xss s :
  Forall2 (accepted fuel) srcs xss ->
  static_mem ⊆ mem s -> 12 < next_alloc s ->
  exists r s',
    main_programs fuel fopen junk
      (flat_map (fun src => ["-e"%string; src]) srcs) cI s = Ret r s' /\
    denotes (next_alloc s') (mem s') r (pipe (map program_term xss)) /\
    (forall x, conv (CApp (pipe (map program_term xss)) x)
                    (foldl (fun a t => CApp t a) x (map program_term xss))) /\
    (forall q, q < next_alloc s -> mem s' !! q = mem s !! q) /\
    s' = with_mem (fun _ => mem s') (with_next_alloc (next_alloc s') s).
Proof.
  intros Hacc Hst Hlo.
  destruct (main_programs_denotes fuel fopen junk srcs xss Hacc cI CI s Hst Hlo)
    as (r & s' & E & Hr & Hm & _ & Hs).
  { change CI with (atom_term cI). apply atom_denotes; auto. }
  exists r, s'. split; [exact E|]. split; [exact Hr|].
  split; [intros x; apply pipe_applies|]. split; assumption.
Qed.

Lemma programs_compose_witness :
  exists r s',
    main_programs 9 (fun _ => None) []
      ["-e"; "`ks"; "-e"; "i"]%string cI (initial_state []) = Ret r s' /\
    denotes (next_alloc s') (mem s') r
      (pipe [CApp CK CS; CI]) /\
    (forall x, conv (CApp (pipe [CApp CK CS; CI]) x)
                    (CApp CI (CApp (CApp CK CS) x))) /\
    (forall q, q < next_alloc (initial_state []) ->
       mem s' !! q = mem (initial_state []) !! q) /\
    s' = with_mem (fun _ => mem s')
           (with_next_alloc (next_alloc s') (initial_state [])).
Proof.
  apply (programs_compose 9 (fun _ => None) [] ["`ks"; "i"]%string
           [[Tick (Atom (chr "k"%char)) (Atom (chr "s"%char))];
            [Atom (chr "i"%char)]] (initial_state [])).
  - repeat constructor.
  - reflexivity.
  - simpl. unfold space1. lia.
Defined.

(** ** What is held across a reservation *)






(** ** The reducer on the SKI fragment *)

(** A pointer spells at most one term. *)
Lemma denotes_functional lim m t1 : forall p t2,
  denotes lim m p t1 -> denotes lim m p t2 -> t1 = t2.
Proof.
  induction t1 as [t1 IH] using (induction_ltof1 _ tsize). unfold ltof in IH.
  intros p t2 H1 H2.
  destruct (m !! p) as [c|] eqn:Hc.
  2:{ destruct t1; simpl in H1; destruct H1 as (_ & c & Hc' & _);
        rewrite Hc in Hc'; discriminate. }
  pose proof (denotes_atom lim m p c t1 Hc H1) as I1.
  pose proof (denotes_atom lim m p c t2 Hc H2) as I2.
  destruct (type c); try congruence.
  - destruct I1 as (f1 & x1 & -> & Hf1 & Hx1).
    destruct I2 as (f2 & x2 & -> & Hf2 & Hx2).
    rewrite (IH f1 ltac:(simpl; lia) _ _ Hf1 Hf2).
    rewrite (IH x1 ltac:(simpl; lia) _ _ Hx1 Hx2). reflexivity.
  - destruct I1 as (x1 & -> & Hx1). destruct I2 as (x2 & -> & Hx2).
    rewrite (IH x1 ltac:(simpl; lia) _ _ Hx1 Hx2). reflexivity.
  - destruct I1 as (x1 & -> & Hx1). destruct I2 as (x2 & -> & Hx2).
    rewrite (IH x1 ltac:(simpl; lia) _ _ Hx1 Hx2). reflexivity.
  - destruct I1 as (x1 & y1 & -> & Hx1 & Hy1).
    destruct I2 as (x2 & y2 & -> & Hx2 & Hy2).
    rewrite (IH x1 ltac:(simpl; lia) _ _ Hx1 Hx2).
    rewrite (IH y1 ltac:(simpl; lia) _ _ Hy1 Hy2). reflexivity.
  - destruct I1 as (x1 & -> & Hx1). destruct I2 as (x2 & -> & Hx2).
    rewrite (IH x1 ltac:(simpl; lia) _ _ Hx1 Hx2). reflexivity.
  - contradiction.
Qed.

Lemma denotes_ext lim m m' p t :
  (forall q, m' !! q = m !! q) -> denotes lim m p t -> denotes lim m' p t.
Proof. intros H. apply denotes_mono; [lia | auto]. Qed.

(** [shortcut lim m a r]: [r] spells what [a] spells with some leading
    [I]s removed. *)
Definition shortcut (lim : Z) (m : gmap Z Expr) (a r : Z) : Prop :=
  forall t, denotes lim m a t ->
    exists tr, denotes lim m r tr /\ sim t tr /\ (tsize tr <= tsize t)%nat.

Lemma shortcut_refl lim m a : shortcut lim m a a.
Proof. intros t Hd. exists t. split; [exact Hd|]. split; [apply sim_refl | lia]. Qed.

Lemma shortcut_I1 lim m a c r :
  m !! a = Some c -> type c = Tag.I1 -> shortcut lim m (arg1 c) r ->
  shortcut lim m a r.
Proof.
  intros Hc Ht Hs t Hd. pose proof (denotes_atom _ _ _ _ _ Hc Hd) as Hi.
  rewrite Ht in Hi. destruct Hi as (x & -> & Hx).
  destruct (Hs x Hx) as (tr & Hr & Sr & Hsz). exists tr.
  split; [exact Hr|]. split; [|simpl; lia].
  eapply sim_trans; [apply sim_I | exact Sr].
Qed.

(** The cells [drop_i1] walks over: [I1] cells from [a] to the first cell
    [r] that is not one. *)
Inductive i1_path (m : gmap Z Expr) : Z -> Z -> Prop :=
| path_stop r cr : m !! r = Some cr -> type cr <> Tag.I1 -> i1_path m r r
| path_step a ca r :
    m !! a = Some ca -> type ca = Tag.I1 -> i1_path m (arg1 ca) r ->
    i1_path m a r.

Lemma i1_path_shortcut lim m a r : i1_path m a r -> shortcut lim m a r.
Proof.
  induction 1 as [r cr Hc Ht | a ca r Hc Ht _ IH]; [apply shortcut_refl|].
  eapply shortcut_I1; eassumption.
Qed.

Lemma i1_path_end m a r :
  i1_path m a r -> exists cr, m !! r = Some cr /\ type cr <> Tag.I1.
Proof. induction 1 as [r cr Hc Ht |]; [exists cr; auto | assumption]. Qed.

Lemma drop_i1_loop_run fuel : forall cur s r s',
  drop_i1_loop fuel cur s = Ret r s' ->
  s' = s /\ exists c, mem s !! cur = Some c /\ i1_path (mem s) (arg1 c) r.
Proof.
  induction fuel as [| fuel IH]; intros cur s r s' E; [discriminate|].
  simpl in E.
  apply bind_Ret_inv in E as (c & s1 & E1 & E).
  apply load_Ret_inv in E1 as [-> Hc].
  apply bind_Ret_inv in E as (c' & s1 & E1 & E).
  apply load_Ret_inv in E1 as [-> Hc'].
  destruct (decide (type c' = Tag.I1)) as [Hi | Hi].
  - apply IH in E as [-> (c1 & Hc1 & Hp)]. split; [reflexivity|].
    exists c. split; [exact Hc|]. rewrite Hc' in Hc1. injection Hc1 as <-.
    eapply path_step; eassumption.
  - injection E as <- <-. split; [reflexivity|]. exists c.
    split; [exact Hc|]. eapply path_stop; eassumption.
Qed.

(** What [drop_i1] does: nothing on a cell that is not an [I1]; on an [I1]
    it finds the end of the chain and makes the cell point to it. *)
Lemma drop_i1_run fuel cur s r s' :
  drop_i1 fuel cur s = Ret r s' ->
  exists c, mem s !! cur = Some c /\
    ((type c <> Tag.I1 /\ r = cur /\ s' = s) \/
     (type c = Tag.I1 /\ i1_path (mem s) (arg1 c) r /\
      s' = with_mem (insert cur (set_arg1 r c)) s)).
Proof.
  unfold drop_i1. intros E.
  apply bind_Ret_inv in E as (c & s1 & E1 & E).
  apply load_Ret_inv in E1 as [-> Hc]. exists c. split; [exact Hc|].
  destruct (decide (type c = Tag.I1)) as [Hi | Hi].
  - right. apply bind_Ret_inv in E as (r' & s1 & E1 & E).
    apply drop_i1_loop_run in E1 as [-> (c1 & Hc1 & Hp)].
    rewrite Hc in Hc1. injection Hc1 as <-.
    apply bind_Ret_inv in E as ([] & s2 & E2 & E).
    injection E as <- <-.
    apply update_Ret_inv in E2 as (c0 & Hc0 & ->).
    rewrite Hc in Hc0. injection Hc0 as <-. auto.
  - left. injection E as <- <-. auto.
Qed.

(** Making an application point to a shortcut of its head keeps the
    meaning. *)
Lemma retarget lim m p c r :
  m !! p = Some c -> type c = Tag.A -> p < lim ->
  shortcut lim m (arg1 c) r ->
  preserves lim lim m (<[p := set_arg1 r c]> m).
Proof.
  intros Hc Ht Hp Hs.
  apply (update_preserves lim lim m _ p ltac:(lia)).
  - intros q _ Hq. apply lookup_insert_ne. congruence.
  - intros t Hd Hk. pose proof (denotes_atom _ _ _ _ _ Hc Hd) as Hi.
    rewrite Ht in Hi. destruct Hi as (f & x & -> & Hf & Hx).
    destruct (Hs f Hf) as (tr & Hr & Sr & Hsz).
    destruct (Hk tr _ ltac:(simpl; lia) Hr) as (tr' & Hr' & Sr').
    destruct (Hk x _ ltac:(simpl; lia) Hx) as (x' & Hx' & Sx).
    exists (CApp tr' x'). split.
    + apply (denotes_cell _ _ _ (set_arg1 r c));
        [exact Hp | apply lookup_insert_eq|].
      simpl. rewrite Ht. exists tr', x'. auto.
    + apply sim_app; [eapply sim_trans; eassumption | exact Sx].
Qed.

(** Path compression: an [I1] cell made to point to the end of its chain. *)
Lemma compress lim m a c r :
  m !! a = Some c -> type c = Tag.I1 -> a < lim ->
  shortcut lim m (arg1 c) r ->
  preserves lim lim m (<[a := set_arg1 r c]> m).
Proof.
  intros Hc Ht Hp Hs.
  apply (update_preserves lim lim m _ a ltac:(lia)).
  - intros q _ Hq. apply lookup_insert_ne. congruence.
  - intros t Hd Hk. pose proof (denotes_atom _ _ _ _ _ Hc Hd) as Hi.
    rewrite Ht in Hi. destruct Hi as (x & -> & Hx).
    destruct (Hs x Hx) as (tr & Hr & Sr & Hsz).
    destruct (Hk tr _ ltac:(simpl; lia) Hr) as (tr' & Hr' & Sr').
    exists (CApp CI tr'). split.
    + apply (denotes_cell _ _ _ (set_arg1 r c));
        [exact Hp | apply lookup_insert_eq|].
      simpl. rewrite Ht. exists tr'. auto.
    + apply sim_app; [apply sim_refl | eapply sim_trans; eassumption].
Qed.

(** *** The reversed spine *)

(** While [partial_eval] walks down a left spine it reverses it: the
    applications it has passed are linked through [arg1] back towards the
    root, [prev] being the last one passed.  [spine] lists them from [prev]
    on.  The virtual memory [mv] is the memory with the spine put back in
    order: the first cell of the spine applies [cur], every other one the
    cell before it. *)
Fixpoint bottom (spine : list Z) (cur : Z) : Z :=
  match spine with
  | [] => cur
  | p :: rest => bottom rest p
  end.

Fixpoint spine_ok (m mv : gmap Z Expr) (prev cur : Z) (spine : list Z)
  : Prop :=
  match spine with
  | [] => prev = 0
  | p :: rest =>
      prev = p /\
      exists c, m !! p = Some c /\ type c = Tag.A /\
                mv !! p = Some (set_arg1 cur c) /\
                spine_ok m mv (arg1 c) p rest
  end.

Record virt (m mv : gmap Z Expr) (prev cur : Z) (spine : list Z) : Prop := {
  vt_null : m !! 0 = None;
  vt_nodup : NoDup spine;
  vt_same : forall q, q ∉ spine -> mv !! q = m !! q;
  vt_spine : spine_ok m mv prev cur spine
}.

Lemma spine_ok_frame m m' mv mv' spine : forall prev cur,
  (forall q, q ∈ spine -> m' !! q = m !! q /\ mv' !! q = mv !! q) ->
  spine_ok m mv prev cur spine -> spine_ok m' mv' prev cur spine.
Proof.
  induction spine as [| p rest IH]; intros prev cur Hq; simpl; [auto|].
  intros (-> & c & Hc & Ht & Hv & Hrest).
  destruct (Hq p ltac:(apply elem_of_cons; auto)) as [E1 E2].
  split; [reflexivity|]. exists c. rewrite E1, E2.
  split; [exact Hc|]. split; [exact Ht|]. split; [exact Hv|].
  apply IH; [|exact Hrest]. intros q Hin. apply Hq. apply elem_of_cons. auto.
Qed.

Lemma spine_cell m mv spine : forall prev cur q,
  spine_ok m mv prev cur spine -> q ∈ spine ->
  exists c x, m !! q = Some c /\ type c = Tag.A /\
              mv !! q = Some (set_arg1 x c).
Proof.
  induction spine as [| p rest IH]; intros prev cur q Hs Hq;
    [apply elem_of_nil in Hq; contradiction|].
  destruct Hs as (-> & c & Hc & Ht & Hv & Hrest).
  apply elem_of_cons in Hq as [-> | Hq]; [exists c, cur; auto|].
  eapply IH; eassumption.
Qed.

(** A cell has the same type in both memories, and the same contents unless
    it is an application. *)
Lemma virt_cell m mv prev cur spine q c :
  virt m mv prev cur spine -> m !! q = Some c ->
  exists cv, mv !! q = Some cv /\ type cv = type c /\
             (type c <> Tag.A -> cv = c).
Proof.
  intros [_ _ Hsame Hs] Hc.
  destruct (decide (q ∈ spine)) as [Hin | Hout].
  - destruct (spine_cell _ _ _ _ _ _ Hs Hin) as (c' & x & Hc' & Ht & Hv).
    rewrite Hc in Hc'. injection Hc' as <-.
    exists (set_arg1 x c). split; [exact Hv|]. split; [reflexivity|].
    intros Hn. contradiction.
  - exists c. rewrite Hsame by exact Hout. auto.
Qed.

Lemma virt_not_spine m mv prev cur spine q c :
  virt m mv prev cur spine -> m !! q = Some c -> type c <> Tag.A ->
  q ∉ spine.
Proof.
  intros [_ _ _ Hs] Hc Ht Hin.
  destruct (spine_cell _ _ _ _ _ _ Hs Hin) as (c' & x & Hc' & Ht' & _).
  congruence.
Qed.

Lemma virt_path m mv prev cur spine a r :
  virt m mv prev cur spine -> i1_path m a r -> i1_path mv a r.
Proof.
  intros Hv. induction 1 as [r cr Hc Ht | a ca r Hc Ht _ IH].
  - destruct (virt_cell _ _ _ _ _ _ _ Hv Hc) as (cv & Hcv & Htv & _).
    apply (path_stop _ _ cv); [exact Hcv | congruence].
  - destruct (virt_cell _ _ _ _ _ _ _ Hv Hc) as (cv & Hcv & Htv & Heq).
    rewrite (Heq ltac:(congruence)) in Hcv.
    eapply path_step; eassumption.
Qed.

Lemma virt_prev_null m mv prev cur spine :
  virt m mv prev cur spine -> (prev = 0 <-> spine = []).
Proof.
  intros [Hnull _ _ Hs]. destruct spine as [| p rest]; simpl in Hs.
  - tauto.
  - destruct Hs as (-> & c & Hc & _). split; [|discriminate].
    intros ->. congruence.
Qed.

(** Down the spine the terms get smaller: the spine does not pass twice
    through a cell, nor through [cur]. *)
Lemma spine_sizes lim m mv spine : forall prev cur T,
  spine_ok m mv prev cur spine ->
  denotes lim mv (bottom spine cur) T ->
  exists T0, denotes lim mv cur T0 /\ (pure T -> pure T0) /\
    forall p, p ∈ spine ->
      exists Tp, denotes lim mv p Tp /\ (tsize T0 < tsize Tp)%nat.
Proof.
  induction spine as [| p rest IH]; intros prev cur T Hs Hd; simpl in *.
  - exists T. split; [exact Hd|]. split; [auto|].
    intros q Hq. apply elem_of_nil in Hq. contradiction.
  - destruct Hs as (-> & c & Hc & Ht & Hv & Hrest).
    destruct (IH _ _ _ Hrest Hd) as (T1 & H1 & P1 & Hall).
    pose proof (denotes_atom _ _ _ _ _ Hv H1) as Hi. simpl in Hi.
    rewrite Ht in Hi. destruct Hi as (f & x & -> & Hf & Hx).
    exists f. split; [exact Hf|]. split.
    + intros HP. apply P1 in HP. simpl in HP. tauto.
    + intros q Hq. apply elem_of_cons in Hq as [-> | Hq].
      * exists (CApp f x). split; [exact H1 | simpl; lia].
      * destruct (Hall q Hq) as (Tq & Hq' & Hsz). exists Tq.
        split; [exact Hq'|]. simpl in Hsz. lia.
Qed.

Lemma cur_not_on_spine lim m mv prev cur spine T :
  spine_ok m mv prev cur spine ->
  denotes lim mv (bottom spine cur) T -> cur ∉ spine.
Proof.
  intros Hs Hd Hin.
  destruct (spine_sizes _ _ _ _ _ _ _ Hs Hd) as (T0 & H0 & _ & Hall).
  destruct (Hall cur Hin) as (Tp & Hp & Hsz).
  rewrite (denotes_functional _ _ _ _ _ H0 Hp) in Hsz. lia.
Qed.

(** Letting the spine apply a shortcut of [cur] instead of [cur]. *)
Lemma retarget_head lim m mv prev cur spine x :
  virt m mv prev cur spine ->
  (forall q, q ∈ spine -> q < lim) ->
  shortcut lim mv cur x ->
  exists mv',
    virt m mv' prev x spine /\ preserves lim lim mv mv' /\
    moves lim lim mv mv' (bottom spine cur) (bottom spine x).
Proof.
  intros [Hnull Hnd Hsame Hs] Hlt Hsc. destruct spine as [| p rest].
  - exists mv. split; [constructor; assumption|].
    split; [apply preserves_refl|]. simpl. intros t Hd.
    destruct (Hsc t Hd) as (tr & Hr & Sr & _). exists tr. auto.
  - simpl in Hs. destruct Hs as (-> & c & Hc & Ht & Hv & Hrest).
    apply NoDup_cons in Hnd as [Hp Hnd].
    exists (<[p := set_arg1 x c]> mv).
    assert (Hpres : preserves lim lim mv (<[p := set_arg1 x c]> mv)).
    { apply (retarget lim mv p (set_arg1 cur c) x Hv Ht);
        [apply Hlt; apply elem_of_cons; auto | exact Hsc]. }
    split; [|split; [exact Hpres | apply Hpres]].
    constructor.
    + exact Hnull.
    + apply NoDup_cons. auto.
    + intros q Hq. apply not_elem_of_cons in Hq as [Hq1 Hq2].
      rewrite lookup_insert_ne by congruence. apply Hsame.
      apply not_elem_of_cons. auto.
    + simpl. split; [reflexivity|]. exists c. split; [exact Hc|].
      split; [exact Ht|]. split; [apply lookup_insert_eq|].
      apply (spine_ok_frame m m mv); [|exact Hrest].
      intros q Hq. split; [reflexivity|].
      apply lookup_insert_ne. intros ->. contradiction.
Qed.

Section Run.
(** A run of the reducer on [node], which spells the pure term [t0] in the
    memory [m0] the run starts in. *)
Variables (lim0 : Z) (m0 : gmap Z Expr) (node : Z) (t0 : cterm).
Hypothesis Hnode : denotes lim0 m0 node t0.
Hypothesis Hpure : pure t0.

(** The invariant of the run: the virtual memory spells, up to conversion,
    what the initial memory spelled, and the bottom of the spine spells what
    [node] spelled. *)
Record pinv (s : state) (prev cur : Z) (mv : gmap Z Expr) (spine : list Z)
  : Prop := {
  pi_virt : virt (mem s) mv prev cur spine;
  pi_pres : preserves lim0 (next_alloc s) m0 mv;
  pi_node : moves lim0 (next_alloc s) m0 mv node (bottom spine cur)
}.

Lemma pinv_bottom s prev cur mv spine :
  pinv s prev cur mv spine ->
  exists T, denotes (next_alloc s) mv (bottom spine cur) T /\ pure T.
Proof.
  intros [_ _ Hn]. destruct (Hn t0 Hnode) as (T & HT & _ & HP).
  exists T. auto.
Qed.

Lemma pinv_cur s prev cur mv spine :
  pinv s prev cur mv spine ->
  (cur ∉ spine) /\ (forall q, q ∈ spine -> q < next_alloc s) /\
  exists T0, denotes (next_alloc s) mv cur T0 /\ pure T0.
Proof.
  intros Hinv. destruct (pinv_bottom _ _ _ _ _ Hinv) as (T & HT & HP).
  destruct Hinv as [[_ _ _ Hs] _ _].
  split; [eapply cur_not_on_spine; eassumption|].
  destruct (spine_sizes _ _ _ _ _ _ _ Hs HT) as (T0 & H0 & P0 & Hall).
  split.
  - intros q Hq. destruct (Hall q Hq) as (Tq & Hq' & _).
    eapply denotes_below. exact Hq'.
  - exists T0. auto.
Qed.

(** A store into a cell off the spine, done in both memories. *)
Lemma virt_insert m mv prev cur spine a c :
  virt m mv prev cur spine -> a ∉ spine -> a <> 0 ->
  virt (<[a := c]> m) (<[a := c]> mv) prev cur spine.
Proof.
  intros [Hnull Hnd Hsame Hs] Ha Hz. constructor.
  - rewrite lookup_insert_ne by congruence. exact Hnull.
  - exact Hnd.
  - intros q Hq. destruct (decide (q = a)) as [-> | Hne].
    + rewrite !lookup_insert_eq. reflexivity.
    + rewrite !lookup_insert_ne by congruence. apply Hsame. exact Hq.
  - apply (spine_ok_frame m _ mv); [|exact Hs].
    intros q Hq. split; apply lookup_insert_ne; intros ->; contradiction.
Qed.

(** [drop_i1] on the current cell. *)
Lemma pinv_drop_i1 fuel s prev cur mv spine r s' :
  pinv s prev cur mv spine ->
  drop_i1 fuel cur s = Ret r s' ->
  exists mv',
    pinv s' prev r mv' spine /\
    next_alloc s' = next_alloc s /\ from_space_end s' = from_space_end s /\
    exists cr, mem s' !! r = Some cr /\ type cr <> Tag.I1.
Proof.
  intros Hinv E. destruct (pinv_cur _ _ _ _ _ Hinv) as (Hcur & Hlt & T0 & H0 & _).
  destruct Hinv as [Hv Hpres Hn].
  apply drop_i1_run in E
    as (c & Hc & [(Ht & -> & ->) | (Ht & Hpath & ->)]).
  - exists mv. split; [constructor; assumption|].
    split; [reflexivity|]. split; [reflexivity|]. exists c. auto.
  - set (lim := next_alloc s) in *.
    assert (Hcv : mv !! cur = Some c)
      by (rewrite (vt_same _ _ _ _ _ Hv) by exact Hcur; exact Hc).
    assert (Hz : cur <> 0).
    { intros ->. rewrite (vt_null _ _ _ _ _ Hv) in Hc. discriminate. }
    assert (Hsc : shortcut lim mv (arg1 c) r).
    { apply i1_path_shortcut. eapply virt_path; eassumption. }
    pose proof (compress lim mv cur c r Hcv Ht
                  (denotes_below _ _ _ _ H0) Hsc) as Hp1.
    pose proof (virt_insert _ _ _ _ _ cur (set_arg1 r c) Hv Hcur Hz) as Hv1.
    destruct (retarget_head lim _ _ _ _ _ r Hv1 Hlt) as (mv2 & Hv2 & Hp2 & Hb2).
    { eapply (shortcut_I1 _ _ _ (set_arg1 r c));
        [apply lookup_insert_eq | exact Ht | apply shortcut_refl]. }
    exists mv2. split.
    + constructor.
      * exact Hv2.
      * eapply preserves_trans; [exact Hpres|].
        eapply preserves_trans; [exact Hp1 | exact Hp2].
      * eapply moves_trans; [exact Hn|].
        eapply moves_trans; [apply Hp1 | exact Hb2].
    + split; [reflexivity|]. split; [reflexivity|].
      destruct (i1_path_end _ _ _ Hpath) as (cr & Hcr & Htr).
      exists cr. split; [|exact Htr]. simpl.
      rewrite lookup_insert_ne; [exact Hcr|]. intros <-. congruence.
Qed.

Lemma set_arg1_id c : set_arg1 (arg1 c) c = c.
Proof. destruct c. reflexivity. Qed.

(** One step down the spine. *)
Lemma pinv_push fuel s prev cur mv spine c next s1 :
  pinv s prev cur mv spine ->
  mem s !! cur = Some c -> type c = Tag.A ->
  drop_i1 fuel (arg1 c) s = Ret next s1 ->
  exists c1 mv',
    mem s1 !! cur = Some c1 /\
    pinv (with_mem (insert cur (set_arg1 prev c1)) s1) cur next mv'
      (cur :: spine) /\
    next_alloc s1 = next_alloc s /\ from_space_end s1 = from_space_end s /\
    exists cn, mem s1 !! next = Some cn /\ type cn <> Tag.I1 /\ next <> cur.
Proof.
  intros Hinv Hc Ht E.
  destruct (pinv_cur _ _ _ _ _ Hinv) as (Hcur & Hlt & T0 & H0 & _).
  destruct Hinv as [Hv Hpres Hn]. set (lim := next_alloc s) in *.
  assert (Hcv : mv !! cur = Some c)
    by (rewrite (vt_same _ _ _ _ _ Hv) by exact Hcur; exact Hc).
  assert (Hz : cur <> 0).
  { intros ->. rewrite (vt_null _ _ _ _ _ Hv) in Hc. discriminate. }
  pose proof (denotes_below _ _ _ _ H0) as Hcl.
  pose proof (denotes_atom _ _ _ _ _ Hcv H0) as Hi. rewrite Ht in Hi.
  destruct Hi as (f & x & -> & Hf & Hx).
  (* the two memories after [drop_i1] *)
  assert (Hstep : exists mv1,
            virt (mem s1) mv1 prev cur spine /\ preserves lim lim mv mv1 /\
            mv1 !! cur = Some c /\ mem s1 !! cur = Some c /\
            shortcut lim mv1 (arg1 c) next /\
            next_alloc s1 = lim /\ from_space_end s1 = from_space_end s /\
            exists cn, mem s1 !! next = Some cn /\ type cn <> Tag.I1 /\
                       next <> cur).
  { apply drop_i1_run in E
      as (ca & Hca & [(Hta & -> & ->) | (Hta & Hpath & ->)]).
    - exists mv. split; [exact Hv|]. split; [apply preserves_refl|].
      split; [exact Hcv|]. split; [exact Hc|].
      split; [apply shortcut_refl|]. split; [reflexivity|].
      split; [reflexivity|]. exists ca. split; [exact Hca|].
      split; [exact Hta|]. intros E. rewrite E in Hf.
      pose proof (denotes_functional _ _ _ _ _ Hf H0) as Heq.
      apply (f_equal tsize) in Heq. simpl in Heq. lia.
    - assert (Hne : arg1 c <> cur).
      { intros E. rewrite E, Hc in Hca. congruence. }
      assert (Hza : arg1 c <> 0).
      { intros E. rewrite E, (vt_null _ _ _ _ _ Hv) in Hca. discriminate. }
      assert (Hout : arg1 c ∉ spine).
      { eapply virt_not_spine; [exact Hv | exact Hca | congruence]. }
      assert (Hcav : mv !! arg1 c = Some ca)
        by (rewrite (vt_same _ _ _ _ _ Hv) by exact Hout; exact Hca).
      assert (Hsc : shortcut lim mv (arg1 ca) next).
      { apply i1_path_shortcut. eapply virt_path; eassumption. }
      exists (<[arg1 c := set_arg1 next ca]> mv).
      split; [apply virt_insert; assumption|].
      split; [apply (compress lim mv _ ca next Hcav Hta
                       (denotes_below _ _ _ _ Hf) Hsc)|].
      split; [rewrite lookup_insert_ne by exact Hne; exact Hcv|].
      split; [simpl; rewrite lookup_insert_ne by exact Hne; exact Hc|].
      split.
      { eapply (shortcut_I1 _ _ _ (set_arg1 next ca));
          [apply lookup_insert_eq | exact Hta | apply shortcut_refl]. }
      split; [reflexivity|]. split; [reflexivity|].
      destruct (i1_path_end _ _ _ Hpath) as (cn & Hcn & Htn).
      assert (Hnn : next <> arg1 c) by (intros E; rewrite E, Hca in Hcn;
                                        congruence).
      exists cn. split; [simpl; rewrite lookup_insert_ne by congruence;
                         exact Hcn|].
      split; [exact Htn|].
      (* [next] is below [cur] *)
      intros E. subst next.
      pose proof (denotes_atom _ _ _ _ _ Hcav Hf) as Hi.
      rewrite Hta in Hi. destruct Hi as (y & -> & Hy).
      destruct (Hsc y Hy) as (tr & Hr & _ & Hsz).
      pose proof (denotes_functional _ _ _ _ _ Hr H0) as Heq.
      apply (f_equal tsize) in Heq. simpl in Heq. lia. }
  destruct Hstep as (mv1 & Hv1 & Hp1 & Hcv1 & Hc1 & Hsc & Hn1 & Hfe & Hnext).
  exists c, (<[cur := set_arg1 next c]> mv1). split; [exact Hc1|].
  split; [|split; [exact Hn1 | split; [exact Hfe | exact Hnext]]].
  pose proof (retarget lim mv1 cur c next Hcv1 Ht Hcl Hsc) as Hp2.
  constructor.
  - destruct Hv1 as [Hnull Hnd Hsame Hs]. constructor; simpl.
    + rewrite lookup_insert_ne by congruence. exact Hnull.
    + apply NoDup_cons. auto.
    + intros q Hq. apply not_elem_of_cons in Hq as [Hq1 Hq2].
      rewrite !lookup_insert_ne by congruence. apply Hsame. exact Hq2.
    + split; [reflexivity|]. exists (set_arg1 prev c).
      split; [apply lookup_insert_eq|]. split; [exact Ht|].
      split; [apply lookup_insert_eq|].
      apply (spine_ok_frame (mem s1) _ mv1); [|exact Hs].
      intros q Hq. split; apply lookup_insert_ne; intros ->; contradiction.
  - simpl. rewrite Hn1. eapply preserves_trans; [exact Hpres|].
    eapply preserves_trans; [exact Hp1 | exact Hp2].
  - simpl. rewrite Hn1. eapply moves_trans; [exact Hn|].
    eapply moves_trans; [apply Hp1 | apply Hp2].
Qed.

(** The walk down the spine. *)
Lemma pinv_descend fuel0 fuel : forall s prev cur mv spine prev' cur' s',
  pinv s prev cur mv spine ->
  (exists c, mem s !! cur = Some c /\ type c <> Tag.I1) ->
  descend fuel0 fuel prev cur s = Ret (prev', cur') s' ->
  exists mv' spine',
    pinv s' prev' cur' mv' spine' /\
    next_alloc s' = next_alloc s /\ from_space_end s' = from_space_end s /\
    exists c', mem s' !! cur' = Some c' /\ type c' <> Tag.A /\
               type c' <> Tag.I1.
Proof.
  induction fuel as [| fuel IH]; intros s prev cur mv spine prev' cur' s'
    Hinv (c0 & Hc0 & Ht0) E; [discriminate|].
  cbn [descend] in E.
  apply bind_Ret_inv in E as (c & s0 & E0 & E).
  apply load_Ret_inv in E0 as [-> Hc].
  rewrite Hc in Hc0. injection Hc0 as <-.
  destruct (decide (type c = Tag.A)) as [Ht | Ht].
  - apply bind_Ret_inv in E as (next & s1 & E1 & E).
    apply bind_Ret_inv in E as ([] & s2 & E2 & E).
    apply update_Ret_inv in E2 as (c1' & Hc1' & ->).
    destruct (pinv_push fuel0 s prev cur mv spine c next s1 Hinv Hc Ht E1)
      as (c1 & mv1 & Hc1 & Hinv1 & Hn1 & Hf1 & cn & Hcn & Htn & Hne).
    rewrite Hc1 in Hc1'. injection Hc1' as <-.
    destruct (IH _ _ _ _ _ _ _ _ Hinv1
                ltac:(exists cn; split;
                      [simpl; rewrite lookup_insert_ne by congruence;
                       exact Hcn | exact Htn]) E)
      as (mv' & spine' & Hinv' & Hn' & Hf' & Hc').
    exists mv', spine'. split; [exact Hinv'|].
    split; [rewrite Hn'; exact Hn1|]. split; [rewrite Hf'; exact Hf1|].
    exact Hc'.
  - injection E as <- <- <-. exists mv, spine. split; [exact Hinv|].
    split; [reflexivity|]. split; [reflexivity|]. exists c. auto.
Qed.

(** The head of a pure term is a combinator. *)
Lemma pure_head lim mv p l T :
  mv !! p = Some l -> denotes lim mv p T -> pure T ->
  type l <> Tag.A -> type l <> Tag.I1 ->
  type l = Tag.I \/ type l = Tag.K \/ type l = Tag.K1 \/
  type l = Tag.S \/ type l = Tag.S1 \/ type l = Tag.S2.
Proof.
  intros Hl Hd HP HA HI. pose proof (denotes_atom _ _ _ _ _ Hl Hd) as Hi.
  destruct (type l); try tauto; try contradiction; subst T; contradiction.
Qed.

(** Back up one cell and rewrite it. *)
Lemma pinv_rewrite pe fuel0 s prev cur mv spine l c r prev' s' :
  pinv s prev cur mv spine -> prev <> 0 ->
  mem s !! cur = Some l -> type l <> Tag.A -> type l <> Tag.I1 ->
  mem s !! prev = Some c ->
  0 < next_alloc s -> next_alloc s + 2 < from_space_end s ->
  partial_eval_primitive_application pe fuel0 prev (arg1 c)
    (with_mem (insert prev (set_arg1 cur c)) s) = Ret (r, prev') s' ->
  exists mv' spine',
    pinv s' prev' r mv' spine' /\
    next_alloc s <= next_alloc s' <= next_alloc s + 2 /\
    from_space_end s' = from_space_end s.
Proof.
  intros Hinv Hprev Hl HlA HlI Hc Hpos Hroom E.
  destruct (pinv_cur _ _ _ _ _ Hinv) as (Hcur & Hlt & T0 & H0 & P0).
  destruct Hinv as [Hv Hpres Hn].
  destruct spine as [| e rest];
    [exfalso; apply Hprev; apply (virt_prev_null _ _ _ _ _ Hv); reflexivity|].
  pose proof Hv as [Hnull Hnd Hsame Hs].
  simpl in Hs. destruct Hs as (-> & c' & Hc' & HA & Hve & Hrest).
  rewrite Hc in Hc'. injection Hc' as <-.
  apply NoDup_cons in Hnd as [He Hnd].
  apply not_elem_of_cons in Hcur as [Hce Hcr].
  set (lim := next_alloc s) in *.
  set (ce := set_arg1 cur c) in *.
  set (s1 := with_mem (insert e ce) s) in *.
  assert (Hez : e <> 0) by (intros ->; congruence).
  assert (Hel : e < lim) by (apply Hlt; apply elem_of_cons; auto).
  assert (Hcl : cur < lim) by (eapply denotes_below; exact H0).
  assert (Hlv : mv !! cur = Some l).
  { rewrite Hsame; [exact Hl|]. apply not_elem_of_cons. auto. }
  (* the spine without [e] *)
  assert (Hv1 : virt (mem s1) mv (arg1 c) e rest).
  { constructor.
    - simpl. rewrite lookup_insert_ne by congruence. exact Hnull.
    - exact Hnd.
    - intros q Hq. simpl. destruct (decide (q = e)) as [-> | Hne].
      + rewrite lookup_insert_eq. exact Hve.
      + rewrite lookup_insert_ne by congruence. apply Hsame.
        apply not_elem_of_cons. auto.
    - apply (spine_ok_frame (mem s) _ mv mv); [|exact Hrest].
      intros q Hq. split; [|reflexivity]. simpl.
      apply lookup_insert_ne. intros ->. contradiction. }
  assert (He1 : mem s1 !! e = Some ce) by (simpl; apply lookup_insert_eq).
  assert (Hl1 : mem s1 !! arg1 ce = Some l).
  { simpl. rewrite lookup_insert_ne by congruence. exact Hl. }
  assert (Hne : arg1 ce <> e) by (simpl; congruence).
  assert (Hltr : forall q, q ∈ rest -> q < lim).
  { intros q Hq. apply Hlt. apply elem_of_cons. auto. }
  (* a rewrite that updates [e] and returns it *)
  assert (Hsame_cur : forall c2,
            preserves lim lim mv (<[e := c2]> mv) ->
            exists mv' spine',
              pinv (with_mem (insert e c2) s1) (arg1 c) e mv' spine' /\
              lim <= next_alloc (with_mem (insert e c2) s1) <= lim + 2 /\
              from_space_end (with_mem (insert e c2) s1) = from_space_end s).
  { intros c2 Hp. exists (<[e := c2]> mv), rest. split.
    - constructor.
      + apply (virt_insert _ _ _ _ _ e c2 Hv1 He Hez).
      + eapply preserves_trans; [exact Hpres | exact Hp].
      + eapply moves_trans; [exact Hn | apply Hp].
    - simpl. fold lim. split; [lia | reflexivity]. }
  (* a rewrite that makes [e] an indirection to [x] and returns [x] *)
  assert (Hindirect : forall c2 x,
            type c2 = Tag.I1 -> arg1 c2 = x ->
            preserves lim lim mv (<[e := c2]> mv) ->
            exists mv' spine',
              pinv (with_mem (insert e c2) s1) (arg1 c) x mv' spine' /\
              lim <= next_alloc (with_mem (insert e c2) s1) <= lim + 2 /\
              from_space_end (with_mem (insert e c2) s1) = from_space_end s).
  { intros c2 x Ht2 Hx Hp.
    pose proof (virt_insert _ _ _ _ _ e c2 Hv1 He Hez) as Hv2.
    destruct (retarget_head lim _ _ _ _ _ x Hv2 Hltr) as (mv3 & Hv3 & Hp3 & Hb3).
    { eapply (shortcut_I1 _ _ _ c2);
        [apply lookup_insert_eq | exact Ht2 | rewrite Hx; apply shortcut_refl]. }
    exists mv3, rest. split.
    - constructor.
      + exact Hv3.
      + eapply preserves_trans; [exact Hpres|].
        eapply preserves_trans; [exact Hp | exact Hp3].
      + eapply moves_trans; [exact Hn|].
        eapply moves_trans; [apply Hp | exact Hb3].
    - simpl. fold lim. split; [lia | reflexivity]. }
  destruct (pure_head _ _ _ _ _ Hlv H0 P0 HlA HlI)
    as [Ht | [Ht | [Ht | [Ht | [Ht | Ht]]]]].
  - rewrite (rewrite_I pe fuel0 e (arg1 c) s1 ce l He1 Hl1 Ht) in E.
    injection E as <- <- <-.
    apply Hindirect; [reflexivity | reflexivity|].
    apply (mem_I lim mv e ce l Hve HA Hlv Hel Ht).
  - rewrite (rewrite_K pe fuel0 e (arg1 c) s1 ce l He1 Hl1 Ht) in E.
    injection E as <- <- <-.
    apply Hsame_cur. apply (mem_K lim mv e ce l Hve HA Hlv Hel Ht).
  - rewrite (rewrite_K1 pe fuel0 e (arg1 c) s1 ce l He1 Hl1 Hne Ht) in E.
    injection E as <- <- <-.
    apply Hindirect; [reflexivity | reflexivity|].
    apply (mem_K1 lim mv e ce l Hve HA Hlv Hel Ht).
  - rewrite (rewrite_S pe fuel0 e (arg1 c) s1 ce l He1 Hl1 Ht) in E.
    injection E as <- <- <-.
    apply Hsame_cur. apply (mem_S lim mv e ce l Hve HA Hlv Hel Ht).
  - rewrite (rewrite_S1 pe fuel0 e (arg1 c) s1 ce l He1 Hl1 Hne Ht) in E.
    injection E as <- <- <-.
    apply Hsame_cur. apply (mem_S1 lim mv e ce l Hve HA Hlv Hel Ht).
  - assert (Hex : is_exhausted s1 2 = false).
    { unfold is_exhausted. simpl. apply Z.leb_gt. exact Hroom. }
    rewrite (rewrite_S2 pe fuel0 e (arg1 c) s1 ce l He1 Hl1 Hne Ht Hex
               ltac:(simpl; fold lim; lia) ltac:(simpl; fold lim; lia)
               ltac:(simpl; fold lim; lia)) in E.
    injection E as <- <- <-.
    pose proof (mem_S2 lim mv e ce l Hve HA Hlv Hel Ht) as Hp.
    change (next_alloc s1) with lim.
    exists (<[e := mkExpr (forward ce) lim (lim + 1) (type ce)]>
              (<[lim + 1 := Expr_ctor Tag.A (arg2 l) (arg2 ce)]>
                 (<[lim := Expr_ctor Tag.A (arg1 l) (arg2 ce)]> mv))), rest.
    split; [|simpl; fold lim; split; [lia | reflexivity]].
    assert (Hfresh : forall k, lim <= k -> k ∉ rest).
    { intros k Hk Hin. apply Hltr in Hin. lia. }
    constructor.
    + simpl. apply virt_insert; [|exact He | exact Hez].
      apply virt_insert; [|apply Hfresh; lia | lia].
      apply virt_insert; [exact Hv1 | apply Hfresh; lia | lia].
    + simpl. eapply preserves_trans; [exact Hpres | exact Hp].
    + simpl. eapply moves_trans; [exact Hn | apply Hp].
Qed.

(** The loop of [partial_eval]: when it returns the spine is empty. *)
Lemma pinv_loop pe fuel0 fuel : forall s prev cur mv spine r s',
  pinv s prev cur mv spine ->
  0 < next_alloc s ->
  next_alloc s + 2 * Z.of_nat fuel < from_space_end s ->
  partial_eval_loop pe fuel0 fuel prev cur s = Ret r s' ->
  exists mv',
    pinv s' 0 r mv' [] /\
    exists cr, mem s' !! r = Some cr /\ type cr <> Tag.A /\
               type cr <> Tag.I1.
Proof.
  induction fuel as [| fuel IH]; intros s prev cur mv spine r s'
    Hinv Hpos Hroom E; [discriminate|].
  cbn [partial_eval_loop] in E.
  apply bind_Ret_inv in E as (cur1 & s1 & E1 & E).
  destruct (pinv_drop_i1 fuel0 s prev cur mv spine cur1 s1 Hinv E1)
    as (mv1 & Hinv1 & Hn1 & Hf1 & Hc1).
  apply bind_Ret_inv in E as ([prev2 cur2] & s2 & E2 & E).
  destruct (pinv_descend fuel0 fuel0 s1 prev cur1 mv1 spine prev2 cur2 s2
              Hinv1 Hc1 E2)
    as (mv2 & spine2 & Hinv2 & Hn2 & Hf2 & l & Hl & HlA & HlI).
  destruct (Z.eqb_spec prev2 0) as [-> | Hprev].
  - injection E as <- <-.
    assert (spine2 = []) as ->.
    { apply (virt_prev_null _ _ _ _ _ (pi_virt _ _ _ _ _ Hinv2)).
      reflexivity. }
    exists mv2. split; [exact Hinv2|]. exists l. auto.
  - apply bind_Ret_inv in E as (c & s3 & E3 & E).
    apply load_Ret_inv in E3 as [-> Hc].
    apply bind_Ret_inv in E as ([] & s3 & E3 & E).
    apply update_Ret_inv in E3 as (c' & Hc' & ->).
    rewrite Hc in Hc'. injection Hc' as <-.
    apply bind_Ret_inv in E as ([cur4 prev4] & s4 & E4 & E).
    destruct (pinv_rewrite pe fuel0 s2 prev2 cur2 mv2 spine2 l c cur4 prev4 s4
                Hinv2 Hprev Hl HlA HlI Hc ltac:(lia) ltac:(lia) E4)
      as (mv4 & spine4 & Hinv4 & Hn4 & Hf4).
    apply (IH s4 prev4 cur4 mv4 spine4 r s' Hinv4); [lia | lia | exact E].
Qed.
End Run.

(** On a graph that spells a pure term (one built from [S], [K] and [I]
    alone), with the null pointer naming no cell and room for two cells per
    turn of the loop, so that no collection runs: if [partial_eval] returns,
    the pointer it returns is a [K], [K1], [S], [S1], [S2] or [I] cell that
    spells a pure term convertible to the one [node] spelled, and every
    pointer that spelled a term spells a convertible term afterwards.  The
    spine the reducer reverses on its way down is back in order. *)
Theorem partial_eval_sound fuel node s t r s' :
  denotes (next_alloc s) (mem s) node t -> pure t ->
  mem s !! 0 = None -> 0 < next_alloc s ->
  next_alloc s + 2 * Z.of_nat fuel < from_space_end s ->
  partial_eval fuel node s = Ret r s' ->
  (exists t' cr,
     denotes (next_alloc s') (mem s') r t' /\ conv t t' /\ pure t' /\
     mem s' !! r = Some cr /\
     In (type cr) [Tag.I; Tag.K; Tag.K1; Tag.S; Tag.S1; Tag.S2]) /\
  (forall p, same_meaning s p s' p).
Proof.
  intros Hnode Hpure Hnull Hpos Hroom E.
  destruct fuel as [| fuel]; [discriminate|]. cbn [partial_eval] in E.
  assert (Hinv : pinv (next_alloc s) (mem s) node s 0 node (mem s) []).
  { constructor.
    - constructor; [exact Hnull | apply NoDup_nil; exact I | reflexivity
                    | reflexivity].
    - apply preserves_refl.
    - apply preserves_refl. }
  destruct (pinv_loop (next_alloc s) (mem s) node t Hnode Hpure _ _ _ _ _ _ _ _
              r s' Hinv Hpos Hroom E)
    as (mv' & [Hv Hpres Hn] & cr & Hcr & HA & HI).
  assert (Heq : forall q, mem s' !! q = mv' !! q).
  { intros q. symmetry. apply (vt_same _ _ _ _ _ Hv). apply not_elem_of_nil. }
  split.
  - destruct (Hn t Hnode) as (t' & Hd & [C P]). simpl in Hd.
    exists t', cr. split; [apply (denotes_ext _ mv'); assumption|].
    split; [exact C|]. split; [auto|]. split; [exact Hcr|].
    rewrite Heq in Hcr.
    destruct (pure_head _ _ _ _ _ Hcr Hd (P Hpure) HA HI)
      as [H | [H | [H | [H | [H | H]]]]]; rewrite H; simpl; tauto.
  - intros p u Hu. destruct (Hpres p u Hu) as (u' & Hd & [C _]).
    exists u'. split; [apply (denotes_ext _ mv'); assumption | exact C].
Qed.

(** [K S I] in two cells above the static atoms. *)
Definition ksi_state : state :=
  with_next_alloc 18
    (with_mem (fun m => <[16 := Expr_ctor Tag.A 17 cI]>
                          (<[17 := Expr_ctor Tag.A cK cS]> m))
       (initial_state [])).

Lemma ksi_spells :
  denotes (next_alloc ksi_state) (mem ksi_state) 16 (CApp (CApp CK CS) CI).
Proof.
  apply (denotes_cell _ _ _ (Expr_ctor Tag.A 17 cI));
    [simpl; lia | reflexivity|].
  simpl. eexists _, _. split; [reflexivity|]. split.
  - apply (denotes_cell _ _ _ (Expr_ctor Tag.A cK cS));
      [simpl; lia | reflexivity|].
    simpl. eexists _, _. split; [reflexivity|]. split.
    + apply (denotes_cell _ _ _ (Expr_ctor Tag.K 0 0));
        [simpl; unfold cK; lia | reflexivity | reflexivity].
    + apply (denotes_cell _ _ _ (Expr_ctor Tag.S 0 0));
        [simpl; unfold cS; lia | reflexivity | reflexivity].
  - apply (denotes_cell _ _ _ (Expr_ctor Tag.I 0 0));
      [simpl; unfold cI; lia | reflexivity | reflexivity].
Qed.

Lemma partial_eval_sound_witness :
  let r := value_of (partial_eval 5 16 ksi_state) 0 in
  let s' := state_of (partial_eval 5 16 ksi_state) ksi_state in
  (exists t' cr,
     denotes (next_alloc s') (mem s') r t' /\
     conv (CApp (CApp CK CS) CI) t' /\ pure t' /\
     mem s' !! r = Some cr /\
     In (type cr) [Tag.I; Tag.K; Tag.K1; Tag.S; Tag.S1; Tag.S2]) /\
  (forall p, same_meaning ksi_state p s' p).
Proof.
  apply (partial_eval_sound 5 16 ksi_state (CApp (CApp CK CS) CI)).
  - exact ksi_spells.
  - simpl. tauto.
  - reflexivity.
  - simpl. lia.
  - vm_compute. reflexivity.
  - vm_compute. reflexivity.
Defined.

(** *** [drop_i1] alone *)





(** ** The collector keeps nothing but what is reachable *)

Section Reclaim.
Variables fs fe ts te N0 top : Z.
Hypothesis layout :
  12 < fs /\ fs <= N0 <= fe /\ 12 < ts /\ (fe <= ts \/ te <= fs) /\
  fe - fs <= te - ts.













End Reclaim.






(** ** Syntax errors in a program file *)

Section ParseErrors.
(** A stream whose [error] ends the process with exit code 1 after a report,
    as long as the stream is in a good state, which reading preserves. *)
Context {T : Type} `{Stream T}.
Variable good : T -> Prop.
Variable report : string -> T -> state -> state.
Hypothesis Hgetch : forall f c f', good f -> getch f = (c, f') -> good f'.
Hypothesis Herror :
  forall X msg f st, good f -> @error T _ X msg f st = Exit 1 (report msg f st).

Lemma getch_seq_good n : forall f cs f',
  good f -> getch_seq f n = (cs, f') -> good f'.
Proof.
  induction n as [| n IH]; intros f cs f' Hg E.
  - injection E as _ <-. exact Hg.
  - rewrite getch_seq_S in E. destruct (getch f) as [c f1] eqn:Eg.
    destruct (getch_seq f1 n) as [cs1 f2] eqn:Es. injection E as _ <-.
    eapply IH; [|exact Es]. eapply Hgetch; eassumption.
Qed.

(** The state differs from [s] in the heap only. *)
Definition only_heap (s s1 : state) : Prop :=
  s1 = with_mem (fun _ => mem s1) (with_next_alloc (next_alloc s1) s).

Lemma syntax_errors xs fuel (f : T) s :
  good f ->
  forallb well_formed xs = true ->
  (S (S (list_sum (map syntax_size xs))) < fuel)%nat ->
  12 < next_alloc s ->
  (forall f1 d f2,
     getch_seq f (length (concat (map render xs)))
     = (concat (map render xs), f1) ->
     getch f1 = (d, f2) -> starts_expr d = false -> d <> EOF ->
     exists s1,
       parse_manual_close fuel f EOF s
       = Exit 1 (report "Invalid character!" f2 s1) /\ only_heap s s1) /\
  (forall f1 f2,
     getch_seq f (length (concat (map render xs)))
     = (concat (map render xs), f1) ->
     getch f1 = (chr ")"%char, f2) ->
     exists s1,
       parse_manual_close fuel f EOF s
       = Exit 1 (report "Unmatched trailing close-parenthesis!" f2 s1) /\
       only_heap s s1) /\
  (forall f0 f1 f2,
     getch f = (chr "("%char, f0) ->
     getch_seq f0 (length (concat (map render xs)))
     = (concat (map render xs), f1) ->
     getch f1 = (EOF, f2) ->
     exists s1,
       parse_manual_close fuel f EOF s
       = Exit 1 (report "Premature end of program!" f2 s1) /\
       only_heap s s1).
Proof.
  intros Hgood Hwf Hfuel Hst.
  assert (Hsz : forall bound, (list_sum (map syntax_size xs) <= bound)%nat ->
                  Forall (fun x => (syntax_size x <= bound)%nat) xs).
  { intros bound Hb. apply Forall_forall. intros x Hx.
    apply list_elem_of_In in Hx.
    assert (syntax_size x <= list_sum (map syntax_size xs))%nat; [|lia].
    clear -Hx. induction xs as [| y ys IHys]; [destruct Hx|].
    destruct Hx as [-> | Hx]; simpl; [lia|]. specialize (IHys Hx). lia. }
  assert (Hlen : (length xs <= list_sum (map syntax_size xs))%nat).
  { clear. induction xs as [| y ys IHys]; simpl; [lia|].
    assert (1 <= syntax_size y)%nat by (destruct y; simpl; lia). lia. }
  set (pre := concat (map render xs)) in *.
  assert (Htop : forall f1,
            getch_seq f (length pre) = (pre, f1) ->
            exists e1 s1,
              parse_manual_close_loop (parse_expr fuel) fuel f 0 s
              = parse_manual_close_loop (parse_expr fuel)
                  (S (fuel - length xs - 1)) f1 e1 s1 /\
              only_heap s s1).
  { intros f1 Hseq.
    destruct (parse_manual_close_operands (parse_expr fuel) fuel xs
                (S (fuel - length xs - 1)) f f1 s (parse_expr_spec fuel)
                Hwf (Hsz fuel ltac:(lia)) Hseq Hst)
      as (e1 & s1 & E & Hp).
    replace (length xs + S (fuel - length xs - 1))%nat with fuel in E by lia.
    exists e1, s1. split; [exact E|]. destruct Hp as (_ & _ & _ & _ & Hp).
    exact Hp. }
  split; [|split].
  - intros f1 d f2 Hseq Hg Hd HnE.
    destruct (Htop f1 Hseq) as (e1 & s1 & E & Hoh).
    pose proof (getch_seq_good _ _ _ _ Hgood Hseq) as Hg1.
    pose proof (Hgetch _ _ _ Hg1 Hg) as Hg2.
    exists s1. split; [|exact Hoh].
    unfold parse_manual_close, parse_manual_close_with.
    rewrite bind_unfold, E. cbn [parse_manual_close_loop]. rewrite Hg.
    assert (Hgo : negb (d =? chr ")"%char) && negb (d =? EOF) = true).
    { unfold starts_expr in Hd. rewrite !orb_false_iff in Hd.
      destruct Hd as (((((_ & _) & _) & Hd) & _) & _). rewrite Hd.
      destruct (Z.eqb_spec d EOF); [contradiction | reflexivity]. }
    rewrite Hgo.
    destruct fuel as [| fuel']; [lia|].
    rewrite (parse_expr_invalid fuel' _ d false Hd).
    rewrite bind_unfold, (Herror _ _ _ _ Hg2). reflexivity.
  - intros f1 f2 Hseq Hg.
    destruct (Htop f1 Hseq) as (e1 & s1 & E & Hoh).
    pose proof (getch_seq_good _ _ _ _ Hgood Hseq) as Hg1.
    pose proof (Hgetch _ _ _ Hg1 Hg) as Hg2.
    exists s1. split; [|exact Hoh].
    unfold parse_manual_close, parse_manual_close_with.
    rewrite bind_unfold, E. cbn [parse_manual_close_loop]. rewrite Hg.
    rewrite Z.eqb_refl. cbn [negb andb mret M_ret ret].
    change (negb (chr ")"%char =? EOF)) with true.
    change (chr ")"%char =? EOF) with false. cbv iota.
    rewrite bind_unfold, (Herror _ _ _ _ Hg2). reflexivity.
  - intros f0 f1 f2 Hopen Hseq Hend.
    destruct fuel as [| fuel']; [lia|].
    destruct (parse_manual_close_operands (parse_expr fuel') fuel' xs
                (S (fuel' - length xs - 1)) f0 f1 s
                (parse_expr_spec fuel') Hwf (Hsz fuel' ltac:(lia)) Hseq Hst)
      as (e1 & s1 & E & Hp).
    replace (length xs + S (fuel' - length xs - 1))%nat with fuel' in E
      by lia.
    pose proof (Hgetch _ _ _ Hgood Hopen) as Hg0.
    pose proof (getch_seq_good _ _ _ _ Hg0 Hseq) as Hg1.
    pose proof (Hgetch _ _ _ Hg1 Hend) as Hg2.
    exists s1. split; [|destruct Hp as (_ & _ & _ & _ & Hp); exact Hp].
    assert (Hinner :
              parse_expr (S fuel') f0 (chr "("%char) false s
              = Exit 1 (report "Premature end of program!" f2 s1)).
    { rewrite parse_expr_paren. unfold parse_manual_close_with.
      rewrite bind_unfold, E. cbn [parse_manual_close_loop]. rewrite Hend.
      change (negb (EOF =? chr ")"%char) && negb (EOF =? EOF)) with false.
      cbv iota. cbn [mret M_ret ret].
      change (negb (EOF =? chr ")"%char)) with true. cbv iota.
      rewrite Z.eqb_refl.
      rewrite bind_unfold, (Herror _ _ _ _ Hg2). reflexivity. }
    unfold parse_manual_close, parse_manual_close_with.
    rewrite bind_unfold. cbn [parse_manual_close_loop]. rewrite Hopen.
    change (negb (chr "("%char =? chr ")"%char) && negb (chr "("%char =? EOF))
      with true. cbv iota.
    rewrite bind_unfold, Hinner. reflexivity.
Qed.
End ParseErrors.

(** What [File::error] writes between the header line and the arrow: the
    characters of the buffer from position [i] on, [n] of them. *)
Fixpoint File_context_from (f : File) (n : nat) (i : Z) : list string :=
  match n with
  | O => []
  | S n' =>
      String (Ascii.ascii_of_nat
                (Z.to_nat (default 0 (circular_buf f
                                        !! Z.to_nat (Z.rem i circular_buf_size))
                           mod 256))) EmptyString
      :: File_context_from f n' (i + 1)
  end.

(** The line is short when [File::error] shows it from its start. *)
Definition File_short (f : File) : bool :=
  cur_pos f - last_newline f <? circular_buf_size.

Definition File_from (f : File) : Z :=
  if File_short f then last_newline f
  else cur_pos f - circular_buf_size + 1.

Definition File_context (f : File) : list string :=
  File_context_from f (Z.to_nat (cur_pos f - File_from f)) (File_from f).

Definition File_header (name msg : string) : string :=
  "While parsing " +:+ dquote +:+ name +:+ dquote +:+ ": " +:+ msg +:+ nl.

(** The buffer has its size and the two counters are in order. *)
Definition buf_ok (f : File) : Prop :=
  length (circular_buf f) = 256%nat /\ 0 <= last_newline f <= cur_pos f.

Lemma File_getch_loop_buf_ok fuel : forall f,
  buf_ok f ->
  buf_ok (File_getch_loop fuel f).2 /\
  filename (File_getch_loop fuel f).2 = filename f.
Proof.
  induction fuel as [| fuel IH]; intros f Hok; [split; [exact Hok | reflexivity]|].
  cbn [File_getch_loop].
  destruct (getc (file f)) as [ch bytes].
  destruct (if ch =? chr "#"%char then skip_comment bytes else (ch, bytes))
    as [ch' bytes'].
  set (g := mkFile _ _ _ _ _).
  assert (Hg : buf_ok g).
  { destruct Hok as (Hlen & Hlast). unfold buf_ok, g.
    cbn [circular_buf last_newline cur_pos]. rewrite length_insert.
    split; [exact Hlen|]. destruct (ch' =? 10); lia. }
  destruct (isspace ch').
  - destruct (IH g Hg) as (H1 & H2). split; [exact H1 | exact H2].
  - split; [exact Hg | reflexivity].
Qed.

Lemma File_getch_buf_ok name f c f' :
  buf_ok f /\ filename f = name -> getch f = (c, f') ->
  buf_ok f' /\ filename f' = name.
Proof.
  intros (Hok & Hn) E.
  destruct (File_getch_loop_buf_ok (S (length (file f))) f Hok) as (H1 & H2).
  change (getch f) with (File_getch_loop (S (length (file f))) f) in E.
  rewrite E in H1, H2. cbn [snd] in *. split; [exact H1 | congruence].
Qed.

Lemma with_stderr_nil st : with_stderr (stderr_ st ++ []) st = st.
Proof. destruct st. cbn. rewrite app_nil_r. reflexivity. Qed.

Lemma with_stderr_app l1 l2 st :
  with_stderr (stderr_ (with_stderr (stderr_ st ++ l1) st) ++ l2)
    (with_stderr (stderr_ st ++ l1) st)
  = with_stderr (stderr_ st ++ l1 ++ l2) st.
Proof. destruct st. cbn. rewrite <- app_assoc. reflexivity. Qed.

(** The loop of [File::error] never leaves the buffer. *)
Lemma File_context_loop f n : forall i st,
  length (circular_buf f) = 256%nat -> 0 <= i ->
  for_loop n i (fun i => c ← read_buf f i; putc_stderr c) st
  = Ret tt (with_stderr (stderr_ st ++ File_context_from f n i) st).
Proof.
  induction n as [| n IH]; intros i st Hlen Hi.
  - cbn [for_loop File_context_from]. rewrite with_stderr_nil. reflexivity.
  - cbn [for_loop File_context_from].
    assert (Hrem : 0 <= Z.rem i circular_buf_size < 256).
    { unfold circular_buf_size. rewrite Z.rem_mod_nonneg by lia.
      apply Z.mod_pos_bound. lia. }
    destruct (circular_buf f !! Z.to_nat (Z.rem i circular_buf_size))
      as [b |] eqn:Eb.
    2:{ apply lookup_ge_None in Eb. lia. }
    rewrite bind_unfold.
    assert (Hbody : (c ← read_buf f i; putc_stderr c) st
                    = Ret tt (with_stderr
                                (stderr_ st ++
                                 [String (Ascii.ascii_of_nat
                                            (Z.to_nat (b mod 256))) EmptyString])
                                st)).
    { rewrite bind_unfold. unfold read_buf.
      destruct (Z.ltb_spec (Z.rem i circular_buf_size) 0) as [Hneg |]; [lia|].
      rewrite Eb. reflexivity. }
    rewrite Hbody, IH by (assumption || lia).
    rewrite with_stderr_app. reflexivity.
Qed.

(** The state [File::error] leaves. *)
Definition File_report (msg : string) (f : File) (st : state) : state :=
  let st1 := with_stderr (stderr_ st ++ [File_header (filename f) msg]) st in
  let st2 := if File_short f then st1
             else with_stdout (stdout_ st1 ++ text "...") st1 in
  let st3 := with_stderr (stderr_ st2 ++ File_context f) st2 in
  with_stderr (stderr_ st3 ++ [" <--" +:+ nl]) st3.

Lemma File_from_nonneg f : buf_ok f -> 0 <= File_from f.
Proof.
  intros (_ & Hl). unfold File_from, File_short, circular_buf_size.
  destruct (Z.ltb_spec (cur_pos f - last_newline f) 256); lia.
Qed.

Lemma File_error_run {X} msg f st :
  buf_ok f -> @File_error X msg f st = Exit 1 (File_report msg f st).
Proof.
  intros Hok. pose proof (File_from_nonneg f Hok) as Hfrom.
  destruct Hok as (Hlen & Hl).
  unfold File_error, File_report, File_context, File_from in *.
  unfold File_short in *.
  rewrite bind_unfold. cbn [fputs_stderr modify].
  destruct (cur_pos f - last_newline f <? circular_buf_size).
  - rewrite bind_unfold. cbn [mret M_ret ret].
    rewrite bind_unfold, File_context_loop by assumption.
    rewrite bind_unfold. reflexivity.
  - rewrite bind_unfold, bind_unfold. cbn [fputs_stdout modify mret M_ret ret].
    rewrite bind_unfold, File_context_loop by assumption.
    rewrite bind_unfold. reflexivity.
Qed.

Lemma File_context_from_length f n i :
  length (File_context_from f n i) = n.
Proof. revert i. induction n as [| n IH]; intros i; simpl; [|rewrite IH]; reflexivity. Qed.

Lemma File_context_length f :
  buf_ok f -> (length (File_context f) < 256)%nat.
Proof.
  intros (_ & Hl). unfold File_context. rewrite File_context_from_length.
  unfold File_from, File_short, circular_buf_size.
  destruct (Z.ltb_spec (cur_pos f - last_newline f) 256); lia.
Qed.

(** The report of a syntax error in a file: a header line with the name of
    the file and the message, the context, and an arrow, on the standard
    error stream; three dots on the standard output when the context does
    not start with the line. *)
Definition file_report (msg : string) (f : File) (s s' : state) : Prop :=
  stderr_ s' = stderr_ s ++
    File_header (filename f) msg :: File_context f ++ [" <--" +:+ nl] /\
  stdout_ s' = stdout_ s ++ (if File_short f then [] else text "...") /\
  (length (File_context f) < 256)%nat.

Lemma File_report_shape msg f s s1 :
  buf_ok f -> only_heap s s1 -> file_report msg f s (File_report msg f s1).
Proof.
  intros Hok Hoh.
  assert (He : stderr_ s1 = stderr_ s) by (rewrite Hoh; reflexivity).
  assert (Ho : stdout_ s1 = stdout_ s) by (rewrite Hoh; reflexivity).
  split; [|split].
  - unfold File_report. destruct (File_short f); destruct s1; cbn in *;
      subst; rewrite <- !app_assoc; reflexivity.
  - unfold File_report. destruct (File_short f); destruct s1; cbn in *;
      subst; [rewrite app_nil_r|]; reflexivity.
  - apply File_context_length, Hok.
Qed.

Lemma strip_from_bytes c bytes :
  Forall is_byte bytes -> Forall is_byte (strip_from c bytes).
Proof.
  revert c. induction bytes as [| b bytes IH]; intros c Hb; [constructor|].
  inversion Hb as [| ? ? Hb1 Hb2]; subst. cbn [strip_from].
  destruct c; [apply IH, Hb2|].
  destruct (b =? chr "#"%char); [apply IH, Hb2|].
  destruct (isspace b); [apply IH, Hb2|].
  constructor; [exact Hb1 | apply IH, Hb2].
Qed.

Lemma File_getch_prefix pre : forall rest f,
  Forall is_byte (file f) ->
  strip (file f) = pre ++ rest ->
  exists f1,
    getch_seq f (length pre) = (pre, f1) /\
    Forall is_byte (file f1) /\ strip (file f1) = rest.
Proof.
  induction pre as [| c pre IH]; intros rest f Hb Hs.
  - exists f. repeat split; assumption.
  - destruct (File_getch_spec f Hb) as (f1 & E & Hs1 & Hb1 & _).
    rewrite Hs in E, Hs1. cbn [app tail] in E, Hs1.
    destruct (IH rest f1 Hb1 Hs1) as (f2 & E2 & Hb2 & Hs2).
    exists f2. cbn [length]. rewrite getch_seq_S, E, E2.
    repeat split; assumption.
Qed.

(** A syntax error in a program file ends the process with exit code 1
    after a report that names the file: an invalid character after some
    complete expressions, a closing parenthesis that nothing opened, and a
    parenthesis still open at the end of the file.  The file is read as its
    text without blanks and comments; the context that is reported is read
    from the buffer of the stream after the offending character, and the
    reading stays inside the buffer. *)
Theorem file_syntax_errors xs bytes name junk c rest fuel s :
  Forall is_byte bytes ->
  length junk = 256%nat ->
  forallb well_formed xs = true ->
  (S (S (list_sum (map syntax_size xs))) < fuel)%nat ->
  12 < next_alloc s ->
  (strip bytes = concat (map render xs) ++ c :: rest ->
   starts_expr c = false ->
   exists f' s',
     getch_seq (File_new bytes name junk)
       (S (length (concat (map render xs))))
     = (concat (map render xs) ++ [c], f') /\
     filename f' = name /\
     parse_manual_close fuel (File_new bytes name junk) EOF s = Exit 1 s' /\
     file_report "Invalid character!" f' s s') /\
  (strip bytes = concat (map render xs) ++ chr ")"%char :: rest ->
   exists f' s',
     getch_seq (File_new bytes name junk)
       (S (length (concat (map render xs))))
     = (concat (map render xs) ++ [chr ")"%char], f') /\
     filename f' = name /\
     parse_manual_close fuel (File_new bytes name junk) EOF s = Exit 1 s' /\
     file_report "Unmatched trailing close-parenthesis!" f' s s') /\
  (strip bytes = chr "("%char :: concat (map render xs) ->
   exists f' s',
     getch_seq (File_new bytes name junk)
       (S (S (length (concat (map render xs)))))
     = (chr "("%char :: concat (map render xs) ++ [EOF], f') /\
     filename f' = name /\
     parse_manual_close fuel (File_new bytes name junk) EOF s = Exit 1 s' /\
     file_report "Premature end of program!" f' s s').
Proof.
  intros Hb Hjunk Hwf Hfuel Hst.
  set (f := File_new bytes name junk).
  set (good := fun g : File => buf_ok g /\ filename g = name).
  assert (Hgood : good f).
  { split; [split; [exact Hjunk | cbn; lia] | reflexivity]. }
  destruct (syntax_errors good File_report (File_getch_buf_ok name)
              (fun X msg g st Hg => @File_error_run X msg g st (proj1 Hg))
              xs fuel f s Hgood Hwf Hfuel Hst) as (Hinv & Hclose & Hend).
  assert (Hseq : forall g n cs1 g1 d g2,
            getch_seq g n = (cs1, g1) -> getch g1 = (d, g2) ->
            getch_seq g (S n) = (cs1 ++ [d], g2)).
  { intros g n. revert g. induction n as [| n IH]; intros g cs1 g1 d g2 E1 E2.
    - injection E1 as <- <-. rewrite getch_seq_S, E2. reflexivity.
    - rewrite getch_seq_S in E1 |- *. destruct (getch g) as [c0 g0].
      destruct (getch_seq g0 n) as [cs0 g0'] eqn:E0. injection E1 as <- <-.
      rewrite (IH g0 cs0 g0' d g2 E0 E2). reflexivity. }
  assert (Hread : forall d rest',
            strip bytes = concat (map render xs) ++ d :: rest' ->
            exists f1 f2,
              getch_seq f (length (concat (map render xs)))
              = (concat (map render xs), f1) /\
              getch f1 = (d, f2) /\ good f2 /\ d <> EOF).
  { intros d rest' Hs.
    destruct (File_getch_prefix _ _ f Hb Hs) as (f1 & E1 & Hb1 & Hs1).
    destruct (File_getch_spec f1 Hb1) as (f2 & E2 & _).
    rewrite Hs1 in E2.
    pose proof (getch_seq_good good (File_getch_buf_ok name) _ _ _ _ Hgood E1)
      as Hg1.
    exists f1, f2. split; [exact E1|]. split; [exact E2|].
    split; [exact (File_getch_buf_ok name _ _ _ Hg1 E2)|].
    pose proof (strip_from_bytes false bytes Hb) as Hall.
    fold (strip bytes) in Hall. rewrite Hs in Hall.
    apply Forall_app in Hall as (_ & Hall).
    inversion Hall as [| ? ? Hcb _]; subst. unfold is_byte, EOF in *. lia. }
  split; [|split].
  - intros Hs Hc.
    destruct (Hread c rest Hs) as (f1 & f2 & E1 & E2 & (Hok2 & Hn2) & HcE).
    destruct (Hinv f1 c f2 E1 E2 Hc HcE) as (s1 & E & Hoh).
    exists f2, (File_report "Invalid character!" f2 s1).
    split; [exact (Hseq _ _ _ _ _ _ E1 E2)|].
    split; [exact Hn2|]. split; [exact E|].
    apply File_report_shape; assumption.
  - intros Hs.
    destruct (Hread _ rest Hs) as (f1 & f2 & E1 & E2 & (Hok2 & Hn2) & _).
    destruct (Hclose f1 f2 E1 E2) as (s1 & E & Hoh).
    exists f2, (File_report "Unmatched trailing close-parenthesis!" f2 s1).
    split; [exact (Hseq _ _ _ _ _ _ E1 E2)|].
    split; [exact Hn2|]. split; [exact E|].
    apply File_report_shape; assumption.
  - intros Hs.
    destruct (File_getch_spec f Hb) as (f0 & E0 & Hs0 & Hb0 & _).
    change (file f) with bytes in E0, Hs0. rewrite Hs in E0, Hs0.
    cbn [tail] in Hs0.
    destruct (File_getch_prefix (concat (map render xs)) [] f0 Hb0
                ltac:(rewrite app_nil_r; exact Hs0))
      as (f1 & E1 & Hb1 & Hs1).
    destruct (File_getch_spec f1 Hb1) as (f2 & E2 & _).
    rewrite Hs1 in E2.
    pose proof (File_getch_buf_ok name _ _ _ Hgood E0) as Hg0.
    pose proof (getch_seq_good good (File_getch_buf_ok name) _ _ _ _ Hg0 E1)
      as Hg1.
    pose proof (File_getch_buf_ok name _ _ _ Hg1 E2) as (Hok2 & Hn2).
    destruct (Hend f0 f1 f2 E0 E1 E2) as (s1 & E & Hoh).
    exists f2, (File_report "Premature end of program!" f2 s1).
    split.
    { rewrite getch_seq_S, E0, (Hseq _ _ _ _ _ _ E1 E2). reflexivity. }
    split; [exact Hn2|]. split; [exact E|].
    apply File_report_shape; assumption.
Qed.

(** The file that holds [k # K] on its first line and [ i?] on its
    second. *)
Definition bad_file : list Z :=
  [chr "k"%char; chr " "%char; chr "#"%char; chr " "%char; chr "K"%char; 10;
   chr " "%char; chr "i"%char; chr "?"%char].

Lemma bad_file_bytes : Forall is_byte bad_file.
Proof.
  unfold bad_file.
  repeat (constructor; [split; [discriminate | reflexivity]|]). constructor.
Qed.

Lemma file_syntax_errors_witness :
  exists f' s',
    getch_seq (File_new bad_file "bad.lazy" (replicate 256 0)) 3
    = ([chr "k"%char; chr "i"%char; chr "?"%char], f') /\
    filename f' = "bad.lazy" /\
    parse_manual_close 5 (File_new bad_file "bad.lazy" (replicate 256 0)) EOF
      (initial_state [])
    = Exit 1 s' /\
    file_report "Invalid character!" f' (initial_state []) s'.
Proof.
  destruct (file_syntax_errors [Atom (chr "k"%char); Atom (chr "i"%char)]
              bad_file "bad.lazy" (replicate 256 0) (chr "?"%char) [] 5
              (initial_state []))
    as (Hbad & _).
  - exact bad_file_bytes.
  - reflexivity.
  - reflexivity.
  - simpl. lia.
  - simpl. unfold space1. lia.
  - apply Hbad; reflexivity.
Defined.
